(** * commons.h: dynamic arrays, the open-addressed map and djb2

    A shallow embedding of [commons.h].  The header generates its code with
    macros over the element type; here the same code is written once, over a
    type parameter.  Functions that take [self] by pointer become
    computations in a state-and-error monad over the pointed-to struct.  A
    computation either returns, stops on undefined behaviour (a call through
    a null function pointer, an access outside the allocated block, a
    division by zero) or exhausts the fuel that bounds its loops. *)

From Stdlib Require Import ZArith Lia.
From stdpp Require Import base list numbers.

Local Open Scope Z_scope.

(** ** Machine words *)

(** [size_t] is an unsigned integer of [size_bits] bits; the C standard
    guarantees at least 16. *)
Class WordSize := {
  size_bits : Z;
  size_bits_min : 16 <= size_bits
}.

Definition size_modulus `{WordSize} : Z := 2 ^ size_bits.

(** Conversion to [size_t]: reduction modulo [2 ^ size_bits]. *)
Definition to_size_t `{WordSize} (z : Z) : Z := z mod size_modulus.

Definition word64 : WordSize :=
  {| size_bits := 64; size_bits_min := ltac:(discriminate) |}.

(** The object of type [T] whose bytes are all zero: what [calloc] returns
    and what a compound literal leaves in the members it does not name. *)
Class Zeroed (T : Type) := zeroed : T.

#[export] Instance Z_zeroed : Zeroed Z := 0.
#[export] Instance bool_zeroed : Zeroed bool := false.

(** ** Outcomes and the monad *)

Inductive res (A : Type) : Type :=
| Ret (a : A)
| Crash
| OutOfFuel.
Arguments Ret {A} a.
Arguments Crash {A}.
Arguments OutOfFuel {A}.

(** A computation on a struct of type [S] reached through [self]. *)
Definition M (S A : Type) : Type := S -> res (A * S).

Definition ret {S A} (a : A) : M S A := fun s => Ret (a, s).

Definition bind {S A B} (c : M S A) (k : A -> M S B) : M S B :=
  fun s =>
    match c s with
    | Ret (a, s') => k a s'
    | Crash => Crash
    | OutOfFuel => OutOfFuel
    end.

Definition get_self {S} : M S S := fun s => Ret (s, s).
Definition put_self {S} (s' : S) : M S unit := fun _ => Ret (tt, s').
Definition crash {S A} : M S A := fun _ => Crash.
Definition out_of_fuel {S A} : M S A := fun _ => OutOfFuel.

Definition run {S A} (c : M S A) (s : S) : res (A * S) := c s.

Declare Scope cmd_scope.
Delimit Scope cmd_scope with cmd.
Notation "x <- c ;; k" := (bind c (fun x => k))
  (at level 100, c at next level, right associativity) : cmd_scope.
Notation "c ;; k" := (bind c (fun _ => k))
  (at level 100, right associativity) : cmd_scope.
Local Open Scope cmd_scope.

(** [a % b] on [size_t]; a zero divisor is undefined. *)
Definition umod {S} (a b : Z) : M S Z :=
  if b =? 0 then crash else ret (a mod b).

(** ** Option and result *)

Inductive Err : Type := ERR_NONE | ERR_INDEX_OUT_OF_BOUNDS.

Module Opt.
Record t (T : Type) : Type := mk { ok : bool; value : T }.
Arguments mk {T} ok value.
Arguments ok {T} _.
Arguments value {T} _.
End Opt.

Module Res.
Record t (T : Type) : Type := mk { err : Err; value : T }.
Arguments mk {T} err value.
Arguments err {T} _.
Arguments value {T} _.
End Res.

(** ** Dynamic array *)

(** [buf] is the allocated block seen as slots of type [T]; [len] and [cap]
    are the struct's fields. *)
Record dyn (T : Type) : Type := mk_dyn { buf : list T; len : Z; cap : Z }.
Arguments mk_dyn {T} buf len cap.
Arguments buf {T} _.
Arguments len {T} _.
Arguments cap {T} _.

Section Dyn.
Context `{WordSize} {T : Type} `{Zeroed T}.

(** [self->buf[index]] read; [index] is a [size_t], never negative.
    Outside the block the access is undefined. *)
Definition dyn_load (index : Z) : M (dyn T) T :=
  self <- get_self ;;
  if index <? Z.of_nat (length (buf self)) then
    match buf self !! Z.to_nat index with
    | Some x => ret x
    | None => crash
    end
  else crash.

(** [self->buf[index] = x]. *)
Definition dyn_store (index : Z) (x : T) : M (dyn T) unit :=
  self <- get_self ;;
  if index <? Z.of_nat (length (buf self)) then
    put_self (mk_dyn (<[Z.to_nat index := x]> (buf self)) (len self) (cap self))
  else crash.

Definition set_len (n : Z) : M (dyn T) unit :=
  self <- get_self ;; put_self (mk_dyn (buf self) n (cap self)).

Definition dyn_init : dyn T :=
  let cap := 32 in
  mk_dyn (replicate (Z.to_nat cap) zeroed) 0 cap.

Definition dyn_init_with_cap (cap : Z) : dyn T :=
  mk_dyn (replicate (Z.to_nat cap) zeroed) 0 cap.

Definition dyn_at (index : Z) : M (dyn T) (Opt.t T) :=
  self <- get_self ;;
  if len self <=? index then ret (Opt.mk false zeroed)
  else x <- dyn_load index ;; ret (Opt.mk true x).

Definition dyn_pop : M (dyn T) (Opt.t T) :=
  self <- get_self ;;
  elem <- dyn_at (to_size_t (len self - 1)) ;;
  (if Opt.ok elem then set_len (to_size_t (len self - 1)) else ret tt) ;;
  ret elem.

(** The loop of [dyn_remove]:
    [for (; index + 1 < self->len; index++) buf[index - 1] = buf[index];] *)
Fixpoint dyn_remove_loop (fuel : nat) (index : Z) : M (dyn T) unit :=
  match fuel with
  | O => out_of_fuel
  | S fuel' =>
      self <- get_self ;;
      if to_size_t (index + 1) <? len self then
        x <- dyn_load index ;;
        dyn_store (to_size_t (index - 1)) x ;;
        dyn_remove_loop fuel' (to_size_t (index + 1))
      else ret tt
  end.

Definition dyn_remove (index : Z) : M (dyn T) (Opt.t T) :=
  elem <- dyn_at index ;;
  if negb (Opt.ok elem) then ret elem
  else
    self <- get_self ;;
    dyn_remove_loop (S (Z.to_nat (len self))) index ;;
    self <- get_self ;;
    set_len (to_size_t (len self - 1)) ;;
    ret elem.

Definition dyn_replace (index : Z) (elem : T) : M (dyn T) (Res.t T) :=
  self <- get_self ;;
  if len self <=? index then ret (Res.mk ERR_INDEX_OUT_OF_BOUNDS zeroed)
  else dyn_store index elem ;; ret (Res.mk ERR_NONE zeroed).

Definition dyn_clear : M (dyn T) unit := set_len 0.

(** [free(self->buf)], then both counters are zeroed.  The freed block is
    gone: no slot of it can be reached any more. *)
Definition dyn_deinit : M (dyn T) unit :=
  put_self (mk_dyn [] 0 0).
End Dyn.

(** ** [dyn_clone]: the one place where the byte size of [T] matters *)

(** How a [T] lies in memory: its size and its object representation. *)
Class CType (T : Type) := {
  sizeof : Z;
  to_bytes : T -> list Z;
  of_bytes : list Z -> T
}.

(** A 32-bit two's-complement [int], little endian. *)
Definition int_to_bytes (x : Z) : list Z :=
  [x mod 256; (x / 256) mod 256; (x / 65536) mod 256; (x / 16777216) mod 256].

Definition int_of_bytes (bs : list Z) : Z :=
  let u := foldr (fun b acc => b + 256 * acc) 0 bs in
  if u <? 2147483648 then u else u - 4294967296.

#[export] Instance int_ctype : CType Z :=
  {| sizeof := 4; to_bytes := int_to_bytes; of_bytes := int_of_bytes |}.

(** A [char]. *)
#[export] Instance char_ctype : CType Z | 10 :=
  {| sizeof := 1; to_bytes := fun c => [c mod 256];
     of_bytes := fun bs => default 0 (bs !! 0%nat) |}.

Section Clone.
Context `{WordSize} {T : Type} `{CType T}.

(** The bytes of a block of [T] slots, and back. *)
Definition bytes_of_buf (l : list T) : list Z := concat (to_bytes <$> l).

Definition buf_of_bytes (bs : list Z) : list T :=
  let sz := Z.to_nat sizeof in
  (fun i => of_bytes (take sz (drop (i * sz) bs))) <$> seq 0 (length bs / sz).

(** [malloc(size)]: a block whose bytes are indeterminate; [junk] says
    what happens to be there. *)
Definition malloc (junk : nat -> Z) (size : Z) : list Z :=
  junk <$> seq 0 (Z.to_nat size).

(** [memcpy(dst, src, n)]: the first [n] bytes of [dst] become those of
    [src]; both blocks must hold [n] bytes. *)
Definition memcpy {S} (dst src : list Z) (n : Z) : M S (list Z) :=
  if (n <=? Z.of_nat (length dst)) && (n <=? Z.of_nat (length src))
  then ret (take (Z.to_nat n) src ++ drop (Z.to_nat n) dst)
  else crash.

Definition dyn_clone (junk : nat -> Z) : M (dyn T) (dyn T) :=
  self <- get_self ;;
  let buf0 := malloc junk (to_size_t (sizeof * cap self)) in
  buf1 <- memcpy buf0 (bytes_of_buf (buf self)) (len self) ;;
  ret (mk_dyn (buf_of_bytes buf1) (len self) (cap self)).
End Clone.

(** ** Map *)

Record map_entry (K V : Type) : Type :=
  mk_entry { key : K; value : V; active : bool }.
Arguments mk_entry {K V} key value active.
Arguments key {K V} _.
Arguments value {K V} _.
Arguments active {K V} _.

(** The two function pointers may be null. *)
Record map_t (K V : Type) : Type := mk_map {
  entries : dyn (map_entry K V);
  active_count : Z;
  hash : option (K -> Z);
  key_compare : option (K -> K -> bool)
}.
Arguments mk_map {K V} entries active_count hash key_compare.
Arguments entries {K V} _.
Arguments active_count {K V} _.
Arguments hash {K V} _.
Arguments key_compare {K V} _.

#[export] Instance map_entry_zeroed {K V} `{Zeroed K} `{Zeroed V} :
  Zeroed (map_entry K V) := mk_entry zeroed zeroed false.

Section Map.
Context `{WordSize} {K V : Type} `{Zeroed K} `{Zeroed V}.

Local Abbreviation entry := (map_entry K V).
Local Abbreviation map := (map_t K V).

(** A computation on [self->entries]. *)
Definition on_entries {A} (c : M (dyn entry) A) : M map A :=
  fun self =>
    match c (entries self) with
    | Ret (a, d) =>
        Ret (a, mk_map d (active_count self) (hash self) (key_compare self))
    | Crash => Crash
    | OutOfFuel => OutOfFuel
    end.

(** [self->entries.buf[index]] *)
Definition entry_at (index : Z) : M map entry := on_entries (dyn_load index).

Definition set_active (index : Z) (b : bool) : M map unit :=
  e <- entry_at index ;;
  on_entries (dyn_store index (mk_entry (key e) (value e) b)).

Definition set_key (index : Z) (k : K) : M map unit :=
  e <- entry_at index ;;
  on_entries (dyn_store index (mk_entry k (value e) (active e))).

Definition set_value (index : Z) (v : V) : M map unit :=
  e <- entry_at index ;;
  on_entries (dyn_store index (mk_entry (key e) v (active e))).

Definition set_active_count (n : Z) : M map unit :=
  self <- get_self ;;
  put_self (mk_map (entries self) n (hash self) (key_compare self)).

(** [self->hash(key)]: a call through the pointer. *)
Definition call_hash (k : K) : M map Z :=
  self <- get_self ;;
  match hash self with
  | Some h => ret (to_size_t (h k))
  | None => crash
  end.

(** [self->key_compare(a, b)] *)
Definition call_key_compare (a b : K) : M map bool :=
  self <- get_self ;;
  match key_compare self with
  | Some e => ret (e a b)
  | None => crash
  end.

Definition map_init (hash : K -> Z) (key_compare : K -> K -> bool) : map :=
  mk_map (dyn_init_with_cap 97) 0 (Some hash) (Some key_compare).

Definition map_deinit : M map unit := on_entries dyn_deinit.

(** The probe loop of [map_insert].  [None]: the function returned
    [false] from inside the loop; [Some index]: the loop ended at
    [index]. *)
Fixpoint map_insert_loop (fuel : nat) (k : K) (index : Z) : M map (option Z) :=
  match fuel with
  | O => out_of_fuel
  | S fuel' =>
      e <- entry_at index ;;
      if active e then
        same <- call_key_compare (key e) k ;;
        if same then ret None
        else
          self <- get_self ;;
          index' <- umod (to_size_t (index + 1)) (cap (entries self)) ;;
          map_insert_loop fuel' k index'
      else ret (Some index)
  end.

(** The loop of [map_resize], running [insert] on [new_map] (the state)
    for every active slot of the old table [self]. *)
Fixpoint map_resize_loop (fuel : nat) (insert : K -> V -> M map bool)
    (self : map) (i : Z) : M map unit :=
  match fuel with
  | O => out_of_fuel
  | S fuel' =>
      if i <? cap (entries self) then
        match buf (entries self) !! Z.to_nat i with
        | None => crash
        | Some e =>
            (if active e then insert (key e) (value e) ;; ret tt else ret tt) ;;
            map_resize_loop fuel' insert self (to_size_t (i + 1))
        end
      else ret tt
  end.

(** [map_resize], given the [map_insert] it calls.  [new_map] names only
    [entries] and [active_count]: both function pointers are null. *)
Definition map_resize (insert : K -> V -> M map bool) : M map unit :=
  self <- get_self ;;
  let new_map :=
    mk_map (dyn_init_with_cap (to_size_t (cap (entries self) * 2 + 1))) 0 None None in
  fun s =>
    match map_resize_loop (S (Z.to_nat (cap (entries self)))) insert self 0 new_map with
    | Ret (_, new_map') => (map_deinit ;; put_self new_map') s
    | Crash => Crash
    | OutOfFuel => OutOfFuel
    end.

Fixpoint map_insert (fuel : nat) (k : K) (v : V) : M map bool :=
  match fuel with
  | O => out_of_fuel
  | S fuel' =>
      self <- get_self ;;
      (if cap (entries self) <=? active_count self
       then map_resize (map_insert fuel') else ret tt) ;;
      h <- call_hash k ;;
      self <- get_self ;;
      index <- umod h (cap (entries self)) ;;
      r <- map_insert_loop fuel' k index ;;
      match r with
      | None => ret false
      | Some index =>
          set_active index true ;;
          set_key index k ;;
          set_value index v ;;
          self <- get_self ;;
          set_active_count (to_size_t (active_count self + 1)) ;;
          ret true
      end
  end.

(** The loop of [map_get]; it returns the final values of [index] and
    [i]. *)
Fixpoint map_get_loop (fuel : nat) (k : K) (index i : Z) : M map (Z * Z) :=
  match fuel with
  | O => out_of_fuel
  | S fuel' =>
      self <- get_self ;;
      if i <? cap (entries self) then
        e <- entry_at index ;;
        if negb (active e) then ret (index, i)
        else
          same <- call_key_compare (key e) k ;;
          if same then ret (index, i)
          else
            index' <- umod (to_size_t (index + 1)) (cap (entries self)) ;;
            map_get_loop fuel' k index' (to_size_t (i + 1))
      else ret (index, i)
  end.

(** [map_get] up to the end of its loop. *)
Definition map_get_probe (k : K) : M map (Z * Z) :=
  h <- call_hash k ;;
  self <- get_self ;;
  index <- umod h (cap (entries self)) ;;
  map_get_loop (S (Z.to_nat (cap (entries self)))) k index 0.

Definition map_get (k : K) : M map (Opt.t entry) :=
  r <- map_get_probe k ;;
  let index := r.1 in
  e <- entry_at index ;;
  if active e then
    same <- call_key_compare (key e) k ;;
    if same then ret (Opt.mk true e)
    else ret (Opt.mk false zeroed)
  else ret (Opt.mk false zeroed).

(** The loop shared, word for word, by [map_update] and [map_remove]; it
    returns [found] and [index]. *)
Fixpoint map_find_loop (fuel : nat) (k : K) (index : Z) : M map (bool * Z) :=
  match fuel with
  | O => out_of_fuel
  | S fuel' =>
      e <- entry_at index ;;
      if active e then
        same <- call_key_compare (key e) k ;;
        if same then ret (true, index)
        else
          self <- get_self ;;
          index' <- umod (to_size_t (index + 1)) (cap (entries self)) ;;
          map_find_loop fuel' k index'
      else ret (false, index)
  end.

Definition map_update (fuel : nat) (k : K) (v : V) : M map bool :=
  h <- call_hash k ;;
  self <- get_self ;;
  index <- umod h (cap (entries self)) ;;
  r <- map_find_loop fuel k index ;;
  if negb r.1 then ret false
  else set_value r.2 v ;; ret true.

Definition map_remove (fuel : nat) (k : K) : M map bool :=
  h <- call_hash k ;;
  self <- get_self ;;
  index <- umod h (cap (entries self)) ;;
  r <- map_find_loop fuel k index ;;
  if negb r.1 then ret false
  else
    set_active r.2 false ;;
    self <- get_self ;;
    set_active_count (to_size_t (active_count self - 1)) ;;
    ret true.

(** A run of [map_insert] calls, one per pair. *)
Fixpoint map_inserts (fuel : nat) (kvs : list (K * V)) : M map (list bool) :=
  match kvs with
  | [] => ret []
  | (k, v) :: kvs' =>
      b <- map_insert fuel k v ;;
      bs <- map_inserts fuel kvs' ;;
      ret (b :: bs)
  end.
End Map.

(** ** [hash_djb2] *)

Section Djb2.
Context `{WordSize}.

(** The state is the block of [char]s that [str] points to. *)
Fixpoint strlen_from (str : list Z) : option Z :=
  match str with
  | [] => None
  | c :: str' => if c =? 0 then Some 0 else Z.succ <$> strlen_from str'
  end.

(** [strlen(str)]; running off the block without meeting a null byte is
    undefined. *)
Definition strlen : M (list Z) Z :=
  str <- get_self ;;
  match strlen_from str with
  | Some n => ret n
  | None => crash
  end.

(** [str[i]] *)
Definition char_at (i : Z) : M (list Z) Z :=
  str <- get_self ;;
  if i <? Z.of_nat (length str) then
    match str !! Z.to_nat i with
    | Some c => ret c
    | None => crash
    end
  else crash.

(** The value of the [char] stored as byte [c].  Plain [char] is signed
    (x86-64 with gcc or clang), so the bytes from 128 on are the negative
    values: in [... + str[i]] the [char] is promoted to [int] with its
    sign before it is converted to [size_t]. *)
Definition char_value (c : Z) : Z := if c <? 128 then c else c - 256.

Fixpoint hash_djb2_loop (fuel : nat) (i hash : Z) : M (list Z) Z :=
  match fuel with
  | O => out_of_fuel
  | S fuel' =>
      n <- strlen ;;
      if i <? n then
        c <- char_at i ;;
        if c =? 0 then ret hash
        else
          hash_djb2_loop fuel' (to_size_t (i + 1))
            (to_size_t (to_size_t (to_size_t (Z.shiftl hash 5) + hash)
                        + to_size_t (char_value c)))
      else ret hash
  end.

Definition hash_djb2 : M (list Z) Z :=
  str <- get_self ;;
  hash_djb2_loop (S (length str)) 0 (to_size_t 5381).

(** The hash as the specification words it: from 5381, [h * 33 + byte]
    for each byte in order, in arithmetic modulo [2 ^ size_bits]. *)
Definition djb2_reference (bytes : list Z) : Z :=
  fold_left (fun h b => (h * 33 + b) mod size_modulus) bytes 5381.
End Djb2.

(** ** Predicates on tables *)

Section MapPredicates.
Context `{WordSize} {K V : Type}.

Local Abbreviation entry := (map_entry K V).
Local Abbreviation map := (map_t K V).

(** The slot at [index] of the backing buffer. *)
Definition slot (m : map) (index : Z) : option entry :=
  buf (entries m) !! Z.to_nat index.

(** Number of slots with [active = true]. *)
Fixpoint count_active (l : list entry) : Z :=
  match l with
  | [] => 0
  | x :: l' => (if active x then 1 else 0) + count_active l'
  end.

(** [active_count] is the number of active slots. *)
Definition count_ok (m : map) : Prop :=
  active_count m = count_active (buf (entries m)).

Definition count_okb (m : map) : bool :=
  active_count m =? count_active (buf (entries m)).

(** No two different active slots hold keys that [e] calls equal. *)
Definition keys_unique (e : K -> K -> bool) (l : list entry) : bool :=
  forallb (fun p : nat * entry =>
    forallb (fun q : nat * entry =>
      implb (active p.2 && active q.2 && e (key p.2) (key q.2))
            (bool_decide (p.1 = q.1)))
      (imap pair l))
    (imap pair l).

(** Every slot is active and none holds a key that [e] calls equal to
    [k]: the table is full and [k] is absent. *)
Definition full_without (e : K -> K -> bool) (k : K) (m : map) : Prop :=
  forall x, x ∈ buf (entries m) -> active x = true /\ e (key x) k = false.

(** The table is a live one built on [h] and [e]: both pointers set, a
    buffer of [cap] slots, [cap] a positive [size_t]. *)
Definition map_ok (h : K -> Z) (e : K -> K -> bool) (m : map) : Prop :=
  hash m = Some h /\ key_compare m = Some e /\
  0 < cap (entries m) < size_modulus /\
  Z.of_nat (length (buf (entries m))) = cap (entries m).

(** Where the probe for a key starts, and where it is after [d] steps. *)
Definition home (h : K -> Z) (m : map) (k : K) : Z :=
  to_size_t (h k) mod cap (entries m).

Definition probe_pos (m : map) (start : Z) (d : nat) : Z :=
  (start + Z.of_nat d) mod cap (entries m).

(** The [d] slots probed first from [start] are active and hold keys
    other than [k]. *)
Definition passes (e : K -> K -> bool) (m : map) (k : K) (start : Z) (d : nat) : Prop :=
  forall d' : nat, (d' < d)%nat ->
    exists x, slot m (probe_pos m start d') = Some x /\
              active x = true /\ e (key x) k = false.

(** The table holds exactly the pairs [kvs], each where a probe for its
    key finds it. *)
Definition holds (h : K -> Z) (e : K -> K -> bool) (m : map) (kvs : list (K * V)) : Prop :=
  map_ok h e m /\ count_ok m /\
  active_count m = Z.of_nat (length kvs) /\
  (forall k v, (k, v) ∈ kvs ->
     exists d : nat, Z.of_nat d < cap (entries m) /\
       passes e m k (home h m k) d /\
       slot m (probe_pos m (home h m k) d) = Some (mk_entry k v true)) /\
  (forall i x, slot m i = Some x -> active x = true -> key x ∈ kvs.*1).

(** Pairwise distinct keys, and keys equal to themselves. *)
Fixpoint distinct_keys (e : K -> K -> bool) (ks : list K) : bool :=
  match ks with
  | [] => true
  | k :: ks' =>
      forallb (fun k' => negb (e k k') && negb (e k' k)) ks' && distinct_keys e ks'
  end.

Definition reflexive_on (e : K -> K -> bool) (ks : list K) : bool :=
  forallb (fun k => e k k) ks.

(** The table with slot [index] overwritten by [x]. *)
Definition with_slot (m : map) (index : Z) (x : entry) : map :=
  mk_map
    (mk_dyn (<[Z.to_nat index := x]> (buf (entries m)))
            (len (entries m)) (cap (entries m)))
    (active_count m) (hash m) (key_compare m).

(** The table after [map_insert] has put [(k, v)] into slot [index]. *)
Definition installed (m : map) (index : Z) (k : K) (v : V) : map :=
  mk_map
    (mk_dyn (<[Z.to_nat index := mk_entry k v true]> (buf (entries m)))
            (len (entries m)) (cap (entries m)))
    (active_count m + 1) (hash m) (key_compare m).
End MapPredicates.

(** ** Concrete tables and arrays *)

(** An instance with [int] keys and values on a 64-bit machine: the hash is
    the conversion to [size_t], equality is [num_equal_int]. *)
Definition num_hash (k : Z) : Z := k.
Definition num_equal (one two : Z) : bool := one =? two.

(** The pairs [(0, 1000), (1, 1001), ...], [n] of them. *)
Definition numbered (n : nat) : list (Z * Z) :=
  (fun i => (Z.of_nat i, 1000 + Z.of_nat i)) <$> seq 0 n.

(** A table of capacity 97 whose 97 slots are all active. *)
Definition full_table : map_t Z Z :=
  mk_map
    (mk_dyn ((fun i => mk_entry (Z.of_nat i) (1000 + Z.of_nat i) true) <$> seq 0 97) 0 97)
    97 (Some num_hash) (Some num_equal).

(** Keys 0 and 97 share the home slot 0, so 97 sits in slot 1. *)
Definition two_keys : map_t Z Z :=
  mk_map
    (mk_dyn (mk_entry 0 10 true :: mk_entry 97 20 true :: replicate 95 zeroed) 0 97)
    2 (Some num_hash) (Some num_equal).

(** The same table once key 0 has been removed. *)
Definition after_remove : map_t Z Z :=
  mk_map
    (mk_dyn (mk_entry 0 10 false :: mk_entry 97 20 true :: replicate 95 zeroed) 0 97)
    1 (Some num_hash) (Some num_equal).

(** Four live [int]s in a block of eight. *)
Definition four_ints : dyn Z := mk_dyn [10; 20; 30; 40; 0; 0; 0; 0] 4 8.

(** One live [int], [0x01020304], in a block of two. *)
Definition one_int : dyn Z := mk_dyn [16909060; 0] 1 2.

(** ** Tables built by inserts alone, and [map_iter] *)

Section MapBuilt.
Context `{WordSize} {K V : Type} `{Zeroed K} `{Zeroed V}.

Local Abbreviation entry := (map_entry K V).
Local Abbreviation map := (map_t K V).

(** [m] is what [map_init] followed by one successful [map_insert] per pair
    of [kvs] leaves; the keys are pairwise distinct and equal to
    themselves. *)
Definition built (h : K -> Z) (e : K -> K -> bool) (kvs : list (K * V)) (m : map) : Prop :=
  distinct_keys e kvs.*1 = true /\ reflexive_on e kvs.*1 = true /\
  run (map_inserts 98 kvs) (map_init h e) = Ret (replicate (length kvs) true, m).

(** No key of [ks] is equal to [k]. *)
Definition absent_key (e : K -> K -> bool) (k : K) (ks : list K) : bool :=
  forallb (fun k' => negb (e k' k)) ks.

(** The table with [active_count] set to [n]. *)
Definition with_count (m : map) (n : Z) : map :=
  mk_map (entries m) n (hash m) (key_compare m).

(** The loop of the [map_iter] macro over the table [m]; [codeblock] sees
    [entry], a copy of the slot, and [iter]. *)
Fixpoint map_iter_loop {St} (fuel : nat) (m : map)
    (codeblock : entry -> Z -> M St unit) (iter : Z) : M St unit :=
  match fuel with
  | O => out_of_fuel
  | S fuel' =>
      if iter <? cap (entries m) then
        if iter <? Z.of_nat (length (buf (entries m))) then
          match buf (entries m) !! Z.to_nat iter with
          | None => crash
          | Some entry =>
              (if active entry then codeblock entry iter else ret tt) ;;
              map_iter_loop fuel' m codeblock (to_size_t (iter + 1))
          end
        else crash
      else ret tt
  end.

Definition map_iter {St} (m : map) (codeblock : entry -> Z -> M St unit) : M St unit :=
  map_iter_loop (S (Z.to_nat (cap (entries m)))) m codeblock 0.

(** A code block that notes what it is given. *)
Definition note_entry (x : entry) (iter : Z) : M (list (Z * entry)) unit :=
  seen <- get_self ;; put_self (seen ++ [(iter, x)]).

(** The active slots of a buffer with their indices, in array order. *)
Fixpoint active_slots (l : list entry) (first : Z) : list (Z * entry) :=
  match l with
  | [] => []
  | x :: l' => (if active x then [(first, x)] else []) ++ active_slots l' (first + 1)
  end.
End MapBuilt.

(** Three [int] keys in a fresh table. *)
Definition three_keys : map_t Z Z :=
  mk_map
    (mk_dyn (mk_entry 0 1000 true :: mk_entry 1 1001 true :: mk_entry 2 1002 true ::
             replicate 94 zeroed) 0 97)
    3 (Some num_hash) (Some num_equal).

(** ** Growing a dynamic array *)

Section DynGrow.
Context `{WordSize} {T : Type} `{CType T}.

(** [realloc(block, size)]: a block of [size] bytes that starts with the
    old bytes (as many as fit); what lies beyond them is indeterminate. *)
Definition realloc (junk : nat -> Z) (block : list Z) (size : Z) : list Z :=
  take (Z.to_nat size) block
  ++ (junk <$> seq (length block) (Z.to_nat size - length block)).

(** [self->cap *= 2; self->buf = realloc(self->buf, self->cap);] the new
    size is [cap] bytes, not [cap] elements. *)
Definition dyn_resize (junk : nat -> Z) : M (dyn T) unit :=
  self <- get_self ;;
  let cap' := to_size_t (cap self * 2) in
  put_self (mk_dyn (buf_of_bytes (realloc junk (bytes_of_buf (buf self)) cap'))
                   (len self) cap').

Definition dyn_resize_with_add (junk : nat -> Z) (addition : Z) : M (dyn T) unit :=
  self <- get_self ;;
  let cap' := to_size_t (to_size_t (cap self * 2) + addition) in
  put_self (mk_dyn (buf_of_bytes (realloc junk (bytes_of_buf (buf self)) cap'))
                   (len self) cap').

Definition dyn_push (junk : nat -> Z) (elem : T) : M (dyn T) unit :=
  self <- get_self ;;
  (if cap self <=? to_size_t (len self + 1) then dyn_resize junk else ret tt) ;;
  self <- get_self ;;
  dyn_store (len self) elem ;;
  self <- get_self ;;
  set_len (to_size_t (len self + 1)).

(** A run of pushes, and a run of [n] pops with their answers in order. *)
Fixpoint dyn_pushes (junk : nat -> Z) (elems : list T) : M (dyn T) unit :=
  match elems with
  | [] => ret tt
  | elem :: rest => dyn_push junk elem ;; dyn_pushes junk rest
  end.
End DynGrow.

Fixpoint dyn_pops `{WordSize} {T : Type} `{Zeroed T} (n : nat) : M (dyn T) (list (Opt.t T)) :=
  match n with
  | O => ret []
  | S n' => o <- dyn_pop ;; os <- dyn_pops n' ;; ret (o :: os)
  end.

(** A [char] as the byte it occupies. *)
Definition is_char (c : Z) : Prop := 0 <= c < 256.

(** Thirty-one live [int]s in the 32 slots [dyn_init] allocates. *)
Definition ints_31 : dyn Z := mk_dyn (replicate 32 7) 31 32.

(** The [char]s of "hi" in a block of four. *)
Definition chars_hi : dyn Z := mk_dyn [104; 105; 0; 0] 2 4.

Section CharArrays.
Context `{WordSize}.

(** A [dyn_char] in good shape: the block has [cap] slots, [len] of them
    live with one to spare, doubling [cap] stays within [size_t], and the
    live slots hold bytes. *)
Definition chars_ok (d : dyn Z) : Prop :=
  Z.of_nat (length (buf d)) = cap d /\
  0 <= len d < cap d /\
  2 * cap d < size_modulus /\
  Forall is_char (take (Z.to_nat (len d)) (buf d)).

(** The live elements. *)
Definition live {T} (d : dyn T) : list T := take (Z.to_nat (len d)) (buf d).
End CharArrays.

(** ** [str_equal] *)

(** [strcmp(one, two)]: the bytes are compared in order up to the first
    difference or the terminator; only the sign of the result is modelled.
    Running off either block is undefined. *)
Fixpoint strcmp_from (one two : list Z) : option Z :=
  match one, two with
  | c1 :: one', c2 :: two' =>
      if c1 =? c2 then
        if c1 =? 0 then Some 0 else strcmp_from one' two'
      else Some (if c1 mod 256 <? c2 mod 256 then -1 else 1)
  | _, _ => None
  end.

Definition str_equal (one two : list Z) : res bool :=
  match strcmp_from one two with
  | Some r => Ret (r =? 0)
  | None => Crash
  end.

(** ** Strings *)

Module Str.
(** [buf] is a [dyn_char]. *)
Record string : Type := mk { buf : dyn Z }.
End Str.
Abbreviation string := Str.string.

(** [block[i]] for a read-only block of [char]s. *)
Definition read_at (block : list Z) (i : Z) : option Z :=
  if (0 <=? i) && (i <? Z.of_nat (length block)) then block !! Z.to_nat i else None.

(** [tolower] and [toupper] in the C locale. *)
Definition tolower (c : Z) : Z := if (65 <=? c) && (c <=? 90) then c + 32 else c.
Definition toupper (c : Z) : Z := if (97 <=? c) && (c <=? 122) then c - 32 else c.

Section Strings.
Context `{WordSize}.

(** A computation on [self->buf]. *)
Definition on_buf {A} (c : M (dyn Z) A) : M string A :=
  fun self =>
    match c (Str.buf self) with
    | Ret (a, d) => Ret (a, Str.mk d)
    | Crash => Crash
    | OutOfFuel => OutOfFuel
    end.

Definition string_init : string := Str.mk dyn_init.

Definition string_resize (junk : nat -> Z) : M string unit :=
  on_buf (dyn_resize (H0 := char_ctype) junk).

Definition string_at (index : Z) : M string (Opt.t Z) := on_buf (dyn_at index).

Definition string_push_char (junk : nat -> Z) (elem : Z) : M string unit :=
  on_buf (dyn_push (H0 := char_ctype) junk elem) ;;
  on_buf (dyn_push (H0 := char_ctype) junk 0) ;;
  on_buf (self <- get_self ;; set_len (to_size_t (len self - 1))).

(** [if (self->buf.len + 1 >= self->buf.cap) string_resize(self);] *)
Definition resize_if_full (junk : nat -> Z) : M string unit :=
  self <- get_self ;;
  if cap (Str.buf self) <=? to_size_t (len (Str.buf self) + 1)
  then string_resize junk else ret tt.

(** A [const char*] handed to a call on [self]: it points into a block of
    its own, which the call does not write, or into the block of [self]
    at an offset ([string_get(s)] is offset 0). *)
Inductive char_ptr : Type :=
| Apart (block : list Z)
| Within (offset : Z).

(** The [char]s the pointer points at, in memory as it is now.  A pointer
    into the block of [self] is good while that block has not been
    through [realloc]: afterwards the old block is freed and reading
    through the pointer is undefined.  Every [realloc] here doubles
    [cap], and nothing else changes it, so the block is the one of the
    call's start, where [cap] was [cap0], exactly while [cap] is [cap0]
    (a [cap] of 0 stays 0, but then the block has no slot to read). *)
Definition pointee (content : char_ptr) (cap0 : Z) (self : string) : option (list Z) :=
  match content with
  | Apart block => Some block
  | Within offset =>
      if (cap (Str.buf self) =? cap0) && (0 <=? offset)
      then Some (drop (Z.to_nat offset) (buf (Str.buf self)))
      else None
  end.

(** [strlen(content)] *)
Definition content_strlen (content : char_ptr) (cap0 : Z) : M string Z :=
  self <- get_self ;;
  match pointee content cap0 self with
  | Some block =>
      match strlen_from block with
      | Some n => ret n
      | None => crash
      end
  | None => crash
  end.

(** [content[i]] *)
Definition content_at (content : char_ptr) (cap0 : Z) (i : Z) : M string Z :=
  self <- get_self ;;
  match pointee content cap0 self with
  | Some block =>
      match read_at block i with
      | Some c => ret c
      | None => crash
      end
  | None => crash
  end.

(** The loop of [string_push_cstr].  [strlen(content)] and [content[i]]
    are read from memory at every turn, after the pushes of the turns
    before. *)
Fixpoint string_push_cstr_loop (fuel : nat) (junk : nat -> Z) (content : char_ptr)
    (cap0 : Z) (i : Z) : M string unit :=
  match fuel with
  | O => out_of_fuel
  | S fuel' =>
      n <- content_strlen content cap0 ;;
      if i <? n then
        resize_if_full junk ;;
        c <- content_at content cap0 i ;;
        string_push_char junk c ;;
        string_push_cstr_loop fuel' junk content cap0 (to_size_t (i + 1))
      else ret tt
  end.

Definition string_push_cstr (fuel : nat) (junk : nat -> Z) (content : char_ptr)
    : M string unit :=
  self <- get_self ;;
  string_push_cstr_loop fuel junk content (cap (Str.buf self)) 0 ;;
  resize_if_full junk ;;
  string_push_char junk 0 ;;
  on_buf (self <- get_self ;; set_len (to_size_t (len self - 1))).

(** A [string] passed by value to a call on [self]: the struct is copied,
    the block is not.  The copy is that of another string, with a block
    of its own, or that of [*self], whose block is the one the call
    writes. *)
Inductive string_arg : Type :=
| OfOther (content : string)
| OfSelf.

(** [content.buf.buf] *)
Definition chars_of (content : string_arg) : char_ptr :=
  match content with
  | OfOther other => Apart (buf (Str.buf other))
  | OfSelf => Within 0
  end.

Definition string_push_string (fuel : nat) (junk : nat -> Z) (content : string_arg)
    : M string unit :=
  string_push_cstr fuel junk (chars_of content).

(** [string_from]: the pushes go to the fresh block of [string_init],
    which [content] cannot point into. *)
Definition string_from (junk : nat -> Z) (content : list Z) : res string :=
  match string_push_cstr (S (length content)) junk (Apart content) string_init with
  | Ret (_, str) => Ret str
  | Crash => Crash
  | OutOfFuel => OutOfFuel
  end.

Definition string_pop : M string (Opt.t Z) :=
  elem <- on_buf dyn_pop ;;
  on_buf (self <- get_self ;; dyn_store (len self) 0) ;;
  ret elem.

Definition string_remove (index : Z) : M string (Opt.t Z) :=
  elem <- on_buf (dyn_remove index) ;;
  on_buf (self <- get_self ;; dyn_store (len self) 0) ;;
  ret elem.

Definition string_replace (index : Z) (elem : Z) : M string (Res.t Z) :=
  on_buf (dyn_replace index elem).

Definition string_clear : M string unit := on_buf dyn_clear.
Definition string_deinit : M string unit := on_buf dyn_deinit.

(** [string_clone]: the state is [self], the result the new string.  The
    resize, when there is one, is applied to [self]. *)
Definition string_clone (junk : nat -> Z) : M string string :=
  new_buf <- on_buf (dyn_clone (H0 := char_ctype) junk) ;;
  (if cap new_buf <=? to_size_t (len new_buf + 1) then string_resize junk else ret tt) ;;
  match dyn_store (len new_buf) 0 new_buf with
  | Ret (_, new_buf') => ret (Str.mk new_buf')
  | Crash => crash
  | OutOfFuel => out_of_fuel
  end.

(** The functions below take the string by value and only read it. *)

Fixpoint string_contains_char_loop (fuel : nat) (self : string) (pattern : Z)
    (i : Z) : res (bool * Z) :=
  match fuel with
  | O => OutOfFuel
  | S fuel' =>
      if i <? len (Str.buf self) then
        match read_at (buf (Str.buf self)) i with
        | None => Crash
        | Some c =>
            if c =? pattern then Ret (true, i)
            else string_contains_char_loop fuel' self pattern (to_size_t (i + 1))
        end
      else Ret (false, 0)
  end.

Definition string_contains_char (self : string) (pattern : Z) : res (bool * Z) :=
  string_contains_char_loop (S (Z.to_nat (len (Str.buf self)))) self pattern 0.

Fixpoint string_contains_cstr_loop (fuel : nat) (self : string) (pattern : list Z)
    (pattern_len head index i : Z) : res (bool * Z) :=
  match fuel with
  | O => OutOfFuel
  | S fuel' =>
      if i <? len (Str.buf self) then
        if head =? pattern_len then Ret (true, index)
        else
          match read_at (buf (Str.buf self)) i, read_at pattern head with
          | Some c, Some p =>
              if c =? p then
                string_contains_cstr_loop fuel' self pattern pattern_len
                  (to_size_t (head + 1)) index (to_size_t (i + 1))
              else
                string_contains_cstr_loop fuel' self pattern pattern_len
                  0 (if i =? 0 then 1 else i) (to_size_t (i + 1))
          | _, _ => Crash
          end
      else if head =? pattern_len then Ret (true, index) else Ret (false, 0)
  end.

Definition string_contains_cstr (self : string) (pattern : list Z) : res (bool * Z) :=
  match strlen_from pattern with
  | None => Crash
  | Some pattern_len =>
      if len (Str.buf self) <? pattern_len then Ret (false, 0)
      else
        string_contains_cstr_loop (S (Z.to_nat (len (Str.buf self)))) self pattern
          pattern_len 0 0 0
  end.

Definition string_contains_string (self pattern : string) : res (bool * Z) :=
  string_contains_cstr self (buf (Str.buf pattern)).

Fixpoint string_compare_cstr_loop (fuel : nat) (self : string) (comparate : list Z)
    (comparate_len i : Z) : res bool :=
  match fuel with
  | O => OutOfFuel
  | S fuel' =>
      if i <? comparate_len then
        match read_at (buf (Str.buf self)) i, read_at comparate i with
        | Some a, Some b =>
            if a =? b
            then string_compare_cstr_loop fuel' self comparate comparate_len
                   (to_size_t (i + 1))
            else Ret false
        | _, _ => Crash
        end
      else Ret true
  end.

Definition string_compare_cstr (self : string) (comparate : list Z) : res bool :=
  match strlen_from comparate with
  | None => Crash
  | Some comparate_len =>
      if len (Str.buf self) =? comparate_len
      then string_compare_cstr_loop (S (Z.to_nat comparate_len)) self comparate
             comparate_len 0
      else Ret false
  end.

Definition string_compare_string (self comparate : string) : res bool :=
  string_compare_cstr self (buf (Str.buf comparate)).

(** [string_lower] and [string_upper]: one pass over the live [char]s. *)
Fixpoint string_case_loop (fuel : nat) (convert : Z -> Z) (i : Z) : M string unit :=
  match fuel with
  | O => out_of_fuel
  | S fuel' =>
      self <- get_self ;;
      if i <? len (Str.buf self) then
        c <- on_buf (dyn_load i) ;;
        on_buf (dyn_store i (convert c)) ;;
        string_case_loop fuel' convert (to_size_t (i + 1))
      else ret tt
  end.

Definition string_lower : M string unit :=
  self <- get_self ;;
  string_case_loop (S (Z.to_nat (len (Str.buf self)))) tolower 0.

Definition string_upper : M string unit :=
  self <- get_self ;;
  string_case_loop (S (Z.to_nat (len (Str.buf self)))) toupper 0.

(** A string in good shape: its [dyn_char] is, and a null byte follows the
    live [char]s. *)
Definition string_ok (str : string) : Prop :=
  chars_ok (Str.buf str) /\
  buf (Str.buf str) !! Z.to_nat (len (Str.buf str)) = Some 0.

(** The text of a string. *)
Definition text (str : string) : list Z := live (Str.buf str).
End Strings.

(** * Facts *)

(** ** The monad *)

Lemma bind_run {S A B} (c : M S A) (k : A -> M S B) (s s' : S) (a : A) :
  c s = Ret (a, s') -> bind c k s = k a s'.
Proof. intros Hc. unfold bind. now rewrite Hc. Qed.

Lemma bind_returns {S A B} (c : M S A) (k : A -> M S B) (s : S) (r : B * S) :
  bind c k s = Ret r -> exists a s', c s = Ret (a, s') /\ k a s' = Ret r.
Proof.
  unfold bind. destruct (c s) as [[a s']| |]; intros Hr; try discriminate.
  now exists a, s'.
Qed.

Lemma umod_run {S} (a b : Z) (s : S) : b <> 0 -> umod a b s = Ret (a mod b, s).
Proof. intros Hb. unfold umod. now destruct (Z.eqb_spec b 0). Qed.

Lemma umod_returns {S} (a b : Z) (s : S) (r : Z * S) :
  umod a b s = Ret r -> r = (a mod b, s).
Proof. unfold umod. destruct (b =? 0); [discriminate|]. now intros [= <-]. Qed.

(** ** Machine words *)

Section WordFacts.
Context `{WordSize}.

Lemma size_modulus_big : 65536 <= size_modulus.
Proof.
  unfold size_modulus. change 65536 with (2 ^ 16).
  apply Z.pow_le_mono_r; [lia | apply size_bits_min].
Qed.

Lemma to_size_t_small (z : Z) : 0 <= z < size_modulus -> to_size_t z = z.
Proof. intros Hz. unfold to_size_t. now apply Z.mod_small. Qed.
End WordFacts.

(** ** Dynamic array *)

Section DynFacts.
Context `{WordSize} {T : Type} `{Zeroed T}.

Lemma dyn_at_out_of_range (self : dyn T) (index : Z) :
  len self <= index ->
  run (dyn_at index) self = Ret (Opt.mk false zeroed, self).
Proof.
  intros Hge. unfold run, dyn_at, bind, get_self, ret.
  now destruct (Z.leb_spec (len self) index); [|lia].
Qed.

Lemma dyn_at_returns (self self' : dyn T) (index : Z) (o : Opt.t T) :
  run (dyn_at index) self = Ret (o, self') ->
  self' = self /\ (Opt.ok o = false <-> len self <= index).
Proof.
  unfold run, dyn_at, dyn_load, bind, get_self, ret, crash.
  destruct (Z.leb_spec (len self) index).
  - intros [= <- <-]. simpl. intuition.
  - destruct (index <? _); [|discriminate].
    destruct (buf self !! _); [|discriminate].
    intros [= <- <-]. simpl. split; [done|]. split; [discriminate|lia].
Qed.

Lemma dyn_remove_out_of_range (self : dyn T) (index : Z) :
  len self <= index ->
  run (dyn_remove index) self = Ret (Opt.mk false zeroed, self).
Proof.
  intros Hge. unfold run, dyn_remove.
  erewrite bind_run by (apply dyn_at_out_of_range; exact Hge).
  reflexivity.
Qed.

(** Whenever [dyn_remove] answers [ok = false], the index was out of
    range and the array is as it was. *)
Lemma dyn_remove_failure (self self' : dyn T) (index : Z) (o : Opt.t T) :
  run (dyn_remove index) self = Ret (o, self') -> Opt.ok o = false ->
  len self <= index /\ self' = self.
Proof.
  unfold run, dyn_remove. intros Hrun Hok.
  apply bind_returns in Hrun as (o1 & s1 & Hat & Hrest).
  apply dyn_at_returns in Hat as [-> Hiff].
  destruct (Opt.ok o1) eqn:Hok1; simpl in Hrest.
  - apply bind_returns in Hrest as (? & ? & _ & Hrest).
    apply bind_returns in Hrest as (? & ? & _ & Hrest).
    apply bind_returns in Hrest as (? & ? & _ & Hrest).
    apply bind_returns in Hrest as (? & ? & _ & Hrest).
    unfold ret in Hrest. injection Hrest as <- _. congruence.
  - unfold ret in Hrest. injection Hrest as <- <-. split; [|done].
    now apply Hiff.
Qed.
End DynFacts.

Section DynExamples.
#[local] Existing Instance word64.

(** C3.  [dyn_remove] at index 1 of the live elements [10; 20; 30; 40]
    returns 20 and leaves [20; 30; 30]: the element before the index is
    overwritten and the last one is never moved down, where the claim
    has [10; 30; 40]. *)
Theorem dyn_remove_writes_one_slot_too_low :
  run (dyn_remove 1) four_ints
    = Ret (Opt.mk true 20, mk_dyn [20; 30; 30; 40; 0; 0; 0; 0] 3 8) /\
  take 3 [20; 30; 30; 40; 0; 0; 0; 0] <> [10; 30; 40] /\
  run (dyn_remove 0) four_ints = Crash.
Proof. split; [|split]; [vm_compute; reflexivity | discriminate | vm_compute; reflexivity]. Qed.

(** C7.  Cloning an [int] array whose one live element is [0x01020304]:
    [memcpy] moves [len] = 1 byte, so the clone's element is that byte
    followed by three bytes the allocator left there; over zeroed memory
    it reads 4, not the original's 16909060. *)
Theorem dyn_clone_copies_len_bytes :
  run (dyn_at 0) one_int = Ret (Opt.mk true 16909060, one_int) /\
  (forall junk : nat -> Z,
     let c := mk_dyn [int_of_bytes [4; junk 1%nat; junk 2%nat; junk 3%nat];
                      int_of_bytes [junk 4%nat; junk 5%nat; junk 6%nat; junk 7%nat]] 1 2 in
     run (dyn_clone junk) one_int = Ret (c, one_int) /\
     run (dyn_at 0) c
       = Ret (Opt.mk true (int_of_bytes [4; junk 1%nat; junk 2%nat; junk 3%nat]), c)) /\
  (exists c : dyn Z,
     run (dyn_clone (fun _ => 0)) one_int = Ret (c, one_int) /\
     run (dyn_at 0) c = Ret (Opt.mk true 4, c)).
Proof.
  split; [vm_compute; reflexivity|]. split.
  - intros junk c. split; reflexivity.
  - eexists. split; vm_compute; reflexivity.
Qed.
(** With [char] elements a byte is an element, and the same call copies
    both live elements. *)
Lemma dyn_clone_char_copies_live (junk : nat -> Z) :
  run (@dyn_clone word64 Z char_ctype junk) (mk_dyn [104; 105; 0; 0] 2 4)
  = Ret (mk_dyn [104; 105; junk 2%nat; junk 3%nat] 2 4, mk_dyn [104; 105; 0; 0] 2 4).
Proof. reflexivity. Qed.
End DynExamples.

(** ** Map: the primitive accesses *)

Section MapAccess.
Context `{WordSize} {K V : Type} `{Zeroed K} `{Zeroed V}.

Local Abbreviation entry := (map_entry K V).
Local Abbreviation map := (map_t K V).
Implicit Types (m : map) (k : K) (v : V) (x : entry).
Implicit Types (h : K -> Z) (e : K -> K -> bool).

Lemma entry_at_run m i x :
  slot m i = Some x -> entry_at i m = Ret (x, m).
Proof.
  unfold slot, entry_at, on_entries, dyn_load, bind, get_self, ret.
  intros Hx. pose proof (lookup_lt_Some _ _ _ Hx) as Hlt.
  destruct (Z.ltb_spec i (Z.of_nat (length (buf (entries m))))); [|lia].
  rewrite Hx. now destruct m.
Qed.

Lemma entry_at_returns m m' i x :
  entry_at i m = Ret (x, m') -> m' = m /\ slot m i = Some x.
Proof.
  unfold slot, entry_at, on_entries, dyn_load, bind, get_self, ret, crash.
  destruct (i <? _); [|discriminate].
  destruct (buf (entries m) !! Z.to_nat i); [|discriminate].
  intros [= <- <-]. now destruct m.
Qed.

Lemma call_hash_run h m k :
  hash m = Some h -> call_hash k m = Ret (to_size_t (h k), m).
Proof. intros Hh. unfold call_hash, bind, get_self. now rewrite Hh. Qed.

Lemma call_hash_returns m m' k z :
  call_hash k m = Ret (z, m') -> m' = m /\ hash m <> None.
Proof.
  unfold call_hash, bind, get_self, ret, crash.
  destruct (hash m); [|discriminate]. now intros [= <- <-].
Qed.

Lemma call_key_compare_run e m k1 k2 :
  key_compare m = Some e -> call_key_compare k1 k2 m = Ret (e k1 k2, m).
Proof. intros He. unfold call_key_compare, bind, get_self. now rewrite He. Qed.

Lemma store_run m i x y :
  slot m i = Some x ->
  on_entries (dyn_store i y) m = Ret (tt, with_slot m i y).
Proof.
  unfold slot, on_entries, dyn_store, bind, get_self, put_self, with_slot.
  intros Hx. pose proof (lookup_lt_Some _ _ _ Hx) as Hlt.
  now destruct (Z.ltb_spec i (Z.of_nat (length (buf (entries m))))); [|lia].
Qed.

Lemma set_active_run m i x b :
  slot m i = Some x ->
  set_active i b m = Ret (tt, with_slot m i (mk_entry (key x) (value x) b)).
Proof.
  intros Hx. unfold set_active.
  erewrite bind_run by (apply entry_at_run; eassumption).
  now apply store_run with x.
Qed.

Lemma set_key_run m i x k :
  slot m i = Some x ->
  set_key i k m = Ret (tt, with_slot m i (mk_entry k (value x) (active x))).
Proof.
  intros Hx. unfold set_key.
  erewrite bind_run by (apply entry_at_run; eassumption).
  now apply store_run with x.
Qed.

Lemma set_value_run m i x v :
  slot m i = Some x ->
  set_value i v m = Ret (tt, with_slot m i (mk_entry (key x) v (active x))).
Proof.
  intros Hx. unfold set_value.
  erewrite bind_run by (apply entry_at_run; eassumption).
  now apply store_run with x.
Qed.

Lemma slot_with_slot_eq m i x y :
  slot m i = Some x -> slot (with_slot m i y) i = Some y.
Proof.
  unfold slot, with_slot. simpl. intros Hx.
  apply list_lookup_insert_eq. now apply lookup_lt_Some in Hx.
Qed.

Lemma with_slot_twice m i y z :
  with_slot (with_slot m i y) i z = with_slot m i z.
Proof. unfold with_slot. simpl. now rewrite list_insert_insert_eq. Qed.

(** The four stores that end [map_insert]. *)
Lemma install_run m i x k v :
  slot m i = Some x ->
  0 <= active_count m -> active_count m + 1 < size_modulus ->
  (set_active i true ;; set_key i k ;; set_value i v ;;
   self <- get_self ;;
   set_active_count (to_size_t (active_count self + 1)) ;; ret true)%cmd m
  = Ret (true, installed m i k v).
Proof.
  intros Hx Hc0 Hc1.
  erewrite bind_run by (apply set_active_run; exact Hx).
  erewrite bind_run
    by (apply set_key_run; eapply slot_with_slot_eq; exact Hx).
  erewrite bind_run
    by (apply set_value_run; eapply slot_with_slot_eq, slot_with_slot_eq; exact Hx).
  rewrite !with_slot_twice. simpl.
  unfold bind, get_self, set_active_count, put_self, ret, installed, with_slot.
  simpl. now rewrite to_size_t_small by lia.
Qed.
End MapAccess.

(** ** Map: the probe loops *)

Section MapProbe.
Context `{WordSize} {K V : Type} `{Zeroed K} `{Zeroed V}.

Local Abbreviation entry := (map_entry K V).
Local Abbreviation map := (map_t K V).
Implicit Types (m : map) (k : K) (v : V) (x : entry) (d : nat).
Implicit Types (h : K -> Z) (e : K -> K -> bool).

Lemma probe_pos_0 m start :
  0 <= start < cap (entries m) -> probe_pos m start 0 = start.
Proof. intros Hs. unfold probe_pos. rewrite Z.add_0_r. now apply Z.mod_small. Qed.

Lemma probe_pos_succ m start d :
  probe_pos m ((start + 1) mod cap (entries m)) d = probe_pos m start (S d).
Proof.
  unfold probe_pos. rewrite Zplus_mod_idemp_l. f_equal. lia.
Qed.

Lemma probe_pos_range m start d :
  0 < cap (entries m) -> 0 <= probe_pos m start d < cap (entries m).
Proof. intros Hc. unfold probe_pos. now apply Z.mod_pos_bound. Qed.

Lemma home_range h m k :
  0 < cap (entries m) -> 0 <= home h m k < cap (entries m).
Proof. intros Hc. unfold home. now apply Z.mod_pos_bound. Qed.

Lemma passes_head e m k start d :
  0 <= start < cap (entries m) ->
  passes e m k start (S d) ->
  (exists x, slot m start = Some x /\ active x = true /\ e (key x) k = false) /\
  passes e m k ((start + 1) mod cap (entries m)) d.
Proof.
  intros Hs Hp. split.
  - destruct (Hp 0%nat) as (x & Hx & Ha & Hne); [lia|].
    rewrite probe_pos_0 in Hx by done. now exists x.
  - intros d' Hd'. rewrite probe_pos_succ. apply Hp. lia.
Qed.

(** One turn of a probe loop past an active slot with another key. *)
Ltac probe_step Hok Hs Hx Ha Hne :=
  destruct Hok as (Hh & He & Hcap & Hlen);
  erewrite bind_run by (apply entry_at_run; exact Hx);
  rewrite Ha; cbn [negb];
  erewrite bind_run by (apply call_key_compare_run; exact He);
  rewrite Hne.

Lemma next_index_run m start :
  0 <= start < cap (entries m) -> cap (entries m) < size_modulus ->
  umod (to_size_t (start + 1)) (cap (entries m)) m
  = Ret ((start + 1) mod cap (entries m), m).
Proof.
  intros Hs Hc. rewrite to_size_t_small by lia. apply umod_run. lia.
Qed.

Lemma map_insert_loop_run h e m k x0 d : forall start fuel,
  map_ok h e m -> 0 <= start < cap (entries m) ->
  passes e m k start d ->
  slot m (probe_pos m start d) = Some x0 -> active x0 = false ->
  (d < fuel)%nat ->
  map_insert_loop fuel k start m = Ret (Some (probe_pos m start d), m).
Proof.
  induction d as [|d IH]; intros start fuel Hok Hs Hp Hx0 Ha0 Hfuel;
    (destruct fuel as [|fuel]; [lia|]); simpl.
  - rewrite probe_pos_0 in * by done.
    erewrite bind_run by (apply entry_at_run; exact Hx0).
    now rewrite Ha0.
  - apply passes_head in Hp as [(x & Hx & Ha & Hne) Hp]; [|done].
    pose proof Hok as Hok'.
    probe_step Hok' Hs Hx Ha Hne.
    unfold bind at 1, get_self.
    erewrite bind_run by (apply next_index_run; lia).
    rewrite <- probe_pos_succ.
    apply IH; try done; [apply Z.mod_pos_bound; lia | now rewrite probe_pos_succ | lia].
Qed.

(** The bounded loop of [map_get]: [i] counts the slots passed. *)
Lemma map_get_loop_run h e m k x0 d : forall start i fuel,
  map_ok h e m -> 0 <= start < cap (entries m) ->
  0 <= i -> i + Z.of_nat d < cap (entries m) ->
  passes e m k start d ->
  slot m (probe_pos m start d) = Some x0 ->
  (active x0 = false \/ e (key x0) k = true) ->
  (d < fuel)%nat ->
  map_get_loop fuel k start i m
  = Ret ((probe_pos m start d, i + Z.of_nat d), m).
Proof.
  induction d as [|d IH]; intros start i fuel Hok Hs Hi Hid Hp Hx0 Hstop Hfuel;
    (destruct fuel as [|fuel]; [lia|]); simpl;
    unfold bind at 1, get_self;
    (destruct (Z.ltb_spec i (cap (entries m))); [|lia]).
  - rewrite probe_pos_0 in * by done. rewrite Z.add_0_r.
    destruct Hok as (Hh & He & Hcap & Hlen).
    erewrite bind_run by (apply entry_at_run; exact Hx0).
    destruct (active x0) eqn:Ha0; simpl; [|done].
    erewrite bind_run by (apply call_key_compare_run; exact He).
    destruct Hstop as [|He0]; [done|]. now rewrite He0.
  - apply passes_head in Hp as [(x & Hx & Ha & Hne) Hp]; [|done].
    pose proof Hok as Hok'.
    probe_step Hok' Hs Hx Ha Hne. simpl.
    erewrite bind_run by (apply next_index_run; lia).
    rewrite <- probe_pos_succ.
    rewrite (to_size_t_small (i + 1)) by lia.
    replace (i + Z.of_nat (S d)) with (i + 1 + Z.of_nat d) by lia.
    apply IH; try done; [apply Z.mod_pos_bound; lia | lia | lia
                        | now rewrite probe_pos_succ | lia].
Qed.
End MapProbe.

(** ** Map: counting the active slots *)

Section MapCount.
Context `{WordSize} {K V : Type} `{Zeroed K} `{Zeroed V}.

Local Abbreviation entry := (map_entry K V).
Local Abbreviation map := (map_t K V).
Implicit Types (m : map) (k : K) (v : V) (x : entry) (d : nat) (l : list entry).

Lemma count_active_bounds l : 0 <= count_active l <= Z.of_nat (length l).
Proof. induction l as [|x l IH]; simpl; [lia|]. destruct (active x); lia. Qed.

Lemma count_active_insert l : forall (i : nat) x y,
  l !! i = Some x ->
  count_active (<[i:=y]> l)
  = count_active l - (if active x then 1 else 0) + (if active y then 1 else 0).
Proof.
  induction l as [|a l IH]; intros [|i] x y Hx; simpl in *; try discriminate.
  - injection Hx as ->. lia.
  - rewrite (IH i x y Hx). lia.
Qed.

Lemma count_active_replicate (n : nat) :
  count_active (replicate n (zeroed : entry)) = 0.
Proof. induction n as [|n IH]; simpl; [done|]. now rewrite IH. Qed.

Lemma exists_inactive l :
  count_active l < Z.of_nat (length l) ->
  exists (i : nat) x, l !! i = Some x /\ active x = false.
Proof.
  induction l as [|a l IH]; simpl; [lia|]. intros Hlt.
  destruct (active a) eqn:Ha.
  - destruct IH as (i & x & Hx & Hax); [lia|]. now exists (S i), x.
  - now exists 0%nat, a.
Qed.

(** The least number below which a decidable property fails. *)
Lemma least_witness (P : nat -> Prop) (n : nat) :
  (forall d, P d \/ ~ P d) -> P n ->
  exists d, (d <= n)%nat /\ P d /\ forall d', (d' < d)%nat -> ~ P d'.
Proof.
  intros Hdec Hn.
  assert (Hscan : forall b, (forall d', (d' < b)%nat -> ~ P d') \/
            exists d, (d < b)%nat /\ P d /\ forall d', (d' < d)%nat -> ~ P d').
  { induction b as [|b [Hnone|Hsome]].
    - left. lia.
    - destruct (Hdec b) as [Hb|Hb].
      + right. exists b. auto.
      + left. intros d' Hd'. destruct (decide (d' = b)) as [->|]; [done|].
        apply Hnone. lia.
    - right. destruct Hsome as (d & Hd & HP & Hmin). exists d. auto. }
  destruct (Hscan n) as [Hnone|(d & Hd & HP & Hmin)].
  - exists n. auto.
  - exists d. split; [lia|]. auto.
Qed.

Lemma slot_in_range m i :
  Z.of_nat (length (buf (entries m))) = cap (entries m) ->
  0 <= i < cap (entries m) -> exists x, slot m i = Some x.
Proof.
  intros Hlen Hi. unfold slot.
  destruct (lookup_lt_is_Some_2 (buf (entries m)) (Z.to_nat i)) as [x Hx]; [lia|].
  now exists x.
Qed.

(** With fewer active slots than slots, a probe from anywhere meets an
    inactive slot within [cap] steps, after active slots only. *)
Lemma first_inactive m start :
  Z.of_nat (length (buf (entries m))) = cap (entries m) ->
  0 <= start < cap (entries m) ->
  count_active (buf (entries m)) < cap (entries m) ->
  exists d x0, Z.of_nat d < cap (entries m) /\
    slot m (probe_pos m start d) = Some x0 /\ active x0 = false /\
    forall d', (d' < d)%nat ->
      exists x, slot m (probe_pos m start d') = Some x /\ active x = true.
Proof.
  intros Hlen Hs Hcount.
  destruct (exists_inactive (buf (entries m))) as (j & xj & Hj & Haj); [lia|].
  pose proof (lookup_lt_Some _ _ _ Hj) as Hjlt.
  set (P := fun d : nat =>
    exists x0, slot m (probe_pos m start d) = Some x0 /\ active x0 = false).
  set (d0 := Z.to_nat ((Z.of_nat j - start) mod cap (entries m))).
  assert (Hd0 : Z.of_nat d0 < cap (entries m)).
  { unfold d0. pose proof (Z.mod_pos_bound (Z.of_nat j - start) (cap (entries m))). lia. }
  assert (HP0 : P d0).
  { exists xj. split; [|done]. unfold slot, probe_pos, d0.
    rewrite Z2Nat.id by (apply Z.mod_pos_bound; lia).
    rewrite Zplus_mod_idemp_r.
    replace (start + (Z.of_nat j - start)) with (Z.of_nat j) by lia.
    rewrite Z.mod_small by lia. now rewrite Nat2Z.id. }
  destruct (least_witness P d0) as (d & Hd & (x0 & Hx0 & Ha0) & Hmin); [|done|].
  { intros d. unfold P.
    destruct (slot_in_range m (probe_pos m start d) Hlen) as [x Hx];
      [apply probe_pos_range; lia|].
    destruct (active x) eqn:Ha.
    - right. intros (x0 & Hx0 & Ha0). congruence.
    - left. now exists x. }
  exists d, x0. repeat split; [lia|done|done|].
  intros d' Hd'.
  destruct (slot_in_range m (probe_pos m start d') Hlen) as [x Hx];
    [apply probe_pos_range; lia|].
  exists x. split; [done|].
  destruct (active x) eqn:Ha; [done|].
  exfalso. apply (Hmin d' Hd'). now exists x.
Qed.
End MapCount.

(** ** Map: inserting distinct keys and reading them back *)

Section MapInsertGet.
Context `{WordSize} {K V : Type} `{Zeroed K} `{Zeroed V}.

Local Abbreviation entry := (map_entry K V).
Local Abbreviation map := (map_t K V).
Implicit Types (m : map) (k : K) (v : V) (x : entry) (d : nat).
Implicit Types (h : K -> Z) (e : K -> K -> bool) (kvs : list (K * V)).

Lemma map_init_ok h e : map_ok h e (map_init h e).
Proof.
  unfold map_ok, map_init, dyn_init_with_cap. simpl.
  pose proof size_modulus_big. repeat split; try lia.
Qed.

Lemma holds_init h e : holds h e (map_init h e) [].
Proof.
  split; [apply map_init_ok|]. split; [|split; [reflexivity|split]].
  - unfold count_ok, map_init, dyn_init_with_cap. cbn [entries buf active_count].
    now rewrite count_active_replicate.
  - intros k v Hin. now apply elem_of_nil in Hin.
  - intros i x Hx Ha. unfold slot, map_init, dyn_init_with_cap in Hx.
    cbn [entries buf] in Hx.
    apply lookup_replicate_1 in Hx as [-> _]. discriminate.
Qed.

(** An active slot is not the slot that [installed] overwrites when that
    one was inactive. *)
Lemma slot_installed_other m i j x x0 k v :
  slot m i = Some x -> active x = true ->
  slot m j = Some x0 -> active x0 = false ->
  slot (installed m j k v) i = Some x.
Proof.
  unfold slot, installed. simpl. intros Hx Ha Hx0 Ha0.
  rewrite list_lookup_insert_ne; [done|]. intros Heq. congruence.
Qed.

Lemma slot_installed_eq m j x0 k v :
  slot m j = Some x0 -> slot (installed m j k v) j = Some (mk_entry k v true).
Proof.
  unfold slot, installed. simpl. intros Hx0.
  apply list_lookup_insert_eq. now apply lookup_lt_Some in Hx0.
Qed.

Lemma passes_installed e m k' start d j x0 k v :
  slot m j = Some x0 -> active x0 = false ->
  passes e m k' start d -> passes e (installed m j k v) k' start d.
Proof.
  intros Hx0 Ha0 Hp d' Hd'. destruct (Hp d' Hd') as (x & Hx & Ha & Hne).
  exists x. split; [|done].
  change (probe_pos (installed m j k v) start d') with (probe_pos m start d').
  now apply slot_installed_other with x0.
Qed.

(** Inserting a key that no stored key equals, into a table with a free
    slot: the insert succeeds without a resize and the table holds one
    pair more. *)
Lemma map_insert_fresh h e m kvs k v fuel :
  holds h e m kvs ->
  Z.of_nat (length kvs) < cap (entries m) ->
  (forall k', k' ∈ kvs.*1 -> e k' k = false) ->
  (Z.to_nat (cap (entries m)) < fuel)%nat ->
  exists m', run (map_insert fuel k v) m = Ret (true, m') /\
    holds h e m' (kvs ++ [(k, v)]) /\
    cap (entries m') = cap (entries m).
Proof.
  intros (Hok & Hcnt & Hnum & Hreach & Hkeys) Hroom Hfresh Hfuel.
  pose proof Hok as (Hh & He & Hcap & Hlen).
  pose proof (home_range h m k) as Hhome.
  destruct (first_inactive m (home h m k)) as (d & x0 & Hd & Hx0 & Ha0 & Hact);
    [done | lia | unfold count_ok in Hcnt; lia |].
  assert (Hp : passes e m k (home h m k) d).
  { intros d' Hd'. destruct (Hact d' Hd') as (x & Hx & Ha).
    exists x. repeat split; try done. apply Hfresh. now apply Hkeys with (probe_pos m (home h m k) d'). }
  set (j := probe_pos m (home h m k) d) in *.
  exists (installed m j k v).
  destruct fuel as [|fuel]; [lia|]. split; [|split].
  - unfold run. simpl. unfold bind at 1, get_self.
    destruct (Z.leb_spec (cap (entries m)) (active_count m)); [lia|].
    unfold bind at 1, ret at 1.
    erewrite bind_run by (apply call_hash_run; exact Hh).
    unfold bind at 1, get_self.
    erewrite bind_run by (apply umod_run; lia).
    fold (home h m k).
    erewrite bind_run
      by (eapply map_insert_loop_run; [exact Hok | lia | exact Hp | exact Hx0 | exact Ha0 | lia]).
    fold j. apply install_run with x0; [exact Hx0 | lia | lia].
  - split; [|repeat split].
    + unfold map_ok, installed. simpl. rewrite length_insert. repeat split; try done; lia.
    + unfold count_ok, installed. simpl.
      rewrite (count_active_insert _ _ x0) by exact Hx0.
      rewrite Ha0. simpl. unfold count_ok in Hcnt. lia.
    + unfold installed. simpl. rewrite length_app. simpl. lia.
    + intros k' v' Hin. apply elem_of_app in Hin as [Hin|Hin].
      * destruct (Hreach k' v' Hin) as (d1 & Hd1 & Hp1 & Hs1).
        exists d1. split; [done|]. split.
        -- now apply passes_installed with x0.
        -- change (home h (installed m j k v) k') with (home h m k').
           change (probe_pos (installed m j k v)) with (probe_pos m).
           now apply slot_installed_other with x0.
      * apply list_elem_of_singleton in Hin as [= -> ->].
        exists d. split; [done|]. split.
        -- now apply passes_installed with x0.
        -- now apply slot_installed_eq with x0.
    + intros i x Hx Ha. rewrite fmap_app. apply elem_of_app.
      destruct (decide (Z.to_nat j = Z.to_nat i)) as [Heq|Hne].
      * right. unfold slot, installed in Hx. simpl in Hx.
        rewrite <- Heq, list_lookup_insert_eq in Hx
          by (now apply lookup_lt_Some in Hx0).
        injection Hx as <-. simpl. apply list_elem_of_here.
      * left. apply Hkeys with i; [|done].
        unfold slot, installed in Hx. simpl in Hx.
        now rewrite list_lookup_insert_ne in Hx.
  - reflexivity.
Qed.

(** A key the table holds is found by [map_get], which returns a copy of
    its entry and leaves the table alone. *)
Lemma map_get_hit h e m kvs k v :
  holds h e m kvs -> (k, v) ∈ kvs -> e k k = true ->
  run (map_get k) m = Ret (Opt.mk true (mk_entry k v true), m).
Proof.
  intros (Hok & Hcnt & Hnum & Hreach & Hkeys) Hin Hrefl.
  pose proof Hok as (Hh & He & Hcap & Hlen).
  pose proof (home_range h m k) as Hhome.
  destruct (Hreach k v Hin) as (d & Hd & Hp & Hs).
  unfold run, map_get, map_get_probe.
  erewrite bind_run; cycle 1.
  { erewrite bind_run by (apply call_hash_run; exact Hh).
    unfold bind at 1, get_self.
    erewrite bind_run by (apply umod_run; lia).
    fold (home h m k).
    eapply (map_get_loop_run h e m k _ d);
      [exact Hok | lia | lia | lia | exact Hp | exact Hs | now right | lia]. }
  simpl.
  erewrite bind_run
    by (apply entry_at_run; exact Hs).
  simpl.
  erewrite bind_run by (apply call_key_compare_run; exact He).
  simpl. now rewrite Hrefl.
Qed.

Lemma distinct_keys_before e (ks1 ks2 : list K) k :
  distinct_keys e (ks1 ++ k :: ks2) = true ->
  forall k', k' ∈ ks1 -> e k' k = false.
Proof.
  induction ks1 as [|a ks1 IH]; intros Hd k' Hin.
  - now apply elem_of_nil in Hin.
  - simpl in Hd. apply andb_prop in Hd as [Ha Hrest].
    apply elem_of_cons in Hin as [->|Hin]; [|now apply IH].
    rewrite forallb_forall in Ha.
    specialize (Ha k). rewrite in_app_iff in Ha.
    destruct (e a k); [|done].
    specialize (Ha (or_intror (or_introl eq_refl))). discriminate.
Qed.

(** Any run of inserts of distinct keys that fits the capacity succeeds
    throughout, never resizes, and leaves the table holding every pair. *)
Lemma map_inserts_fresh h e fuel : forall new kvs m,
  holds h e m kvs ->
  Z.of_nat (length kvs + length new) <= cap (entries m) ->
  distinct_keys e ((kvs ++ new).*1) = true ->
  (Z.to_nat (cap (entries m)) < fuel)%nat ->
  exists m', run (map_inserts fuel new) m = Ret (replicate (length new) true, m') /\
    holds h e m' (kvs ++ new) /\
    cap (entries m') = cap (entries m).
Proof.
  induction new as [|[k v] new IH]; intros kvs m Hholds Hfit Hdist Hfuel.
  - exists m. rewrite app_nil_r. split; [reflexivity | split; [exact Hholds | reflexivity]].
  - destruct (map_insert_fresh h e m kvs k v fuel) as (m1 & Hrun1 & Hholds1 & Hcap1);
      [done | simpl in Hfit; lia | | done |].
    { rewrite fmap_app in Hdist. simpl in Hdist.
      now apply distinct_keys_before with (ks2 := new.*1). }
    destruct (IH (kvs ++ [(k, v)]) m1) as (m' & Hrun & Hholds' & Hcap');
      [done | rewrite length_app, Hcap1; simpl in *; lia
      | now rewrite <- app_assoc | now rewrite Hcap1 |].
    exists m'. split; [|split].
    + unfold run in *. simpl.
      erewrite bind_run by exact Hrun1.
      erewrite bind_run by exact Hrun.
      reflexivity.
    + now rewrite <- app_assoc in Hholds'.
    + congruence.
Qed.
End MapInsertGet.

(** ** Map: what the loops leave behind *)

Section MapFrame.
Context `{WordSize} {K V : Type} `{Zeroed K} `{Zeroed V}.

Local Abbreviation entry := (map_entry K V).
Local Abbreviation map := (map_t K V).
Implicit Types (m : map) (k : K) (v : V) (x : entry) (d : nat).
Implicit Types (h : K -> Z) (e : K -> K -> bool).

Lemma entry_at_cases m i :
  entry_at i m = Crash \/ exists x, entry_at i m = Ret (x, m).
Proof.
  unfold entry_at, on_entries, dyn_load, bind, get_self, ret, crash.
  destruct (i <? _); [|now left].
  destruct (buf (entries m) !! Z.to_nat i) as [x|]; [|now left].
  right. exists x. now destruct m.
Qed.

Lemma call_key_compare_cases m k1 k2 :
  call_key_compare k1 k2 m = Crash \/
  exists b, call_key_compare k1 k2 m = Ret (b, m).
Proof.
  unfold call_key_compare, bind, get_self, ret, crash.
  destruct (key_compare m) as [e|]; [right; now exists (e k1 k2) | now left].
Qed.


Lemma umod_cases {S} (a b : Z) (s : S) :
  umod a b s = Crash \/ (b <> 0 /\ umod a b s = Ret (a mod b, s)).
Proof.
  unfold umod, crash, ret. destruct (Z.eqb_spec b 0); [now left | now right].
Qed.

(** The probe loop of [map_insert] writes nothing. *)
Lemma map_insert_loop_returns k : forall fuel index m r m',
  map_insert_loop fuel k index m = Ret (r, m') -> m' = m.
Proof.
  induction fuel as [|fuel IH]; intros index m r m'; simpl; [discriminate|].
  unfold bind at 1.
  destruct (entry_at_cases m index) as [->|[x ->]]; [discriminate|].
  destruct (active x); [|unfold ret; congruence].
  unfold bind at 1.
  destruct (call_key_compare_cases m (key x) k) as [->|[b ->]]; [discriminate|].
  destruct b; [unfold ret; congruence|].
  unfold bind at 1, get_self. unfold bind at 1.
  destruct (umod_cases (to_size_t (index + 1)) (cap (entries m)) m) as [->|[_ ->]];
    [discriminate|].
  apply IH.
Qed.

(** So does the loop of [map_update] and [map_remove]; when it reports
    [found], the slot it stopped at is active. *)
Lemma map_find_loop_returns k : forall fuel index m found index' m',
  map_find_loop fuel k index m = Ret ((found, index'), m') ->
  m' = m /\
  (found = true -> exists x, slot m index' = Some x /\ active x = true).
Proof.
  induction fuel as [|fuel IH]; intros index m found index' m'; simpl; [discriminate|].
  unfold bind at 1.
  destruct (entry_at_cases m index) as [->|[x Hx]]; [discriminate|].
  rewrite Hx. apply entry_at_returns in Hx as [_ Hx].
  destruct (active x) eqn:Ha.
  - unfold bind at 1.
    destruct (call_key_compare_cases m (key x) k) as [->|[b ->]]; [discriminate|].
    destruct b.
    + unfold ret. intros [= <- <- <-]. split; [done|]. intros _. now exists x.
    + unfold bind at 1, get_self. unfold bind at 1.
      destruct (umod_cases (to_size_t (index + 1)) (cap (entries m)) m) as [->|[_ ->]];
        [discriminate|].
      apply IH.
  - unfold ret. intros [= <- <- <-]. split; [done|discriminate].
Qed.



End MapFrame.

(** ** Map: a table whose slots are all active *)

Section MapFull.
Context `{WordSize} {K V : Type} `{Zeroed K} `{Zeroed V}.

Local Abbreviation entry := (map_entry K V).
Local Abbreviation map := (map_t K V).
Implicit Types (m : map) (k : K) (v : V) (x : entry) (d : nat).
Implicit Types (h : K -> Z) (e : K -> K -> bool).

Lemma full_slot h e m k i :
  map_ok h e m -> full_without e k m -> 0 <= i < cap (entries m) ->
  exists x, slot m i = Some x /\ active x = true /\ e (key x) k = false.
Proof.
  intros (_ & _ & _ & Hlen) Hfull Hi.
  destruct (slot_in_range m i Hlen Hi) as [x Hx]. exists x.
  split; [done|]. apply Hfull. unfold slot in Hx.
  now apply list_elem_of_lookup_2 in Hx.
Qed.

(** The loop of [map_update] and [map_remove] has no exit on such a
    table: whatever the fuel, it is used up. *)
Lemma map_find_loop_spins h e m k :
  map_ok h e m -> full_without e k m ->
  forall fuel start, 0 <= start < cap (entries m) ->
    map_find_loop fuel k start m = OutOfFuel.
Proof.
  intros Hok Hfull. pose proof Hok as (Hh & He & Hcap & Hlen).
  induction fuel as [|fuel IH]; intros start Hs; simpl; [done|].
  destruct (full_slot h e m k start Hok Hfull Hs) as (x & Hx & Ha & Hne).
  erewrite bind_run by (apply entry_at_run; exact Hx).
  rewrite Ha.
  erewrite bind_run by (apply call_key_compare_run; exact He).
  rewrite Hne. unfold bind at 1, get_self.
  erewrite bind_run by (apply next_index_run; lia).
  apply IH. apply Z.mod_pos_bound. lia.
Qed.

Lemma map_update_spins h e m k v fuel :
  map_ok h e m -> full_without e k m ->
  run (map_update fuel k v) m = OutOfFuel.
Proof.
  intros Hok Hfull. pose proof Hok as (Hh & He & Hcap & Hlen).
  unfold run, map_update.
  erewrite bind_run by (apply call_hash_run; exact Hh).
  unfold bind at 1, get_self.
  erewrite bind_run by (apply umod_run; lia).
  unfold bind.
  rewrite (map_find_loop_spins h e m k Hok Hfull); [done|].
  apply Z.mod_pos_bound. lia.
Qed.

Lemma map_remove_spins h e m k fuel :
  map_ok h e m -> full_without e k m ->
  run (map_remove fuel k) m = OutOfFuel.
Proof.
  intros Hok Hfull. pose proof Hok as (Hh & He & Hcap & Hlen).
  unfold run, map_remove.
  erewrite bind_run by (apply call_hash_run; exact Hh).
  unfold bind at 1, get_self.
  erewrite bind_run by (apply umod_run; lia).
  unfold bind.
  rewrite (map_find_loop_spins h e m k Hok Hfull); [done|].
  apply Z.mod_pos_bound. lia.
Qed.



(** [map_resize] leaves both function pointers of the new table null, so
    neither the inserts it makes nor the insert that called it can get
    past [self->hash(key)]. *)
Lemma map_resize_loop_null (insert : K -> V -> M map bool) (self : map) :
  (forall k v nm r, hash nm = None -> insert k v nm <> Ret r) ->
  forall fuel i nm u nm',
    hash nm = None ->
    map_resize_loop fuel insert self i nm = Ret (u, nm') -> hash nm' = None.
Proof.
  intros Hins. induction fuel as [|fuel IH]; intros i nm u nm' Hnull; simpl;
    [discriminate|].
  destruct (i <? cap (entries self)); [|unfold ret; congruence].
  destruct (buf (entries self) !! Z.to_nat i) as [x|]; [|discriminate].
  intros Hrun. apply bind_returns in Hrun as (u1 & nm1 & Hfirst & Hrest).
  destruct (active x).
  - apply bind_returns in Hfirst as (b & nm2 & Hcall & _).
    now apply Hins in Hcall.
  - unfold ret in Hfirst. injection Hfirst as _ <-. now apply IH in Hrest.
Qed.

Lemma map_insert_stuck : forall fuel m k v r,
  hash m = None \/ cap (entries m) <= active_count m ->
  run (map_insert fuel k v) m <> Ret r.
Proof.
  unfold run. induction fuel as [|fuel IH]; intros m k v r Hm; simpl; [discriminate|].
  unfold bind at 1, get_self.
  destruct (Z.leb_spec (cap (entries m)) (active_count m)) as [Hfull|Hroom].
  - intros Hrun. apply bind_returns in Hrun as (u & m1 & Hresize & Hrest).
    apply bind_returns in Hrest as (z & m2 & Hcall & _).
    apply call_hash_returns in Hcall as [-> Hnonnull]. apply Hnonnull.
    unfold map_resize, bind at 1, get_self in Hresize.
    destruct (map_resize_loop _ _ _ _ _) as [[u' nm']| |] eqn:Hloop; try discriminate.
    apply map_resize_loop_null in Hloop; [| |done].
    + unfold bind, map_deinit, on_entries, dyn_deinit, put_self in Hresize.
      now injection Hresize as _ <-.
    + intros k' v' nm r' Hnull. apply IH. now left.
  - destruct Hm as [Hnull|]; [|lia].
    unfold bind at 1, ret at 1. unfold bind at 1, call_hash, bind, get_self.
    rewrite Hnull. discriminate.
Qed.
End MapFull.

(** ** Map: the calls that answer [false] *)

Section MapFailure.
Context `{WordSize} {K V : Type} `{Zeroed K} `{Zeroed V}.

Local Abbreviation entry := (map_entry K V).
Local Abbreviation map := (map_t K V).
Implicit Types (m : map) (k : K) (v : V) (x : entry).

Lemma map_insert_failure fuel m m' k v :
  run (map_insert fuel k v) m = Ret (false, m') -> m' = m.
Proof.
  intros Hrun.
  destruct (Z.leb_spec (cap (entries m)) (active_count m)) as [Hfull|Hroom].
  { exfalso. revert Hrun. apply map_insert_stuck. now right. }
  unfold run in Hrun. destruct fuel as [|fuel]; [discriminate|]. simpl in Hrun.
  unfold bind at 1, get_self in Hrun.
  destruct (Z.leb_spec (cap (entries m)) (active_count m)); [lia|].
  unfold bind at 1, ret at 1 in Hrun.
  apply bind_returns in Hrun as (z & m1 & Hcall & Hrun).
  apply call_hash_returns in Hcall as [-> _].
  unfold bind at 1, get_self in Hrun.
  apply bind_returns in Hrun as (index & m1 & Hmod & Hrun).
  apply umod_returns in Hmod as [= -> ->].
  apply bind_returns in Hrun as (r & m1 & Hloop & Hrun).
  apply map_insert_loop_returns in Hloop as ->.
  destruct r as [index|].
  - apply bind_returns in Hrun as (? & ? & _ & Hrun).
    apply bind_returns in Hrun as (? & ? & _ & Hrun).
    apply bind_returns in Hrun as (? & ? & _ & Hrun).
    apply bind_returns in Hrun as (? & ? & _ & Hrun).
    apply bind_returns in Hrun as (? & ? & _ & Hrun).
    unfold ret in Hrun. discriminate.
  - unfold ret in Hrun. now injection Hrun as <-.
Qed.

Lemma map_update_failure fuel m m' k v :
  run (map_update fuel k v) m = Ret (false, m') -> m' = m.
Proof.
  unfold run, map_update. intros Hrun.
  apply bind_returns in Hrun as (z & m1 & Hcall & Hrun).
  apply call_hash_returns in Hcall as [-> _].
  unfold bind at 1, get_self in Hrun.
  apply bind_returns in Hrun as (index & m1 & Hmod & Hrun).
  apply umod_returns in Hmod as [= -> ->].
  apply bind_returns in Hrun as ([found index] & m1 & Hloop & Hrun).
  apply map_find_loop_returns in Hloop as [-> _].
  destruct found; simpl in Hrun.
  - apply bind_returns in Hrun as (? & ? & _ & Hrun).
    unfold ret in Hrun. discriminate.
  - unfold ret in Hrun. now injection Hrun as <-.
Qed.

Lemma map_remove_failure fuel m m' k :
  run (map_remove fuel k) m = Ret (false, m') -> m' = m.
Proof.
  unfold run, map_remove. intros Hrun.
  apply bind_returns in Hrun as (z & m1 & Hcall & Hrun).
  apply call_hash_returns in Hcall as [-> _].
  unfold bind at 1, get_self in Hrun.
  apply bind_returns in Hrun as (index & m1 & Hmod & Hrun).
  apply umod_returns in Hmod as [= -> ->].
  apply bind_returns in Hrun as ([found index] & m1 & Hloop & Hrun).
  apply map_find_loop_returns in Hloop as [-> _].
  destruct found; simpl in Hrun.
  - apply bind_returns in Hrun as (? & ? & _ & Hrun).
    apply bind_returns in Hrun as (? & ? & _ & Hrun).
    apply bind_returns in Hrun as (? & ? & _ & Hrun).
    unfold ret in Hrun. discriminate.
  - unfold ret in Hrun. now injection Hrun as <-.
Qed.
End MapFailure.

(** ** Map: [active_count] stays the number of active slots *)

Section MapCountInvariant.
Context `{WordSize} {K V : Type} `{Zeroed K} `{Zeroed V}.

Local Abbreviation entry := (map_entry K V).
Local Abbreviation map := (map_t K V).
Implicit Types (m : map) (k : K) (v : V) (x : entry).

(** Where the probe loop of [map_insert] ends, the slot is inactive. *)
Lemma map_insert_loop_stops k : forall fuel index m index' m',
  map_insert_loop fuel k index m = Ret (Some index', m') ->
  exists x, slot m index' = Some x /\ active x = false.
Proof.
  induction fuel as [|fuel IH]; intros index m index' m'; simpl; [discriminate|].
  unfold bind at 1.
  destruct (entry_at_cases m index) as [->|[x Hx]]; [discriminate|].
  rewrite Hx. apply entry_at_returns in Hx as [_ Hx].
  destruct (active x) eqn:Ha.
  - unfold bind at 1.
    destruct (call_key_compare_cases m (key x) k) as [->|[b ->]]; [discriminate|].
    destruct b; [unfold ret; discriminate|].
    unfold bind at 1, get_self. unfold bind at 1.
    destruct (umod_cases (to_size_t (index + 1)) (cap (entries m)) m) as [->|[_ ->]];
      [discriminate|].
    apply IH.
  - unfold ret. intros [= <- <-]. now exists x.
Qed.

Lemma map_insert_count_ok fuel m m' k v b :
  count_ok m -> cap (entries m) < size_modulus ->
  run (map_insert fuel k v) m = Ret (b, m') -> count_ok m'.
Proof.
  intros Hcnt Hcap Hrun.
  destruct (Z.leb_spec (cap (entries m)) (active_count m)) as [Hfull|Hroom].
  { exfalso. revert Hrun. apply map_insert_stuck. now right. }
  unfold run in Hrun. destruct fuel as [|fuel]; [discriminate|]. simpl in Hrun.
  unfold bind at 1, get_self in Hrun.
  destruct (Z.leb_spec (cap (entries m)) (active_count m)); [lia|].
  unfold bind at 1, ret at 1 in Hrun.
  apply bind_returns in Hrun as (z & m1 & Hcall & Hrun).
  apply call_hash_returns in Hcall as [-> _].
  unfold bind at 1, get_self in Hrun.
  apply bind_returns in Hrun as (index & m1 & Hmod & Hrun).
  apply umod_returns in Hmod as [= -> ->].
  apply bind_returns in Hrun as (r & m1 & Hloop & Hrun).
  pose proof (map_insert_loop_returns _ _ _ _ _ _ Hloop) as ->.
  destruct r as [index|].
  - apply map_insert_loop_stops in Hloop as (x & Hx & Ha).
    pose proof (count_active_bounds (buf (entries m))) as Hb.
    unfold count_ok in Hcnt.
    rewrite (install_run m index x k v Hx) in Hrun by lia.
    injection Hrun as _ <-. unfold count_ok, installed. simpl.
    rewrite (count_active_insert _ _ x) by exact Hx.
    rewrite Ha. simpl. lia.
  - unfold ret in Hrun. now injection Hrun as _ <-.
Qed.

Lemma map_update_count_ok fuel m m' k v b :
  count_ok m -> run (map_update fuel k v) m = Ret (b, m') -> count_ok m'.
Proof.
  unfold run, map_update. intros Hcnt Hrun.
  apply bind_returns in Hrun as (z & m1 & Hcall & Hrun).
  apply call_hash_returns in Hcall as [-> _].
  unfold bind at 1, get_self in Hrun.
  apply bind_returns in Hrun as (index & m1 & Hmod & Hrun).
  apply umod_returns in Hmod as [= -> ->].
  apply bind_returns in Hrun as ([found index] & m1 & Hloop & Hrun).
  apply map_find_loop_returns in Hloop as [-> Hfound].
  destruct found; simpl in Hrun.
  - destruct Hfound as (x & Hx & Ha); [done|].
    erewrite bind_run in Hrun by (apply set_value_run; exact Hx).
    unfold ret in Hrun. injection Hrun as _ <-.
    unfold count_ok, with_slot in *. simpl.
    rewrite (count_active_insert _ _ x) by exact Hx. simpl. lia.
  - unfold ret in Hrun. now injection Hrun as _ <-.
Qed.

Lemma map_remove_count_ok fuel m m' k b :
  count_ok m -> active_count m < size_modulus ->
  run (map_remove fuel k) m = Ret (b, m') -> count_ok m'.
Proof.
  unfold run, map_remove. intros Hcnt Hsize Hrun.
  apply bind_returns in Hrun as (z & m1 & Hcall & Hrun).
  apply call_hash_returns in Hcall as [-> _].
  unfold bind at 1, get_self in Hrun.
  apply bind_returns in Hrun as (index & m1 & Hmod & Hrun).
  apply umod_returns in Hmod as [= -> ->].
  apply bind_returns in Hrun as ([found index] & m1 & Hloop & Hrun).
  apply map_find_loop_returns in Hloop as [-> Hfound].
  destruct found; simpl in Hrun.
  - destruct Hfound as (x & Hx & Ha); [done|].
    erewrite bind_run in Hrun by (apply set_active_run; exact Hx).
    unfold bind, get_self, set_active_count, put_self, ret in Hrun.
    injection Hrun as _ <-.
    unfold count_ok, with_slot in *. simpl.
    pose proof (count_active_insert (buf (entries m)) (Z.to_nat index) x
                  (mk_entry (key x) (value x) false) Hx) as Hins.
    pose proof (count_active_bounds
                  (<[Z.to_nat index := mk_entry (key x) (value x) false]>
                     (buf (entries m)))) as Hb.
    rewrite Ha in Hins. simpl in Hins.
    rewrite to_size_t_small by lia. lia.
  - unfold ret in Hrun. now injection Hrun as _ <-.
Qed.
End MapCountInvariant.

(** ** [hash_djb2] *)

Section Djb2Facts.
Context `{WordSize}.

Lemma strlen_from_terminated (s rest : list Z) :
  Forall (fun c => c <> 0) s ->
  strlen_from (s ++ 0 :: rest) = Some (Z.of_nat (length s)).
Proof.
  induction 1 as [|c s Hc _ IH]; simpl; [done|].
  destruct (Z.eqb_spec c 0); [done|]. rewrite IH. simpl. f_equal. lia.
Qed.

(** [((hash << 5) + hash) + c] in [size_t] arithmetic. *)
Lemma djb2_step (hash c : Z) :
  to_size_t (to_size_t (to_size_t (Z.shiftl hash 5) + hash) + to_size_t c)
  = (hash * 33 + c) mod size_modulus.
Proof.
  unfold to_size_t. rewrite Z.shiftl_mul_pow2 by lia.
  change (2 ^ 5) with 32.
  rewrite Zplus_mod_idemp_l, Zplus_mod_idemp_r, <- Z.add_assoc, Zplus_mod_idemp_l.
  f_equal. lia.
Qed.

Lemma strlen_run (s rest : list Z) :
  Forall (fun c => c <> 0) s ->
  strlen (s ++ 0 :: rest) = Ret (Z.of_nat (length s), s ++ 0 :: rest).
Proof.
  intros Hnz. unfold strlen, bind, get_self.
  now rewrite strlen_from_terminated.
Qed.

Lemma char_at_run (s rest : list Z) (i : nat) (c : Z) :
  s !! i = Some c ->
  char_at (Z.of_nat i) (s ++ 0 :: rest) = Ret (c, s ++ 0 :: rest).
Proof.
  intros Hc. pose proof (lookup_lt_Some _ _ _ Hc) as Hi.
  unfold char_at, bind, get_self. rewrite length_app.
  destruct (Z.ltb_spec (Z.of_nat i) (Z.of_nat (length s + length (0 :: rest)))); [|lia].
  now rewrite Nat2Z.id, lookup_app_l, Hc.
Qed.

Lemma hash_djb2_loop_run (s rest : list Z) :
  Forall (fun c => c <> 0) s ->
  Z.of_nat (length s) < size_modulus ->
  forall (n i : nat) hash fuel,
    (i + n = length s)%nat -> (n < fuel)%nat ->
    hash_djb2_loop fuel (Z.of_nat i) hash (s ++ 0 :: rest)
    = Ret (fold_left (fun h b => (h * 33 + b) mod size_modulus)
             (char_value <$> drop i s) hash,
           s ++ 0 :: rest).
Proof.
  intros Hnz Hlen.
  induction n as [|n IH]; intros i hash fuel Hin Hfuel;
    (destruct fuel as [|fuel]; [lia|]); cbn [hash_djb2_loop];
    erewrite bind_run by (apply strlen_run; exact Hnz).
  - destruct (Z.ltb_spec (Z.of_nat i) (Z.of_nat (length s))); [lia|].
    now rewrite drop_ge by lia.
  - destruct (Z.ltb_spec (Z.of_nat i) (Z.of_nat (length s))); [|lia].
    destruct (lookup_lt_is_Some_2 s i) as [c Hc]; [lia|].
    erewrite bind_run by (apply char_at_run; exact Hc).
    assert (Hcnz : c <> 0) by exact (Forall_lookup_1 _ _ _ _ Hnz Hc).
    destruct (Z.eqb_spec c 0); [done|].
    rewrite djb2_step, to_size_t_small by lia.
    rewrite (drop_S _ _ _ Hc), fmap_cons. cbn [fold_left].
    replace (Z.of_nat i + 1) with (Z.of_nat (S i)) by lia.
    apply IH; lia.
Qed.

Lemma hash_djb2_run (s rest : list Z) :
  Forall (fun c => c <> 0) s -> Z.of_nat (length s) < size_modulus ->
  run hash_djb2 (s ++ 0 :: rest)
  = Ret (djb2_reference (char_value <$> s), s ++ 0 :: rest).
Proof.
  intros Hnz Hlen. unfold run, hash_djb2, bind at 1, get_self, djb2_reference.
  pose proof size_modulus_big.
  rewrite to_size_t_small by lia.
  apply (hash_djb2_loop_run s rest Hnz Hlen (length s) 0%nat 5381); [lia|].
  rewrite length_app. lia.
Qed.

Lemma char_value_ascii (s : list Z) :
  Forall (fun c => c < 128) s -> char_value <$> s = s.
Proof.
  induction 1 as [|c s Hc _ IH]; [done|]. rewrite fmap_cons, IH. f_equal.
  unfold char_value. now destruct (Z.ltb_spec c 128); [|lia].
Qed.

(** C9.  On a null-terminated string of bytes, [hash_djb2] returns what
    the reference computes over the values the bytes before the terminator
    have as [char]s: from 5381, [h * 33 + c] modulo [2 ^ size_bits] for
    each in order, where [c] is the byte itself below 128 and the byte
    minus 256 from 128 on.  On bytes below 128 that is [h * 33 + byte].
    The string is not written to. *)
Theorem hash_djb2_is_reference_on_char_values (s rest : list Z) :
  Forall (fun c => c <> 0) s -> Forall is_char s ->
  Z.of_nat (length s) < size_modulus ->
  run hash_djb2 (s ++ 0 :: rest)
  = Ret (djb2_reference (char_value <$> s), s ++ 0 :: rest) /\
  (Forall (fun c => c < 128) s ->
   run hash_djb2 (s ++ 0 :: rest) = Ret (djb2_reference s, s ++ 0 :: rest)).
Proof.
  intros Hnz Hchars Hlen.
  pose proof (hash_djb2_run s rest Hnz Hlen) as Hrun.
  split; [exact Hrun|]. intros Hascii.
  rewrite Hrun. now rewrite (char_value_ascii s Hascii).
Qed.
End Djb2Facts.

(** The string ["hi"] hashes to [(5381 * 33 + 104) * 33 + 105], the
    string ["h\xe9"] to [(5381 * 33 + 104) * 33 + (233 - 256)]. *)
Lemma hash_djb2_is_reference_on_char_values_witness :
  run (hash_djb2 (H := word64)) [104; 105; 0] = Ret (5863446, [104; 105; 0]) /\
  run (hash_djb2 (H := word64)) [104; 233; 0] = Ret (5863318, [104; 233; 0]).
Proof.
  split.
  - apply (hash_djb2_is_reference_on_char_values (H := word64) [104; 105] []).
    + repeat constructor; discriminate.
    + repeat constructor; discriminate.
    + reflexivity.
    + repeat constructor.
  - apply (hash_djb2_is_reference_on_char_values (H := word64) [104; 233] []).
    + repeat constructor; discriminate.
    + repeat constructor; discriminate.
    + reflexivity.
Defined.

(** C9 as stated fails on a byte from 128 on: for the string ["\xe9"] the
    code returns [5381 * 33 - 23], the reference [5381 * 33 + 233]. *)
Lemma hash_djb2_high_byte_differs :
  Forall (fun c => c <> 0) [233] /\ Forall is_char [233] /\
  run (hash_djb2 (H := word64)) [233; 0] = Ret (177550, [233; 0]) /\
  djb2_reference (H := word64) [233] = 177806 /\
  run (hash_djb2 (H := word64)) [233; 0]
  <> Ret (djb2_reference (H := word64) [233], [233; 0]).
Proof.
  split; [repeat constructor; discriminate|].
  split; [repeat constructor; discriminate|].
  split; [vm_compute; reflexivity|]. split; [vm_compute; reflexivity|].
  vm_compute. discriminate.
Qed.

(** ** Map: the claims about inserting and reading back *)

Section MapClaims.
Context `{WordSize} {K V : Type} `{Zeroed K} `{Zeroed V}.

Local Abbreviation entry := (map_entry K V).
Local Abbreviation map := (map_t K V).
Implicit Types (m : map) (k : K) (v : V) (x : entry).
Implicit Types (h : K -> Z) (e : K -> K -> bool) (kvs : list (K * V)).

Lemma reflexive_on_elem e (ks : list K) k :
  reflexive_on e ks = true -> k ∈ ks -> e k k = true.
Proof.
  unfold reflexive_on. rewrite forallb_forall. intros Hall Hin.
  apply Hall. now apply list_elem_of_In.
Qed.

Lemma pair_key_elem kvs k v : (k, v) ∈ kvs -> k ∈ kvs.*1.
Proof. intros Hin. apply list_elem_of_fmap. now exists (k, v). Qed.

(** C2.  On a freshly initialised table, any run of [map_insert] calls
    with pairwise distinct keys, no longer than the capacity, succeeds at
    every call; afterwards [map_get] on each inserted key returns
    [ok = true] with the entry carrying the value inserted for it, and
    [active_count] is the number of inserts. *)
Theorem map_insert_distinct_then_get h e kvs fuel :
  Z.of_nat (length kvs) <= cap (entries (map_init h e)) ->
  distinct_keys e kvs.*1 = true ->
  reflexive_on e kvs.*1 = true ->
  (97 < fuel)%nat ->
  exists m,
    run (map_inserts fuel kvs) (map_init h e)
      = Ret (replicate (length kvs) true, m) /\
    active_count m = Z.of_nat (length kvs) /\
    forall k v, (k, v) ∈ kvs ->
      run (map_get k) m = Ret (Opt.mk true (mk_entry k v true), m).
Proof.
  intros Hfit Hdist Hrefl Hfuel.
  destruct (map_inserts_fresh h e fuel kvs [] (map_init h e))
    as (m & Hrun & Hholds & _);
    [apply holds_init | exact Hfit | exact Hdist | exact Hfuel |].
  exists m. split; [exact Hrun|]. split.
  - now destruct Hholds as (_ & _ & Hnum & _).
  - intros k v Hin. apply (map_get_hit h e m kvs); [done | done |].
    apply reflexive_on_elem with (kvs.*1); [done|]. now apply pair_key_elem with v.
Qed.

(** C5, amended.  From a freshly initialised table (capacity 97): 96
    inserts of distinct keys cause no resize and all 96 keys are
    retrievable; the 97th insert of a further distinct key causes no
    resize either, the capacity stays 97, and all 97 keys retrieve their
    original values. *)
Theorem capacity_97_takes_97_keys h e kvs k97 v97 fuel :
  length kvs = 96%nat ->
  distinct_keys e (kvs ++ [(k97, v97)]).*1 = true ->
  reflexive_on e (kvs ++ [(k97, v97)]).*1 = true ->
  (97 < fuel)%nat ->
  exists m96 m97,
    run (map_inserts fuel kvs) (map_init h e) = Ret (replicate 96 true, m96) /\
    cap (entries m96) = 97 /\
    (forall k v, (k, v) ∈ kvs ->
       run (map_get k) m96 = Ret (Opt.mk true (mk_entry k v true), m96)) /\
    run (map_insert fuel k97 v97) m96 = Ret (true, m97) /\
    cap (entries m97) = 97 /\
    (forall k v, (k, v) ∈ kvs ++ [(k97, v97)] ->
       run (map_get k) m97 = Ret (Opt.mk true (mk_entry k v true), m97)).
Proof.
  intros Hlen Hdist Hrefl Hfuel.
  assert (Hdist96 : distinct_keys e (([] : list (K * V)) ++ kvs).*1 = true).
  { simpl. rewrite fmap_app in Hdist. clear -Hdist.
    induction (kvs.*1) as [|a ks IH]; simpl in *; [done|].
    apply andb_prop in Hdist as [Ha Hrest].
    rewrite forallb_app in Ha. apply andb_prop in Ha as [Ha _].
    rewrite Ha. simpl. now apply IH. }
  destruct (map_inserts_fresh h e fuel kvs [] (map_init h e))
    as (m96 & Hrun96 & Hholds96 & Hcap96);
    [apply holds_init | rewrite Hlen; simpl; lia | exact Hdist96 | exact Hfuel |].
  simpl in Hholds96.
  destruct (map_insert_fresh h e m96 kvs k97 v97 fuel)
    as (m97 & Hrun97 & Hholds97 & Hcap97);
    [exact Hholds96 | rewrite Hcap96, Hlen; simpl; lia | | now rewrite Hcap96 |].
  { rewrite fmap_app in Hdist. now apply distinct_keys_before with (ks2 := []). }
  exists m96, m97. rewrite Hlen in Hrun96.
  split; [exact Hrun96|]. split; [exact Hcap96|]. split; [|split; [exact Hrun97|split]].
  - intros k v Hin. apply (map_get_hit h e m96 kvs); [done | done |].
    apply reflexive_on_elem with ((kvs ++ [(k97, v97)]).*1); [done|].
    apply pair_key_elem with v. apply elem_of_app. now left.
  - now rewrite Hcap97.
  - intros k v Hin. apply (map_get_hit h e m97 (kvs ++ [(k97, v97)])); [done | done |].
    apply reflexive_on_elem with ((kvs ++ [(k97, v97)]).*1); [done|].
    now apply pair_key_elem with v.
Qed.

(** C6.  Each call that reports failure leaves the struct as it was:
    [dyn_remove] answering [ok = false] (which it does exactly for an
    index that is out of range), [map_insert] answering [false], and
    [map_update] and [map_remove] answering [false]. *)
Theorem failure_leaves_state_unchanged {T : Type} `{Zeroed T} :
  (forall (self self' : dyn T) index o,
     run (dyn_remove index) self = Ret (o, self') -> Opt.ok o = false ->
     len self <= index /\ self' = self) /\
  (forall (self : dyn T) index,
     len self <= index ->
     run (dyn_remove index) self = Ret (Opt.mk false zeroed, self)) /\
  (forall fuel m m' k v,
     run (map_insert fuel k v) m = Ret (false, m') -> m' = m) /\
  (forall fuel m m' k v,
     run (map_update fuel k v) m = Ret (false, m') -> m' = m) /\
  (forall fuel m m' k,
     run (map_remove fuel k) m = Ret (false, m') -> m' = m).
Proof.
  split; [|split; [|split; [|split]]].
  - intros self self' index o. apply dyn_remove_failure.
  - intros self index. apply dyn_remove_out_of_range.
  - intros fuel m m' k v. apply map_insert_failure.
  - intros fuel m m' k v. apply map_update_failure.
  - intros fuel m m' k. apply map_remove_failure.
Qed.

End MapClaims.

(** ** Map: concrete runs on a 64-bit machine *)

Section MapExamples.
#[local] Existing Instance word64.

Lemma full_table_reached :
  run (map_inserts 200 (numbered 97)) (map_init num_hash num_equal)
  = Ret (replicate 97 true, full_table).
Proof. vm_compute. reflexivity. Qed.

Lemma full_table_ok : map_ok num_hash num_equal full_table.
Proof. repeat split. Qed.

Lemma full_table_without_97 : full_without num_equal 97 full_table.
Proof.
  intros x Hx. unfold full_table in Hx. cbn [entries buf] in Hx.
  apply list_elem_of_fmap in Hx as (i & -> & Hi).
  apply elem_of_seq in Hi. split; [reflexivity|].
  cbn [key]. unfold num_equal. apply Z.eqb_neq. lia.
Qed.

Lemma two_keys_reached :
  run (b1 <- map_insert 200 0 10 ;; b2 <- map_insert 200 97 20 ;; ret (b1, b2))
      (map_init num_hash num_equal)
  = Ret ((true, true), two_keys).
Proof. vm_compute. reflexivity. Qed.

(** C1.  Ninety-seven inserts of distinct keys fill a fresh table.  The
    next insert triggers the growth, and the growth never completes:
    [map_resize] builds the new table with null [hash] and [key_compare]
    and re-inserts through it, so the call stops at [self->hash(key)]
    instead of returning a table of 195 slots. *)
Theorem map_insert_growth_calls_null_hash :
  run (map_inserts 200 (numbered 97)) (map_init num_hash num_equal)
    = Ret (replicate 97 true, full_table) /\
  cap (entries full_table) <= active_count full_table /\
  run (map_insert 200 97 1097) full_table = Crash /\
  forall fuel k v r, run (map_insert fuel k v) full_table <> Ret r.
Proof.
  split; [exact full_table_reached|]. split; [discriminate|]. split.
  - vm_compute. reflexivity.
  - intros fuel k v r. apply map_insert_stuck. right. discriminate.
Qed.

(** C4.  On that full table, reached by 97 inserts, [map_update] and
    [map_remove] called with the absent key 97 never return: their probe
    loop has no bound and finds neither the key nor an inactive slot, so
    every amount of fuel is used up. *)
Theorem map_update_remove_spin_on_full_table :
  run (map_inserts 200 (numbered 97)) (map_init num_hash num_equal)
    = Ret (replicate 97 true, full_table) /\
  forall fuel v,
    run (map_update fuel 97 v) full_table = OutOfFuel /\
    run (map_remove fuel 97) full_table = OutOfFuel.
Proof.
  split; [exact full_table_reached|]. intros fuel v. split.
  - apply (map_update_spins num_hash num_equal);
      [exact full_table_ok | exact full_table_without_97].
  - apply (map_remove_spins num_hash num_equal);
      [exact full_table_ok | exact full_table_without_97].
Qed.

(** C5 as stated fails: after the 97th insert of a distinct key the
    capacity is still 97, not 195. *)
Lemma capacity_still_97_after_97_inserts :
  distinct_keys num_equal (numbered 97).*1 = true /\
  run (map_inserts 200 (numbered 97)) (map_init num_hash num_equal)
    = Ret (replicate 97 true, full_table) /\
  cap (entries full_table) = 97 /\
  cap (entries full_table) <> 97 * 2 + 1.
Proof.
  split; [vm_compute; reflexivity|]. split; [exact full_table_reached|].
  split; [reflexivity|discriminate].
Qed.

(** C8.  Insert 0 and 97 (same home slot), remove 0, insert 97 again.
    Before the last insert the count is right and no key is held twice;
    the insert stops at the slot freed by the removal, answers [true],
    and key 97 is then held by two active slots. *)
Theorem map_insert_duplicates_key_after_remove :
  run (b1 <- map_insert 200 0 10 ;; b2 <- map_insert 200 97 20 ;;
       b3 <- map_remove 200 0 ;; ret (b1, b2, b3))
      (map_init num_hash num_equal)
    = Ret ((true, true, true), after_remove) /\
  count_okb after_remove = true /\
  keys_unique num_equal (buf (entries after_remove)) = true /\
  exists m,
    run (map_insert 200 97 30) after_remove = Ret (true, m) /\
    count_okb m = true /\
    slot m 0 = Some (mk_entry 97 30 true) /\
    slot m 1 = Some (mk_entry 97 20 true) /\
    keys_unique num_equal (buf (entries m)) = false.
Proof.
  split; [vm_compute; reflexivity|]. split; [vm_compute; reflexivity|].
  split; [vm_compute; reflexivity|].
  eexists. split; [vm_compute; reflexivity|].
  repeat split; vm_compute; reflexivity.
Qed.
End MapExamples.

(** ** Instances of the theorems above *)

Lemma map_insert_distinct_then_get_witness :
  exists m,
    run (map_inserts (H := word64) 100 (numbered 3)) (map_init num_hash num_equal)
      = Ret ([true; true; true], m) /\
    active_count m = 3 /\
    forall k v, (k, v) ∈ numbered 3 ->
      run (map_get (H := word64) k) m = Ret (Opt.mk true (mk_entry k v true), m).
Proof.
  apply (@map_insert_distinct_then_get word64 Z Z _ _ num_hash num_equal (numbered 3) 100).
  - vm_compute. discriminate.
  - vm_compute. reflexivity.
  - vm_compute. reflexivity.
  - lia.
Defined.

Lemma capacity_97_takes_97_keys_witness :
  exists m96 m97,
    run (map_inserts (H := word64) 200 (numbered 96)) (map_init num_hash num_equal)
      = Ret (replicate 96 true, m96) /\
    cap (entries m96) = 97 /\
    (forall k v, (k, v) ∈ numbered 96 ->
       run (map_get (H := word64) k) m96 = Ret (Opt.mk true (mk_entry k v true), m96)) /\
    run (map_insert (H := word64) 200 96 1096) m96 = Ret (true, m97) /\
    cap (entries m97) = 97 /\
    (forall k v, (k, v) ∈ numbered 96 ++ [(96, 1096)] ->
       run (map_get (H := word64) k) m97 = Ret (Opt.mk true (mk_entry k v true), m97)).
Proof.
  apply (@capacity_97_takes_97_keys word64 Z Z _ _ num_hash num_equal
           (numbered 96) 96 1096 200).
  - reflexivity.
  - vm_compute. reflexivity.
  - vm_compute. reflexivity.
  - lia.
Defined.

Lemma failure_leaves_state_unchanged_witness :
  (exists o self',
     run (dyn_remove (H := word64) 7) four_ints = Ret (o, self') /\
     Opt.ok o = false /\ self' = four_ints) /\
  (exists m', run (map_insert (H := word64) 200 97 5) two_keys = Ret (false, m') /\
              m' = two_keys) /\
  (exists m', run (map_update (H := word64) 200 5 5) two_keys = Ret (false, m') /\
              m' = two_keys) /\
  (exists m', run (map_remove (H := word64) 200 5) two_keys = Ret (false, m') /\
              m' = two_keys).
Proof.
  pose proof (@failure_leaves_state_unchanged word64 Z Z _ _ Z _)
    as (Hdyn & _ & Hins & Hupd & Hrem).
  split; [|split; [|split]].
  - exists (Opt.mk false 0), four_ints.
    split; [vm_compute; reflexivity|]. split; [reflexivity|].
    apply (Hdyn four_ints four_ints 7 (Opt.mk false 0));
      [vm_compute; reflexivity | reflexivity].
  - exists two_keys. split; [vm_compute; reflexivity|].
    apply (Hins 200%nat two_keys two_keys 97 5). vm_compute. reflexivity.
  - exists two_keys. split; [vm_compute; reflexivity|].
    apply (Hupd 200%nat two_keys two_keys 5 5). vm_compute. reflexivity.
  - exists two_keys. split; [vm_compute; reflexivity|].
    apply (Hrem 200%nat two_keys two_keys 5). vm_compute. reflexivity.
Defined.


(** * Further facts *)

(** ** Map: lookups, updates and removals on a table built by inserts *)

Section MapBuiltFacts.
Context `{WordSize} {K V : Type} `{Zeroed K} `{Zeroed V}.

Local Abbreviation entry := (map_entry K V).
Local Abbreviation map := (map_t K V).
Implicit Types (m : map) (k : K) (v : V) (x : entry) (d : nat).
Implicit Types (h : K -> Z) (e : K -> K -> bool) (kvs : list (K * V)).

Lemma built_holds h e kvs m :
  Z.of_nat (length kvs) <= 97 -> built h e kvs m ->
  holds h e m kvs /\ cap (entries m) = 97.
Proof.
  intros Hfit (Hdist & Hrefl & Hrun).
  destruct (map_inserts_fresh h e 98 kvs [] (map_init h e))
    as (m' & Hrun' & Hholds & Hcap);
    [apply holds_init | exact Hfit | exact Hdist | simpl; lia |].
  rewrite Hrun in Hrun'. injection Hrun' as <-. now split.
Qed.

Lemma absent_key_elem e k (ks : list K) k' :
  absent_key e k ks = true -> k' ∈ ks -> e k' k = false.
Proof.
  unfold absent_key. rewrite forallb_forall. intros Hall Hin.
  apply list_elem_of_In, Hall in Hin. now destruct (e k' k).
Qed.

(** The probe loops on a key that sits behind [d] other keys. *)
Lemma map_insert_loop_dup h e m k x0 d : forall start fuel,
  map_ok h e m -> 0 <= start < cap (entries m) ->
  passes e m k start d ->
  slot m (probe_pos m start d) = Some x0 -> active x0 = true ->
  e (key x0) k = true ->
  (d < fuel)%nat ->
  map_insert_loop fuel k start m = Ret (None, m).
Proof.
  induction d as [|d IH]; intros start fuel Hok Hs Hp Hx0 Ha0 He0 Hfuel;
    (destruct fuel as [|fuel]; [lia|]); simpl.
  - rewrite probe_pos_0 in * by done.
    destruct Hok as (Hh & He & Hcap & Hlen).
    erewrite bind_run by (apply entry_at_run; exact Hx0).
    rewrite Ha0.
    erewrite bind_run by (apply call_key_compare_run; exact He).
    now rewrite He0.
  - apply passes_head in Hp as [(x & Hx & Ha & Hne) Hp]; [|done].
    pose proof Hok as (Hh & He & Hcap & Hlen).
    erewrite bind_run by (apply entry_at_run; exact Hx).
    rewrite Ha.
    erewrite bind_run by (apply call_key_compare_run; exact He).
    rewrite Hne. unfold bind at 1, get_self.
    erewrite bind_run by (apply next_index_run; lia).
    apply IH; try done; [apply Z.mod_pos_bound; lia | now rewrite probe_pos_succ | lia].
Qed.

Lemma map_find_loop_run h e m k x0 d : forall start fuel,
  map_ok h e m -> 0 <= start < cap (entries m) ->
  passes e m k start d ->
  slot m (probe_pos m start d) = Some x0 ->
  (active x0 = false \/ e (key x0) k = true) ->
  (d < fuel)%nat ->
  map_find_loop fuel k start m = Ret ((active x0, probe_pos m start d), m).
Proof.
  induction d as [|d IH]; intros start fuel Hok Hs Hp Hx0 Hstop Hfuel;
    (destruct fuel as [|fuel]; [lia|]); simpl.
  - rewrite probe_pos_0 in * by done.
    destruct Hok as (Hh & He & Hcap & Hlen).
    erewrite bind_run by (apply entry_at_run; exact Hx0).
    destruct (active x0) eqn:Ha0; [|done].
    erewrite bind_run by (apply call_key_compare_run; exact He).
    destruct Hstop as [|He0]; [done|]. now rewrite He0.
  - apply passes_head in Hp as [(x & Hx & Ha & Hne) Hp]; [|done].
    pose proof Hok as (Hh & He & Hcap & Hlen).
    erewrite bind_run by (apply entry_at_run; exact Hx).
    rewrite Ha.
    erewrite bind_run by (apply call_key_compare_run; exact He).
    rewrite Hne. unfold bind at 1, get_self.
    erewrite bind_run by (apply next_index_run; lia).
    rewrite <- probe_pos_succ.
    apply IH; try done; [apply Z.mod_pos_bound; lia | now rewrite probe_pos_succ | lia].
Qed.

(** In a table that holds [kvs] and has a free slot, the probe for a key
    that none of the stored keys equals ends at an inactive slot. *)
Lemma absent_probe h e m kvs k :
  holds h e m kvs -> Z.of_nat (length kvs) < cap (entries m) ->
  absent_key e k kvs.*1 = true ->
  exists d x0, Z.of_nat d < cap (entries m) /\
    passes e m k (home h m k) d /\
    slot m (probe_pos m (home h m k) d) = Some x0 /\ active x0 = false.
Proof.
  intros (Hok & Hcnt & Hnum & Hreach & Hkeys) Hroom Habs.
  pose proof Hok as (Hh & He & Hcap & Hlen).
  pose proof (home_range h m k) as Hhome.
  destruct (first_inactive m (home h m k)) as (d & x0 & Hd & Hx0 & Ha0 & Hact);
    [done | lia | unfold count_ok in Hcnt; lia |].
  exists d, x0. repeat split; try done.
  intros d' Hd'. destruct (Hact d' Hd') as (x & Hx & Ha).
  exists x. repeat split; try done.
  apply absent_key_elem with (kvs.*1); [done|].
  now apply Hkeys with (probe_pos m (home h m k) d').
Qed.

(** [map_get] on a key whose probe ends after [d] steps. *)
Lemma map_get_stops_at h e m k d x0 :
  map_ok h e m -> Z.of_nat d < cap (entries m) ->
  passes e m k (home h m k) d ->
  slot m (probe_pos m (home h m k) d) = Some x0 ->
  (active x0 = false \/ e (key x0) k = true) ->
  run (map_get k) m
  = Ret (if active x0 then Opt.mk true x0 else Opt.mk false zeroed, m).
Proof.
  intros Hok Hd Hp Hs Hstop.
  pose proof Hok as (Hh & He & Hcap & Hlen).
  pose proof (home_range h m k) as Hhome.
  unfold run, map_get, map_get_probe.
  erewrite bind_run; cycle 1.
  { erewrite bind_run by (apply call_hash_run; exact Hh).
    unfold bind at 1, get_self.
    erewrite bind_run by (apply umod_run; lia).
    fold (home h m k).
    eapply (map_get_loop_run h e m k _ d);
      [exact Hok | lia | lia | lia | exact Hp | exact Hs | exact Hstop | lia]. }
  simpl.
  erewrite bind_run by (apply entry_at_run; exact Hs).
  destruct (active x0) eqn:Ha; [|done].
  erewrite bind_run by (apply call_key_compare_run; exact He).
  destruct Hstop as [|He0]; [done|]. now rewrite He0.
Qed.

(** [map_update] and [map_remove] up to the end of their loop, for a key
    whose probe ends after [d] steps. *)
Ltac find_steps h e m k x0 d Hok Hp Hs Hstop :=
  let Hh := fresh "Hh" in let He := fresh "He" in
  let Hcap := fresh "Hcap" in let Hlen := fresh "Hlen" in
  pose proof Hok as (Hh & He & Hcap & Hlen);
  pose proof (home_range h m k);
  erewrite bind_run by (apply call_hash_run; exact Hh);
  unfold bind at 1, get_self;
  erewrite bind_run by (apply umod_run; lia);
  fold (home h m k);
  erewrite bind_run
    by (apply (map_find_loop_run h e m k x0 d);
        [exact Hok | lia | exact Hp | exact Hs | exact Hstop | lia]).

(** X1.  In a table built by fewer than 97 inserts, a key that equals none
    of the inserted keys is reported missing by all three lookups:
    [map_get] answers [ok = false], [map_update] and [map_remove] answer
    [false], and the table is left as it was. *)
Theorem map_absent_key_not_found h e kvs m k v fuel :
  Z.of_nat (length kvs) < 97 -> built h e kvs m ->
  absent_key e k kvs.*1 = true -> (97 <= fuel)%nat ->
  run (map_get k) m = Ret (Opt.mk false zeroed, m) /\
  run (map_update fuel k v) m = Ret (false, m) /\
  run (map_remove fuel k) m = Ret (false, m).
Proof.
  intros Hlen Hbuilt Habs Hfuel.
  destruct (built_holds h e kvs m) as [Hholds Hcap]; [lia | done |].
  destruct (absent_probe h e m kvs k) as (d & x0 & Hd & Hp & Hx0 & Ha0);
    [done | lia | done |].
  pose proof Hholds as (Hok & _).
  split; [|split].
  - rewrite (map_get_stops_at h e m k d x0) by auto. now rewrite Ha0.
  - unfold run, map_update.
    find_steps h e m k x0 d Hok Hp Hx0 (@or_introl _ (e (key x0) k = true) Ha0).
    now rewrite Ha0.
  - unfold run, map_remove.
    find_steps h e m k x0 d Hok Hp Hx0 (@or_introl _ (e (key x0) k = true) Ha0).
    now rewrite Ha0.
Qed.

(** X2.  In a table built by fewer than 97 inserts, inserting a key that is
    already there is refused: [map_insert] answers [false], the table is
    unchanged, and the key still reads back its first value. *)
Theorem map_insert_present_key_refused h e kvs m k v0 v fuel :
  Z.of_nat (length kvs) < 97 -> built h e kvs m ->
  (k, v0) ∈ kvs -> (97 < fuel)%nat ->
  run (map_insert fuel k v) m = Ret (false, m) /\
  run (map_get k) m = Ret (Opt.mk true (mk_entry k v0 true), m).
Proof.
  intros Hlen Hbuilt Hin Hfuel.
  destruct (built_holds h e kvs m) as [Hholds Hcap]; [lia | done |].
  destruct Hbuilt as (_ & Hrefl & _).
  assert (Hkk : e k k = true).
  { apply reflexive_on_elem with (kvs.*1); [done|]. now apply pair_key_elem with v0. }
  split; [|now apply (map_get_hit h e m kvs)].
  destruct Hholds as (Hok & Hcnt & Hnum & Hreach & Hkeys).
  pose proof Hok as (Hh & He & Hcapr & Hlenb).
  destruct (Hreach k v0 Hin) as (d & Hd & Hp & Hs).
  pose proof (home_range h m k) as Hhome.
  destruct fuel as [|fuel]; [lia|].
  unfold run. simpl. unfold bind at 1, get_self.
  destruct (Z.leb_spec (cap (entries m)) (active_count m)); [lia|].
  unfold bind at 1, ret at 1.
  erewrite bind_run by (apply call_hash_run; exact Hh).
  unfold bind at 1, get_self.
  erewrite bind_run by (apply umod_run; lia).
  fold (home h m k).
  erewrite bind_run
    by (eapply (map_insert_loop_dup h e m k _ d);
        [exact Hok | lia | exact Hp | exact Hs | reflexivity | exact Hkk | lia]).
  reflexivity.
Qed.

(** Overwriting slot [index] keeps a probe path that does not lean on the
    old content of that slot. *)
Lemma passes_with_slot e m k' start d index y :
  (forall x, slot m index = Some x -> active x = true -> e (key x) k' = false ->
     active y = true /\ e (key y) k' = false) ->
  passes e m k' start d -> passes e (with_slot m index y) k' start d.
Proof.
  intros Hsame Hp d' Hd'. destruct (Hp d' Hd') as (x & Hx & Ha & Hne).
  change (probe_pos (with_slot m index y) start d') with (probe_pos m start d').
  unfold slot, with_slot in *. simpl.
  destruct (decide (Z.to_nat index = Z.to_nat (probe_pos m start d'))) as [Heq|Hneq].
  - exists y. rewrite Heq in *.
    rewrite list_lookup_insert_eq by (now apply lookup_lt_Some in Hx).
    destruct (Hsame x Hx Ha Hne) as [Hay Hey]. now repeat split.
  - exists x. now rewrite list_lookup_insert_ne.
Qed.

Lemma slot_with_slot_other m index j y :
  Z.to_nat index <> Z.to_nat j -> slot (with_slot m index y) j = slot m j.
Proof. unfold slot, with_slot. simpl. intros. now apply list_lookup_insert_ne. Qed.

Lemma map_ok_with_slot h e m index y :
  map_ok h e m -> map_ok h e (with_slot m index y).
Proof.
  intros (Hh & He & Hcap & Hlen). unfold map_ok, with_slot. simpl.
  now rewrite length_insert.
Qed.

(** The table in which key [k], found after [d] probe steps, carries the
    new value [v]: every key of [kvs] still reads back, [k] with [v]. *)
Lemma updated_reads h e m kvs k v0 v d :
  holds h e m kvs -> e k k = true -> reflexive_on e kvs.*1 = true ->
  Z.of_nat d < cap (entries m) ->
  passes e m k (home h m k) d ->
  slot m (probe_pos m (home h m k) d) = Some (mk_entry k v0 true) ->
  let m' := with_slot m (probe_pos m (home h m k) d) (mk_entry k v true) in
  run (map_get k) m' = Ret (Opt.mk true (mk_entry k v true), m') /\
  forall k2 v2, (k2, v2) ∈ kvs -> k2 <> k ->
    run (map_get k2) m' = Ret (Opt.mk true (mk_entry k2 v2 true), m').
Proof.
  intros (Hok & Hcnt & Hnum & Hreach & Hkeys) Hkk Hrefl Hd Hp Hs m'.
  set (j := probe_pos m (home h m k) d) in *.
  assert (Hok' : map_ok h e m') by now apply map_ok_with_slot.
  assert (Hpass : forall k' d', passes e m k' (home h m k') d' ->
                                passes e m' k' (home h m' k') d').
  { intros k' d' Hp'. apply passes_with_slot; [|exact Hp'].
    intros x Hx Ha Hne. rewrite Hs in Hx. injection Hx as <-. now split. }
  split.
  - rewrite (map_get_stops_at h e m' k d (mk_entry k v true)); try done.
    + now apply Hpass.
    + now apply slot_with_slot_eq with (mk_entry k v0 true).
    + now right.
  - intros k2 v2 Hin Hne.
    destruct (Hreach k2 v2 Hin) as (d2 & Hd2 & Hp2 & Hs2).
    rewrite (map_get_stops_at h e m' k2 d2 (mk_entry k2 v2 true)); try done.
    + now apply Hpass.
    + change (home h m' k2) with (home h m k2).
      change (probe_pos m') with (probe_pos m). unfold m'.
      rewrite slot_with_slot_other; [done|].
      intros Heq. unfold slot in Hs, Hs2. rewrite Heq in Hs. congruence.
    + right. simpl. apply reflexive_on_elem with (kvs.*1); [done|].
      now apply pair_key_elem with v2.
Qed.

Lemma map_update_run h e m k v0 v d fuel :
  map_ok h e m -> e k k = true -> Z.of_nat d < cap (entries m) ->
  passes e m k (home h m k) d ->
  slot m (probe_pos m (home h m k) d) = Some (mk_entry k v0 true) ->
  (97 <= fuel)%nat -> cap (entries m) = 97 ->
  run (map_update fuel k v) m
  = Ret (true, with_slot m (probe_pos m (home h m k) d) (mk_entry k v true)).
Proof.
  intros Hok Hkk Hd Hp Hs Hfuel Hcap97. unfold run, map_update.
  find_steps h e m k (mk_entry k v0 true) d Hok Hp Hs
    (@or_intror (active (mk_entry k v0 true) = false) _ Hkk).
  simpl.
  erewrite bind_run by (apply set_value_run; exact Hs).
  reflexivity.
Qed.

(** X3.  Updating a key that was inserted answers [true] and changes that
    key's value only: afterwards [map_get] returns the new value for it and
    the inserted value for every other key; [active_count] is as before. *)
Theorem map_update_present_key h e kvs m k v0 v fuel :
  Z.of_nat (length kvs) <= 97 -> built h e kvs m ->
  (k, v0) ∈ kvs -> (97 <= fuel)%nat ->
  exists m', run (map_update fuel k v) m = Ret (true, m') /\
    active_count m' = active_count m /\
    run (map_get k) m' = Ret (Opt.mk true (mk_entry k v true), m') /\
    forall k2 v2, (k2, v2) ∈ kvs -> k2 <> k ->
      run (map_get k2) m' = Ret (Opt.mk true (mk_entry k2 v2 true), m').
Proof.
  intros Hlen Hbuilt Hin Hfuel.
  destruct (built_holds h e kvs m) as [Hholds Hcap]; [lia | done |].
  destruct Hbuilt as (_ & Hrefl & _).
  assert (Hkk : e k k = true).
  { apply reflexive_on_elem with (kvs.*1); [done|]. now apply pair_key_elem with v0. }
  pose proof Hholds as (Hok & Hcnt & Hnum & Hreach & Hkeys).
  destruct (Hreach k v0 Hin) as (d & Hd & Hp & Hs).
  exists (with_slot m (probe_pos m (home h m k) d) (mk_entry k v true)).
  split; [now apply (map_update_run h e m k v0 v d)|]. split; [reflexivity|].
  now apply (updated_reads h e m kvs k v0 v d).
Qed.

Lemma map_remove_run h e m k v0 d fuel :
  map_ok h e m -> e k k = true -> Z.of_nat d < cap (entries m) ->
  passes e m k (home h m k) d ->
  slot m (probe_pos m (home h m k) d) = Some (mk_entry k v0 true) ->
  (97 <= fuel)%nat -> cap (entries m) = 97 ->
  1 <= active_count m < size_modulus ->
  run (map_remove fuel k) m
  = Ret (true, with_count
                 (with_slot m (probe_pos m (home h m k) d) (mk_entry k v0 false))
                 (active_count m - 1)).
Proof.
  intros Hok Hkk Hd Hp Hs Hfuel Hcap97 Hcount. unfold run, map_remove.
  find_steps h e m k (mk_entry k v0 true) d Hok Hp Hs
    (@or_intror (active (mk_entry k v0 true) = false) _ Hkk).
  simpl.
  erewrite bind_run by (apply set_active_run; exact Hs).
  unfold bind, get_self, set_active_count, put_self, ret, with_count. simpl.
  now rewrite to_size_t_small by lia.
Qed.

(** X4.  Removing a key that was inserted answers [true], lowers
    [active_count] by one and keeps it equal to the number of active
    slots; a [map_get] for that key then answers [ok = false]. *)
Theorem map_remove_present_key h e kvs m k v0 fuel :
  Z.of_nat (length kvs) <= 97 -> built h e kvs m ->
  (k, v0) ∈ kvs -> (97 <= fuel)%nat ->
  exists m', run (map_remove fuel k) m = Ret (true, m') /\
    active_count m' = active_count m - 1 /\
    count_ok m' /\
    run (map_get k) m' = Ret (Opt.mk false zeroed, m').
Proof.
  intros Hlen Hbuilt Hin Hfuel.
  destruct (built_holds h e kvs m) as [Hholds Hcap]; [lia | done |].
  destruct Hbuilt as (_ & Hrefl & _).
  assert (Hkk : e k k = true).
  { apply reflexive_on_elem with (kvs.*1); [done|]. now apply pair_key_elem with v0. }
  pose proof Hholds as (Hok & Hcnt & Hnum & Hreach & Hkeys).
  pose proof Hok as (Hh & He & Hcapr & Hlenb).
  destruct (Hreach k v0 Hin) as (d & Hd & Hp & Hs).
  assert (Hpos : 1 <= active_count m < size_modulus).
  { apply list_elem_of_lookup_1 in Hin as [i Hi]. apply lookup_lt_Some in Hi. lia. }
  set (j := probe_pos m (home h m k) d) in *.
  exists (with_count (with_slot m j (mk_entry k v0 false)) (active_count m - 1)).
  split; [now apply (map_remove_run h e m k v0 d)|]. split; [reflexivity|]. split.
  - unfold count_ok, with_count, with_slot in *. simpl.
    rewrite (count_active_insert _ _ (mk_entry k v0 true)) by exact Hs. simpl. lia.
  - rewrite (map_get_stops_at h e _ k d (mk_entry k v0 false)); try done.
    + now apply (map_ok_with_slot h e m j).
    + apply (passes_with_slot e m k (home h m k) d j); [|exact Hp].
      intros x Hx Ha Hne. rewrite Hs in Hx. injection Hx as <-. simpl in Hne. congruence.
    + now apply (slot_with_slot_eq m j (mk_entry k v0 true)).
    + now left.
Qed.

(** X5.  Removing an inserted key and inserting it again with a value
    leaves exactly the table that [map_update] with that value leaves:
    the insert refills the slot the removal freed. *)
Theorem map_remove_then_insert_is_update h e kvs m k v0 v fuel :
  Z.of_nat (length kvs) <= 97 -> built h e kvs m ->
  (k, v0) ∈ kvs -> (97 < fuel)%nat ->
  exists m', run (map_update fuel k v) m = Ret (true, m') /\
    run (b <- map_remove fuel k ;; map_insert fuel k v) m = Ret (true, m').
Proof.
  intros Hlen Hbuilt Hin Hfuel.
  destruct (built_holds h e kvs m) as [Hholds Hcap]; [lia | done |].
  destruct Hbuilt as (_ & Hrefl & _).
  assert (Hkk : e k k = true).
  { apply reflexive_on_elem with (kvs.*1); [done|]. now apply pair_key_elem with v0. }
  pose proof Hholds as (Hok & Hcnt & Hnum & Hreach & Hkeys).
  pose proof Hok as (Hh & He & Hcapr & Hlenb).
  destruct (Hreach k v0 Hin) as (d & Hd & Hp & Hs).
  assert (Hpos : 1 <= active_count m < size_modulus).
  { apply list_elem_of_lookup_1 in Hin as [i Hi]. apply lookup_lt_Some in Hi. lia. }
  pose proof (home_range h m k) as Hhome.
  set (j := probe_pos m (home h m k) d) in *.
  exists (with_slot m j (mk_entry k v true)).
  split; [apply (map_update_run h e m k v0 v d); try done; lia|].
  unfold run.
  erewrite bind_run by (apply (map_remove_run h e m k v0 d); try done; lia).
  fold j. set (m1 := with_count (with_slot m j (mk_entry k v0 false)) (active_count m - 1)).
  assert (Hs1 : slot m1 j = Some (mk_entry k v0 false))
    by now apply (slot_with_slot_eq m j (mk_entry k v0 true)).
  assert (Hp1 : passes e m1 k (home h m1 k) d).
  { apply (passes_with_slot e m k (home h m k) d j); [|exact Hp].
    intros x Hx Ha Hne. rewrite Hs in Hx. injection Hx as <-. simpl in Hne. congruence. }
  assert (Hok1 : map_ok h e m1) by now apply (map_ok_with_slot h e m j).
  destruct fuel as [|fuel]; [lia|].
  simpl. unfold bind at 1, get_self.
  change (cap (entries m1)) with (cap (entries m)).
  change (active_count m1) with (active_count m - 1).
  destruct (Z.leb_spec (cap (entries m)) (active_count m - 1)); [lia|].
  unfold bind at 1, ret at 1.
  erewrite bind_run by (apply call_hash_run; exact Hh).
  unfold bind at 1, get_self.
  erewrite bind_run by (apply umod_run; change (cap (entries m1)) with (cap (entries m)); lia).
  change (to_size_t (h k) mod cap (entries m1)) with (home h m1 k).
  erewrite bind_run
    by (eapply (map_insert_loop_run h e m1 k _ d);
        [exact Hok1 | apply Hhome; lia | exact Hp1 | exact Hs1 | reflexivity | lia]).
  change (probe_pos m1 (home h m1 k) d) with j.
  etransitivity.
  { apply (install_run m1 j (mk_entry k v0 false) k v Hs1);
      change (active_count m1) with (active_count m - 1); lia. }
  unfold installed, m1, with_count, with_slot. simpl.
  rewrite list_insert_insert_eq.
  now replace (active_count m - 1 + 1) with (active_count m) by lia.
Qed.
End MapBuiltFacts.

(** ** Map: the count of active slots, and [map_iter] *)

Section MapIterFacts.
Context `{WordSize} {K V : Type} `{Zeroed K} `{Zeroed V}.

Local Abbreviation entry := (map_entry K V).
Local Abbreviation map := (map_t K V).
Implicit Types (m : map) (k : K) (v : V) (x : entry) (l : list entry).
Implicit Types (h : K -> Z) (e : K -> K -> bool) (kvs : list (K * V)).

Lemma count_ok_bounds m :
  count_ok m -> 0 <= active_count m <= Z.of_nat (length (buf (entries m))).
Proof. unfold count_ok. intros ->. apply count_active_bounds. Qed.

(** X6.  Every call of [map_insert], [map_update] or [map_remove] that
    returns keeps [active_count] equal to the number of slots whose
    [active] flag is set; so [active_count] never exceeds the number of
    slots. *)
Theorem map_operations_keep_count fuel m k v :
  count_ok m -> cap (entries m) < size_modulus ->
  active_count m < size_modulus ->
  (forall b m', run (map_insert fuel k v) m = Ret (b, m') ->
     count_ok m' /\ 0 <= active_count m' <= Z.of_nat (length (buf (entries m')))) /\
  (forall b m', run (map_update fuel k v) m = Ret (b, m') ->
     count_ok m' /\ 0 <= active_count m' <= Z.of_nat (length (buf (entries m')))) /\
  (forall b m', run (map_remove fuel k) m = Ret (b, m') ->
     count_ok m' /\ 0 <= active_count m' <= Z.of_nat (length (buf (entries m')))).
Proof.
  intros Hcnt Hcap Hsize. split; [|split]; intros b m' Hrun.
  - apply map_insert_count_ok in Hrun; [|done|done].
    split; [done | now apply count_ok_bounds].
  - apply map_update_count_ok in Hrun; [|done].
    split; [done | now apply count_ok_bounds].
  - apply map_remove_count_ok in Hrun; [|done|done].
    split; [done | now apply count_ok_bounds].
Qed.

Lemma active_slots_length l : forall first,
  Z.of_nat (length (active_slots l first)) = count_active l.
Proof.
  induction l as [|x l IH]; intros first; simpl; [done|].
  rewrite length_app, Nat2Z.inj_add, IH. now destruct (active x).
Qed.

Lemma active_slots_elem l : forall first i x,
  (i, x) ∈ active_slots l first <->
  exists n : nat, i = first + Z.of_nat n /\ l !! n = Some x /\ active x = true.
Proof.
  induction l as [|a l IH]; intros first i x; simpl.
  - split; [intros Hin; now apply elem_of_nil in Hin | now intros (n & _ & Hn & _)].
  - rewrite elem_of_app, IH. split.
    + intros [Hin|(n & -> & Hn & Ha)].
      * destruct (active a) eqn:Ha; [|now apply elem_of_nil in Hin].
        apply list_elem_of_singleton in Hin as [= -> ->].
        exists 0%nat. repeat split; [lia | done].
      * exists (S n). repeat split; [lia | done | done].
    + intros ([|n] & -> & Hn & Ha).
      * left. simpl in Hn. injection Hn as ->. rewrite Ha.
        apply list_elem_of_singleton. f_equal. lia.
      * right. exists n. repeat split; [lia | done | done].
Qed.

(** The loop of [map_iter] with the noting code block appends the active
    slots from [iter] on. *)
Lemma map_iter_loop_notes m :
  Z.of_nat (length (buf (entries m))) = cap (entries m) ->
  cap (entries m) < size_modulus ->
  forall (n i : nat) seen fuel,
    (i + n = length (buf (entries m)))%nat -> (n < fuel)%nat ->
    map_iter_loop fuel m note_entry (Z.of_nat i) seen
    = Ret (tt, seen ++ active_slots (drop i (buf (entries m))) (Z.of_nat i)).
Proof.
  intros Hlen Hcap.
  induction n as [|n IH]; intros i seen fuel Hin Hfuel;
    (destruct fuel as [|fuel]; [lia|]); cbn [map_iter_loop].
  - destruct (Z.ltb_spec (Z.of_nat i) (cap (entries m))); [lia|].
    rewrite drop_ge by lia. simpl. now rewrite app_nil_r.
  - destruct (Z.ltb_spec (Z.of_nat i) (cap (entries m))); [|lia].
    destruct (Z.ltb_spec (Z.of_nat i) (Z.of_nat (length (buf (entries m))))); [|lia].
    rewrite Nat2Z.id.
    destruct (lookup_lt_is_Some_2 (buf (entries m)) i) as [x Hx]; [lia|].
    rewrite Hx, (drop_S _ _ _ Hx). cbn [active_slots].
    rewrite to_size_t_small by lia.
    replace (Z.of_nat i + 1) with (Z.of_nat (S i)) by lia.
    destruct (active x).
    + unfold bind at 1, note_entry, bind at 1, get_self, put_self.
      rewrite IH by lia. now rewrite <- app_assoc.
    + unfold bind at 1, ret at 1. rewrite IH by lia. reflexivity.
Qed.

(** X7.  Iterating a table built by inserts with [map_iter] runs the code
    block once per inserted pair: the entries it is handed are active
    slots of the table holding inserted keys, as many as there were
    inserts, and every inserted pair is among them as an entry with its
    key, its value and [active] set. *)
Theorem map_iter_visits_inserted h e kvs m :
  Z.of_nat (length kvs) <= 97 -> built h e kvs m ->
  exists seen,
    run (map_iter m note_entry) [] = Ret (tt, seen) /\
    length seen = length kvs /\
    (forall i x, (i, x) ∈ seen ->
       slot m i = Some x /\ active x = true /\ key x ∈ kvs.*1) /\
    (forall k v, (k, v) ∈ kvs -> exists i, (i, mk_entry k v true) ∈ seen).
Proof.
  intros Hfit Hbuilt.
  destruct (built_holds h e kvs m) as [Hholds Hcap]; [lia | done |].
  destruct Hholds as (Hok & Hcnt & Hnum & Hreach & Hkeys).
  pose proof Hok as (Hh & He & Hcapr & Hlenb).
  exists (active_slots (buf (entries m)) 0). split; [|split; [|split]].
  - unfold run, map_iter.
    rewrite (map_iter_loop_notes m Hlenb (proj2 Hcapr)
               (length (buf (entries m))) 0%nat []) by lia.
    reflexivity.
  - apply Nat2Z.inj. rewrite active_slots_length. unfold count_ok in Hcnt. lia.
  - intros i x Hin. apply active_slots_elem in Hin as (n & -> & Hn & Ha).
    assert (Hs : slot m (0 + Z.of_nat n) = Some x).
    { unfold slot. now rewrite Z.add_0_l, Nat2Z.id. }
    repeat split; [done | done | now apply Hkeys with (0 + Z.of_nat n)].
  - intros k v Hin. destruct (Hreach k v Hin) as (d & Hd & _ & Hs).
    exists (probe_pos m (home h m k) d). apply active_slots_elem.
    exists (Z.to_nat (probe_pos m (home h m k) d)).
    pose proof (probe_pos_range m (home h m k) d). repeat split; [lia | done].
Qed.
End MapIterFacts.

(** ** Dynamic array: bounds-checked access *)

Section DynAccessFacts.
Context `{WordSize} {T : Type} `{Zeroed T}.
Implicit Types (self : dyn T) (index : Z) (elem : T).

Lemma dyn_load_run self index x :
  buf self !! Z.to_nat index = Some x -> dyn_load index self = Ret (x, self).
Proof.
  intros Hx. pose proof (lookup_lt_Some _ _ _ Hx) as Hlt.
  unfold dyn_load, bind, get_self.
  destruct (Z.ltb_spec index (Z.of_nat (length (buf self)))); [|lia].
  now rewrite Hx.
Qed.

Lemma dyn_store_run self index elem :
  0 <= index < Z.of_nat (length (buf self)) ->
  dyn_store index elem self
  = Ret (tt, mk_dyn (<[Z.to_nat index := elem]> (buf self)) (len self) (cap self)).
Proof.
  intros Hi. unfold dyn_store, bind, get_self, put_self.
  now destruct (Z.ltb_spec index (Z.of_nat (length (buf self)))); [|lia].
Qed.

Lemma dyn_at_in_range self index x :
  0 <= index < len self -> buf self !! Z.to_nat index = Some x ->
  run (dyn_at index) self = Ret (Opt.mk true x, self).
Proof.
  intros Hi Hx. unfold run, dyn_at, bind at 1, get_self.
  destruct (Z.leb_spec (len self) index); [lia|].
  erewrite bind_run by (apply dyn_load_run; exact Hx). reflexivity.
Qed.

(** X8.  [dyn_replace] is bounds-checked and [dyn_at] reads back what it
    wrote: past the live elements it reports [ERR_INDEX_OUT_OF_BOUNDS] and
    changes nothing; within them it reports [ERR_NONE], after which
    [dyn_at] returns the new element at that index and what it returned
    before at every other index, and [len] and [cap] are as they were. *)
Theorem dyn_replace_then_at self index elem :
  0 <= index -> len self <= Z.of_nat (length (buf self)) ->
  (len self <= index ->
   run (dyn_replace index elem) self = Ret (Res.mk ERR_INDEX_OUT_OF_BOUNDS zeroed, self)) /\
  (index < len self ->
   exists self',
     run (dyn_replace index elem) self = Ret (Res.mk ERR_NONE zeroed, self') /\
     len self' = len self /\ cap self' = cap self /\
     run (dyn_at index) self' = Ret (Opt.mk true elem, self') /\
     forall j o, 0 <= j -> j <> index ->
       run (dyn_at j) self = Ret (o, self) ->
       run (dyn_at j) self' = Ret (o, self')).
Proof.
  intros Hi Hlen. split; intros Hcmp.
  - unfold run, dyn_replace, bind, get_self.
    now destruct (Z.leb_spec (len self) index); [|lia].
  - exists (mk_dyn (<[Z.to_nat index := elem]> (buf self)) (len self) (cap self)).
    split; [|split; [done|split; [done|split]]].
    + unfold run, dyn_replace, bind at 1, get_self.
      destruct (Z.leb_spec (len self) index); [lia|].
      erewrite bind_run by (apply dyn_store_run; lia). reflexivity.
    + apply dyn_at_in_range; [simpl; lia|]. simpl.
      apply list_lookup_insert_eq. lia.
    + intros j o Hj Hne Hat.
      unfold run, dyn_at, dyn_load, bind, get_self, ret, crash in *. simpl.
      destruct (Z.leb_spec (len self) j); [congruence|].
      cbn [buf len cap]. rewrite length_insert.
      destruct (j <? Z.of_nat (length (buf self))); [|discriminate].
      rewrite list_lookup_insert_ne by lia.
      destruct (buf self !! Z.to_nat j); [|discriminate].
      congruence.
Qed.

Lemma dyn_at_last self x :
  1 <= len self < size_modulus ->
  buf self !! Z.to_nat (len self - 1) = Some x ->
  run (dyn_at (to_size_t (len self - 1))) self = Ret (Opt.mk true x, self).
Proof.
  intros Hlen Hx. rewrite to_size_t_small by lia.
  apply dyn_at_in_range; [lia | done].
Qed.

Lemma dyn_pop_cases self :
  0 <= len self < size_modulus -> len self <= Z.of_nat (length (buf self)) ->
  (len self = 0 -> run dyn_pop self = Ret (Opt.mk false zeroed, self)) /\
  (forall x, buf self !! Z.to_nat (len self - 1) = Some x -> 1 <= len self ->
     run dyn_pop self
     = Ret (Opt.mk true x, mk_dyn (buf self) (len self - 1) (cap self))).
Proof.
  intros Hlen Hfit. split.
  - intros Hzero. unfold run, dyn_pop, bind at 1, get_self.
    erewrite bind_run; cycle 1.
    { apply dyn_at_out_of_range. rewrite Hzero. unfold to_size_t.
      pose proof (Z.mod_pos_bound (0 - 1) size_modulus). pose proof size_modulus_big. lia. }
    reflexivity.
  - intros x Hx Hpos. unfold run, dyn_pop, bind at 1, get_self.
    erewrite bind_run by (apply dyn_at_last; [lia | exact Hx]).
    simpl. unfold bind, set_len, get_self, put_self, ret.
    now rewrite to_size_t_small by lia.
Qed.

(** X9.  [dyn_pop] on an empty array answers [ok = false] and changes
    nothing ([len - 1] wraps to the largest [size_t], which is out of
    range); on an array with live elements it returns the last one and
    lowers [len] by one, leaving the block and [cap] alone. *)
Theorem dyn_pop_last self :
  0 <= len self < size_modulus -> len self <= Z.of_nat (length (buf self)) ->
  (len self = 0 -> run dyn_pop self = Ret (Opt.mk false zeroed, self)) /\
  (forall x, buf self !! Z.to_nat (len self - 1) = Some x -> 1 <= len self ->
     run dyn_pop self
     = Ret (Opt.mk true x, mk_dyn (buf self) (len self - 1) (cap self))).
Proof.
  intros Hlen Hfit. destruct (dyn_pop_cases self Hlen Hfit) as [Hempty Hlast].
  split; [exact Hempty | exact Hlast].
Qed.

(** X10.  Removing the last live element with [dyn_remove] is [dyn_pop]:
    the shifting loop has nothing to do, the element is returned and
    [len] drops by one. *)
Theorem dyn_remove_last_is_pop self :
  1 <= len self < size_modulus -> len self <= Z.of_nat (length (buf self)) ->
  run (dyn_remove (len self - 1)) self = run dyn_pop self /\
  exists x, run dyn_pop self
            = Ret (Opt.mk true x, mk_dyn (buf self) (len self - 1) (cap self)).
Proof.
  intros Hlen Hfit.
  destruct (lookup_lt_is_Some_2 (buf self) (Z.to_nat (len self - 1))) as [x Hx]; [lia|].
  destruct (dyn_pop_cases self) as [_ Hpop]; [lia | lia |].
  rewrite (Hpop x Hx) by lia. split; [|now exists x].
  unfold run, dyn_remove.
  erewrite bind_run by (apply dyn_at_in_range; [lia | exact Hx]).
  simpl. unfold bind at 1, get_self.
  unfold bind at 1. cbn [dyn_remove_loop]. unfold bind at 1, get_self.
  replace (len self - 1 + 1) with (len self) by lia.
  rewrite to_size_t_small by lia.
  destruct (Z.ltb_spec (len self) (len self)); [lia|].
  unfold ret at 1. unfold bind, get_self, set_len, put_self, ret.
  now rewrite to_size_t_small by lia.
Qed.

(** X11.  [dyn_clear] empties the array without touching its block: [len]
    becomes 0, [buf] and [cap] stay, and from then on [dyn_at] at any index
    and [dyn_pop] answer [ok = false]. *)
Theorem dyn_clear_empties self index :
  0 <= index ->
  exists self',
    run dyn_clear self = Ret (tt, self') /\
    len self' = 0 /\ buf self' = buf self /\ cap self' = cap self /\
    run (dyn_at index) self' = Ret (Opt.mk false zeroed, self') /\
    run dyn_pop self' = Ret (Opt.mk false zeroed, self').
Proof.
  intros Hi. exists (mk_dyn (buf self) 0 (cap self)).
  split; [reflexivity|]. repeat split.
  - now apply dyn_at_out_of_range.
  - pose proof size_modulus_big.
    apply (dyn_pop_cases (mk_dyn (buf self) 0 (cap self))); simpl; lia.
Qed.
End DynAccessFacts.

(** ** Dynamic array of [char]: pushing *)

Section CharArrayFacts.
Context `{WordSize}.
Implicit Types (d : dyn Z) (junk : nat -> Z) (elem c : Z) (l : list Z).

Lemma char_bytes_of_buf l :
  bytes_of_buf (H0 := char_ctype) l = (fun c => c mod 256) <$> l.
Proof.
  unfold bytes_of_buf. induction l as [|c l IH]; simpl; [done|].
  now f_equal.
Qed.

Lemma char_buf_of_bytes l : buf_of_bytes (H0 := char_ctype) l = l.
Proof.
  unfold buf_of_bytes. cbn [sizeof char_ctype of_bytes].
  change (Z.to_nat 1) with 1%nat. rewrite Nat.div_1_r.
  apply list_eq. intros i. rewrite list_lookup_fmap.
  destruct (decide (i < length l)%nat) as [Hlt|Hge].
  - rewrite lookup_seq_lt by done. simpl.
    destruct (lookup_lt_is_Some_2 l i Hlt) as [x Hx]. rewrite Hx. f_equal.
    rewrite lookup_take_lt by lia. rewrite lookup_drop.
    replace (i * 1 + 0)%nat with i by lia. now rewrite Hx.
  - rewrite lookup_seq_ge by lia. simpl. symmetry. apply lookup_ge_None. lia.
Qed.

Lemma chars_mod l : Forall is_char l -> (fun c => c mod 256) <$> l = l.
Proof.
  induction 1 as [|c l Hc _ IH]; [done|].
  rewrite fmap_cons, IH. f_equal. apply Z.mod_small. exact Hc.
Qed.

(** What [dyn_resize] makes of a [char] array: twice the slots, the old
    ones first. *)
Lemma char_resize_run d junk :
  Z.of_nat (length (buf d)) = cap d -> 0 <= 2 * cap d < size_modulus ->
  dyn_resize (H0 := char_ctype) junk d
  = Ret (tt, mk_dyn (((fun c => c mod 256) <$> buf d)
                       ++ (junk <$> seq (length (buf d)) (length (buf d))))
                    (len d) (2 * cap d)).
Proof.
  intros Hlen Hcap. unfold dyn_resize, bind, get_self, put_self.
  rewrite to_size_t_small by lia. rewrite char_buf_of_bytes, char_bytes_of_buf.
  unfold realloc. rewrite length_fmap.
  rewrite take_ge by (rewrite length_fmap; lia).
  replace (Z.to_nat (cap d * 2) - length (buf d))%nat with (length (buf d)) by lia.
  now replace (cap d * 2) with (2 * cap d) by lia.
Qed.

Lemma dyn_push_char_run d junk elem :
  chars_ok d -> is_char elem ->
  exists d',
    run (dyn_push (H0 := char_ctype) junk elem) d = Ret (tt, d') /\
    live d' = live d ++ [elem] /\
    len d' = len d + 1 /\
    (cap d' = cap d \/ (cap d <= len d + 1 /\ cap d' = 2 * cap d)) /\
    Z.of_nat (length (buf d')) = cap d' /\
    len d' < cap d' /\
    Forall is_char (live d').
Proof.
  intros (Hlen & Hrange & Hcap & Hchars) Helem.
  pose proof size_modulus_big as Hbig.
  assert (Hstep : exists l1 cap1,
    run (self <- get_self ;;
         if cap self <=? to_size_t (len self + 1)
         then dyn_resize (H0 := char_ctype) junk else ret tt) d
      = Ret (tt, mk_dyn l1 (len d) cap1) /\
    take (Z.to_nat (len d)) l1 = take (Z.to_nat (len d)) (buf d) /\
    Z.of_nat (length l1) = cap1 /\ len d + 1 < cap1 /\
    (cap1 = cap d \/ (cap d <= len d + 1 /\ cap1 = 2 * cap d))).
  { unfold run, bind at 1, get_self. rewrite to_size_t_small by lia.
    destruct (Z.leb_spec (cap d) (len d + 1)) as [Hfull|Hroom].
    - eexists _, _. split; [apply char_resize_run; lia|].
      split; [|split; [|split; [lia | right; lia]]].
      + rewrite take_app_le by (rewrite length_fmap; lia).
        rewrite <- fmap_take. now apply chars_mod.
      + rewrite length_app, !length_fmap, length_seq. lia.
    - exists (buf d), (cap d). split; [now destruct d|].
      repeat split; lia. }
  destruct Hstep as (l1 & cap1 & Hrun1 & Htake & Hlen1 & Hroom1 & Hcap1).
  exists (mk_dyn (<[Z.to_nat (len d) := elem]> l1) (len d + 1) cap1).
  assert (Hlive : take (Z.to_nat (len d + 1)) (<[Z.to_nat (len d) := elem]> l1)
                  = take (Z.to_nat (len d)) (buf d) ++ [elem]).
  { replace (Z.to_nat (len d + 1)) with (S (Z.to_nat (len d))) by lia.
    rewrite (take_S_r _ _ elem) by (apply list_lookup_insert_eq; lia).
    now rewrite take_insert_ge, Htake by lia. }
  split; [|split; [exact Hlive | split; [done | split; [done | split; [|split]]]]].
  - unfold run, dyn_push in *.
    unfold bind at 1, get_self in Hrun1. unfold bind at 1, get_self.
    unfold bind at 1. rewrite Hrun1.
    unfold bind at 1, get_self. cbn [len buf cap].
    erewrite bind_run by (apply dyn_store_run; simpl; lia).
    unfold bind, get_self, set_len, put_self. cbn [len buf cap].
    now rewrite to_size_t_small by lia.
  - simpl. rewrite length_insert. lia.
  - simpl. lia.
  - unfold live. cbn [len buf]. rewrite Hlive.
    apply Forall_app. split; [exact Hchars|].
    constructor; [exact Helem | constructor].
Qed.

(** X12.  [dyn_push] on a [char] array in good shape appends: the live
    elements become the old ones followed by the pushed one and [len]
    grows by one.  The capacity stays, or doubles when [len + 1] had
    reached it; the block again has [cap] slots with one to spare. *)
Theorem dyn_push_char_appends d junk elem :
  chars_ok d -> is_char elem ->
  exists d',
    run (dyn_push (H0 := char_ctype) junk elem) d = Ret (tt, d') /\
    live d' = live d ++ [elem] /\
    len d' = len d + 1 /\
    (cap d' = cap d \/ (cap d <= len d + 1 /\ cap d' = 2 * cap d)) /\
    Z.of_nat (length (buf d')) = cap d' /\
    len d' < cap d' /\
    Forall is_char (live d').
Proof.
  intros Hok Helem.
  destruct (dyn_push_char_run d junk elem Hok Helem) as (d' & Hrun & Hrest).
  exists d'. split; [exact Hrun | exact Hrest].
Qed.
End CharArrayFacts.

(** ** Dynamic array: last in, first out *)

Section DynPopsFacts.
Context `{WordSize} {T : Type} `{Zeroed T}.
Implicit Types (d : dyn T).

Lemma dyn_pops_run (base : list T) : forall (elems : list T) d,
  live d = base ++ elems ->
  len d = Z.of_nat (length base + length elems) ->
  len d < size_modulus ->
  run (dyn_pops (length elems)) d
  = Ret (Opt.mk true <$> rev elems,
         mk_dyn (buf d) (Z.of_nat (length base)) (cap d)).
Proof.
  induction elems as [|x elems IH] using rev_ind; intros d Hlive Hlen Hsize.
  - simpl in *. unfold run, ret. repeat f_equal. destruct d. simpl in *.
    f_equal. lia.
  - rewrite length_app in *. simpl in *.
    replace (length elems + 1)%nat with (S (length elems)) by lia.
    rewrite rev_unit. cbn [dyn_pops]. unfold run.
    assert (Hx : buf d !! Z.to_nat (len d - 1) = Some x).
    { unfold live in Hlive.
      assert (Hl : take (Z.to_nat (len d)) (buf d) !! Z.to_nat (len d - 1) = Some x).
      { rewrite Hlive, app_assoc, lookup_app_r by (rewrite length_app; lia).
        rewrite length_app.
        replace (Z.to_nat (len d - 1) - (length base + length elems))%nat with 0%nat by lia.
        reflexivity. }
      now rewrite lookup_take_lt in Hl by lia. }
    assert (Hfit : len d <= Z.of_nat (length (buf d))).
    { apply lookup_lt_Some in Hx. lia. }
    destruct (dyn_pop_cases d) as [_ Hpop]; [lia | lia |].
    unfold run in Hpop. erewrite bind_run by (apply (Hpop x Hx); lia).
    specialize (IH (mk_dyn (buf d) (len d - 1) (cap d))).
    unfold run in IH. erewrite bind_run; cycle 1.
    { apply IH; simpl; [|lia|lia].
      unfold live in *. simpl.
      replace (take (Z.to_nat (len d - 1)) (buf d))
        with (take (Z.to_nat (len d - 1)) (take (Z.to_nat (len d)) (buf d)))
        by (rewrite take_take; f_equal; lia).
      rewrite Hlive, app_assoc. apply take_app_length'. rewrite length_app. lia. }
    reflexivity.
Qed.
End DynPopsFacts.

Section CharLifoFacts.
Context `{WordSize}.
Implicit Types (d : dyn Z) (junk : nat -> Z).

Lemma dyn_pushes_char_run junk : forall (elems : list Z) d,
  chars_ok d -> Forall is_char elems ->
  4 * (len d + Z.of_nat (length elems)) < size_modulus ->
  exists d',
    run (dyn_pushes (H0 := char_ctype) junk elems) d = Ret (tt, d') /\
    live d' = live d ++ elems /\
    len d' = len d + Z.of_nat (length elems) /\
    len d' < cap d' /\ Z.of_nat (length (buf d')) = cap d'.
Proof.
  induction elems as [|x elems IH]; intros d Hok Hchars Hsize.
  - exists d. destruct Hok as (Hlen & Hrange & _). simpl.
    rewrite app_nil_r. repeat split; lia.
  - inversion Hchars as [|? ? Hx Hrest]; subst.
    destruct (dyn_push_char_run d junk x Hok Hx)
      as (d1 & Hrun1 & Hlive1 & Hlen1 & Hcap1 & Hbuf1 & Hroom1 & Hch1).
    pose proof Hok as (Hlen & Hrange & Hcap & _).
    simpl in Hsize.
    destruct (IH d1) as (d' & Hrun & Hlive & Hlen' & Hroom' & Hbuf'); [|done|lia|].
    { repeat split; try lia. exact Hch1. }
    exists d'. split; [|split; [|split; [simpl; lia|done]]].
    + unfold run in *. cbn [dyn_pushes]. erewrite bind_run by exact Hrun1. exact Hrun.
    + rewrite Hlive, Hlive1, <- app_assoc. reflexivity.
Qed.

(** X13.  Last in, first out on a [char] array: after pushing some
    elements, popping as many returns them in reverse order, each with
    [ok = true], and the live elements are those from before the pushes. *)
Theorem dyn_push_pop_lifo d junk (elems : list Z) :
  chars_ok d -> Forall is_char elems ->
  4 * (len d + Z.of_nat (length elems)) < size_modulus ->
  exists d1 d2,
    run (dyn_pushes (H0 := char_ctype) junk elems) d = Ret (tt, d1) /\
    live d1 = live d ++ elems /\
    run (dyn_pops (length elems)) d1 = Ret (Opt.mk true <$> rev elems, d2) /\
    live d2 = live d /\ len d2 = len d.
Proof.
  intros Hok Hchars Hsize.
  destruct (dyn_pushes_char_run junk elems d Hok Hchars Hsize)
    as (d1 & Hrun & Hlive & Hlen & Hroom & Hbuf).
  pose proof Hok as (Hlenb & Hrange & Hcap & _).
  assert (Hbase : length (live d) = Z.to_nat (len d)).
  { unfold live. rewrite length_take. lia. }
  exists d1, (mk_dyn (buf d1) (Z.of_nat (length (live d))) (cap d1)).
  split; [exact Hrun|]. split; [exact Hlive|]. split; [|split].
  - apply (dyn_pops_run (live d)); [exact Hlive | lia | lia].
  - unfold live in *. cbn [len buf]. rewrite Nat2Z.id.
    replace (take (length (take (Z.to_nat (len d)) (buf d))) (buf d1))
      with (take (length (take (Z.to_nat (len d)) (buf d)))
                 (take (Z.to_nat (len d1)) (buf d1)))
      by (rewrite take_take; f_equal; lia).
    rewrite Hlive. apply take_app_length.
  - simpl. lia.
Qed.
End CharLifoFacts.

(** ** Dynamic array: growth counts bytes, not elements *)

Section DynGrowFacts.
Context `{WordSize} {T : Type} `{CType T}.
Implicit Types (self : dyn T) (junk : nat -> Z) (elem : T).

Lemma bytes_of_buf_length (l : list T) (n : nat) :
  (forall x : T, length (to_bytes x) = n) ->
  length (bytes_of_buf l) = (n * length l)%nat.
Proof.
  intros Hsize. unfold bytes_of_buf.
  induction l as [|x l IH]; [simpl; lia|].
  rewrite fmap_cons. cbn [concat]. rewrite length_app, Hsize, IH. simpl. lia.
Qed.

Lemma buf_of_bytes_length (bs : list Z) :
  length (buf_of_bytes (T := T) bs) = (length bs / Z.to_nat sizeof)%nat.
Proof. unfold buf_of_bytes. now rewrite length_fmap, length_seq. Qed.

(** X14.  For elements of three bytes or more, the push that has to grow
    the array runs off its block: [dyn_resize] doubles [cap] but hands
    [realloc] that number as a size in bytes, so the new block has room
    for at most two thirds of the old [cap] elements and the store to
    [buf[len]] that follows lies outside it. *)
Theorem dyn_push_wide_element_overruns self junk elem :
  (forall x : T, length (to_bytes x) = Z.to_nat sizeof) -> 3 <= sizeof ->
  Z.of_nat (length (buf self)) = cap self ->
  1 <= cap self -> 2 * cap self < size_modulus ->
  len self + 1 = cap self ->
  run (dyn_push junk elem) self = Crash.
Proof.
  intros Hsize Hwide Hlen Hcap Hmod Hfull.
  pose proof (bytes_of_buf_length (buf self) _ Hsize) as Hbytes.
  unfold run, dyn_push, bind at 1, get_self.
  rewrite to_size_t_small by lia. rewrite Hfull.
  destruct (Z.leb_spec (cap self) (cap self)); [|lia].
  unfold bind at 1, dyn_resize, bind at 1, get_self, put_self.
  rewrite (to_size_t_small (cap self * 2)) by lia.
  unfold bind at 1, get_self. cbn [len buf cap].
  unfold bind at 1, dyn_store, bind, get_self. cbn [len buf cap].
  rewrite buf_of_bytes_length. unfold realloc.
  rewrite length_app, length_take, length_fmap, length_seq, Hbytes.
  replace (Z.to_nat (cap self * 2) `min` (Z.to_nat sizeof * length (buf self)))%nat
    with (Z.to_nat (cap self * 2)) by nia.
  replace (Z.to_nat (cap self * 2) - Z.to_nat sizeof * length (buf self))%nat
    with 0%nat by nia.
  rewrite Nat.add_0_r.
  assert (Hfew : (Z.to_nat (cap self * 2) / Z.to_nat sizeof < Z.to_nat (cap self))%nat).
  { apply Nat.Div0.div_lt_upper_bound. nia. }
  destruct (Z.ltb_spec (len self)
              (Z.of_nat (Z.to_nat (cap self * 2) / Z.to_nat sizeof))); [lia|].
  reflexivity.
Qed.
End DynGrowFacts.

Section CharCloneFacts.
Context `{WordSize}.
Implicit Types (d : dyn Z) (junk : nat -> Z).

Lemma dyn_clone_char_run d junk :
  Z.of_nat (length (buf d)) = cap d -> 0 <= len d <= cap d ->
  cap d < size_modulus -> Forall is_char (live d) ->
  exists c,
    run (dyn_clone (H0 := char_ctype) junk) d = Ret (c, d) /\
    live c = live d /\ len c = len d /\ cap c = cap d /\
    Z.of_nat (length (buf c)) = cap c.
Proof.
  intros Hlen Hrange Hcap Hchars.
  exists (mk_dyn (take (Z.to_nat (len d)) ((fun c => c mod 256) <$> buf d)
                    ++ drop (Z.to_nat (len d)) (junk <$> seq 0 (Z.to_nat (cap d))))
                 (len d) (cap d)).
  split; [|split; [|split; [done|split; [done|]]]].
  - unfold run, dyn_clone, bind at 1, get_self.
    cbn [sizeof char_ctype]. rewrite Z.mul_1_l, to_size_t_small by lia.
    unfold memcpy, malloc. rewrite char_bytes_of_buf, !length_fmap, length_seq.
    destruct (Z.leb_spec (len d) (Z.of_nat (Z.to_nat (cap d)))); [|lia].
    destruct (Z.leb_spec (len d) (Z.of_nat (length (buf d)))); [|lia].
    simpl. unfold bind, ret. now rewrite char_buf_of_bytes.
  - unfold live in *. cbn [len buf].
    rewrite take_app_le by (rewrite length_take, length_fmap; lia).
    rewrite take_take, Nat.min_id, <- fmap_take. now apply chars_mod.
  - cbn [buf cap]. rewrite length_app, length_take, length_drop, !length_fmap, length_seq.
    lia.
Qed.

(** X15.  For a [char] array, where an element is a byte, [dyn_clone]
    copies every live element: the clone has the same [len] and [cap], a
    block of [cap] slots of its own whose live part equals the original's,
    and the original is as it was. *)
Theorem dyn_clone_char_copies_live_elements d junk :
  Z.of_nat (length (buf d)) = cap d -> 0 <= len d <= cap d ->
  cap d < size_modulus -> Forall is_char (live d) ->
  exists c,
    run (dyn_clone (H0 := char_ctype) junk) d = Ret (c, d) /\
    live c = live d /\ len c = len d /\ cap c = cap d /\
    Z.of_nat (length (buf c)) = cap c.
Proof.
  intros Hlen Hrange Hcap Hchars.
  destruct (dyn_clone_char_run d junk Hlen Hrange Hcap Hchars) as (c & Hrun & Hrest).
  exists c. split; [exact Hrun | exact Hrest].
Qed.
End CharCloneFacts.

(** ** [str_equal] and [hash_djb2] *)

Section StrEqualFacts.
Context `{WordSize}.

Lemma strcmp_from_terminated (r1 r2 : list Z) : forall s1 s2 : list Z,
  Forall (fun c => c <> 0) s1 -> Forall (fun c => c <> 0) s2 ->
  exists r, strcmp_from (s1 ++ 0 :: r1) (s2 ++ 0 :: r2) = Some r /\
            (r = 0 <-> s1 = s2).
Proof.
  induction s1 as [|c1 s1 IH]; intros [|c2 s2] Hnz1 Hnz2; cbn [app strcmp_from].
  - exists 0. now split.
  - inversion Hnz2; subst. destruct (Z.eqb_spec 0 c2); [congruence|].
    eexists. split; [reflexivity|]. split; [|discriminate].
    destruct (0 mod 256 <? c2 mod 256); discriminate.
  - inversion Hnz1; subst. destruct (Z.eqb_spec c1 0); [congruence|].
    eexists. split; [reflexivity|]. split; [|discriminate].
    destruct (c1 mod 256 <? 0 mod 256); discriminate.
  - inversion Hnz1; inversion Hnz2; subst.
    destruct (Z.eqb_spec c1 c2) as [->|Hne].
    + destruct (Z.eqb_spec c2 0); [congruence|].
      destruct (IH s2) as (r & Hr & Hiff); [done | done |].
      exists r. split; [done|]. rewrite Hiff. split; [now intros -> | now intros [= ->]].
    + eexists. split; [reflexivity|]. split; [|congruence].
      destruct (c1 mod 256 <? c2 mod 256); discriminate.
Qed.

(** X16.  On null-terminated strings [str_equal] answers whether the two
    texts are the same, whatever follows the terminators; and two strings
    it calls equal have the same [hash_djb2].  So the pair is an
    equivalence that agrees with the hash, as the map asks of the two
    functions given to [map_init]. *)
Theorem str_equal_agrees_with_hash (s1 s2 r1 r2 : list Z) :
  Forall (fun c => c <> 0) s1 -> Forall (fun c => c <> 0) s2 ->
  Z.of_nat (length s1) < size_modulus -> Z.of_nat (length s2) < size_modulus ->
  str_equal (s1 ++ 0 :: r1) (s2 ++ 0 :: r2) = Ret (bool_decide (s1 = s2)) /\
  (str_equal (s1 ++ 0 :: r1) (s2 ++ 0 :: r2) = Ret true ->
   exists hv, run hash_djb2 (s1 ++ 0 :: r1) = Ret (hv, s1 ++ 0 :: r1) /\
              run hash_djb2 (s2 ++ 0 :: r2) = Ret (hv, s2 ++ 0 :: r2)).
Proof.
  intros Hnz1 Hnz2 Hlen1 Hlen2.
  destruct (strcmp_from_terminated r1 r2 s1 s2 Hnz1 Hnz2) as (r & Hr & Hiff).
  assert (Heq : str_equal (s1 ++ 0 :: r1) (s2 ++ 0 :: r2) = Ret (bool_decide (s1 = s2))).
  { unfold str_equal. rewrite Hr. f_equal.
    destruct (Z.eqb_spec r 0) as [H0|H0]; symmetry.
    - apply bool_decide_eq_true. now apply Hiff.
    - apply bool_decide_eq_false. intros Hs. now apply Hiff in Hs. }
  split; [exact Heq|]. rewrite Heq. intros [= Hdec].
  apply bool_decide_eq_true in Hdec. subst s2.
  exists (djb2_reference (char_value <$> s1)). split; now apply hash_djb2_run.
Qed.
End StrEqualFacts.

(** ** Strings: reading *)

Section StringReadFacts.
Context `{WordSize}.
Implicit Types (str : string) (c pattern : Z).

Lemma read_at_lookup (block : list Z) (i : nat) (c : Z) :
  block !! i = Some c -> read_at block (Z.of_nat i) = Some c.
Proof.
  intros Hc. pose proof (lookup_lt_Some _ _ _ Hc). unfold read_at.
  destruct (Z.leb_spec 0 (Z.of_nat i)); [|lia].
  destruct (Z.ltb_spec (Z.of_nat i) (Z.of_nat (length block))); [|lia].
  simpl. now rewrite Nat2Z.id.
Qed.

Lemma live_lookup {T} (d : dyn T) (i : nat) :
  (Z.of_nat i < len d)%Z -> live d !! i = buf d !! i.
Proof. intros Hi. unfold live. apply lookup_take_lt. lia. Qed.

Lemma string_contains_char_loop_run str pattern :
  len (Str.buf str) <= Z.of_nat (length (buf (Str.buf str))) ->
  len (Str.buf str) < size_modulus ->
  forall (n i : nat) fuel,
    (i + n = Z.to_nat (len (Str.buf str)))%nat -> (n < fuel)%nat ->
    0 <= len (Str.buf str) ->
    string_contains_char_loop fuel str pattern (Z.of_nat i)
    = match list_find (fun c => c = pattern) (drop i (text str)) with
      | Some (j, _) => Ret (true, Z.of_nat (i + j))
      | None => Ret (false, 0)
      end.
Proof.
  intros Hfit Hsize.
  induction n as [|n IH]; intros i fuel Hin Hfuel Hpos;
    (destruct fuel as [|fuel]; [lia|]); cbn [string_contains_char_loop].
  - destruct (Z.ltb_spec (Z.of_nat i) (len (Str.buf str))); [lia|].
    rewrite drop_ge by (unfold text, live; rewrite length_take; lia). reflexivity.
  - destruct (Z.ltb_spec (Z.of_nat i) (len (Str.buf str))); [|lia].
    destruct (lookup_lt_is_Some_2 (buf (Str.buf str)) i) as [c Hc]; [lia|].
    rewrite (read_at_lookup _ _ _ Hc).
    assert (Hlive : text str !! i = Some c) by (unfold text; now rewrite live_lookup).
    rewrite (drop_S _ _ _ Hlive). cbn [list_find].
    destruct (Z.eqb_spec c pattern) as [->|Hne].
    + rewrite decide_True by done. simpl. repeat f_equal. lia.
    + rewrite decide_False by done.
      rewrite to_size_t_small by lia.
      replace (Z.of_nat i + 1) with (Z.of_nat (S i)) by lia.
      rewrite IH by lia.
      destruct (list_find _ (drop (S i) (text str))) as [[j x]|]; simpl; [|done].
      repeat f_equal. lia.
Qed.

(** X17.  [string_contains_char] finds the first occurrence: it returns
    [{true, i}] with [i] the least index of the text holding the [char],
    and [{false, 0}] when the text does not hold it. *)
Theorem string_contains_char_first str pattern :
  0 <= len (Str.buf str) <= Z.of_nat (length (buf (Str.buf str))) ->
  len (Str.buf str) < size_modulus ->
  (forall i, string_contains_char str pattern = Ret (true, i) <->
     exists n : nat, i = Z.of_nat n /\ text str !! n = Some pattern /\
       forall n' c, (n' < n)%nat -> text str !! n' = Some c -> c <> pattern) /\
  (string_contains_char str pattern = Ret (false, 0) <-> pattern ∉ text str) /\
  exists r, string_contains_char str pattern = Ret r.
Proof.
  intros Hfit Hsize.
  assert (Hrun : string_contains_char str pattern
    = match list_find (fun c => c = pattern) (text str) with
      | Some (j, _) => Ret (true, Z.of_nat j)
      | None => Ret (false, 0)
      end).
  { unfold string_contains_char.
    rewrite (string_contains_char_loop_run str pattern (proj2 Hfit) Hsize
               (Z.to_nat (len (Str.buf str))) 0%nat) by lia.
    reflexivity. }
  rewrite Hrun.
  destruct (list_find (fun c => c = pattern) (text str)) as [[j x]|] eqn:Hfind.
  - apply list_find_Some in Hfind as (Hj & -> & Hmin).
    split; [|split; [|now eexists]].
    + intros i. split.
      * intros [= <-]. exists j. repeat split; [done|].
        intros n' c Hn' Hc. now apply (Hmin n' c).
      * intros (n & -> & Hn & Hleast). repeat f_equal.
        destruct (Nat.lt_trichotomy n j) as [Hlt|[->|Hgt]]; [|done|].
        -- now destruct (Hmin n pattern Hn Hlt).
        -- now destruct (Hleast j pattern Hgt Hj).
    + split; [discriminate|]. intros Hnot. exfalso. apply Hnot.
      now apply list_elem_of_lookup_2 in Hj.
  - apply list_find_None in Hfind.
    split; [|split; [|now eexists]].
    + intros i. split; [discriminate|].
      intros (n & -> & Hn & _). exfalso.
      rewrite list.Forall_forall in Hfind. apply (Hfind pattern); [|done].
      now apply list_elem_of_lookup_2 in Hn.
    + split; [|done]. intros _ Hin.
      rewrite list.Forall_forall in Hfind. now apply (Hfind pattern).
Qed.
End StringReadFacts.

(** ** Strings: comparing and searching *)

Section StringSearchFacts.
Context `{WordSize}.
Implicit Types (str : string) (s p rest : list Z).

Lemma read_at_terminated s rest (i : nat) (c : Z) :
  s !! i = Some c -> read_at (s ++ 0 :: rest) (Z.of_nat i) = Some c.
Proof. intros Hc. apply read_at_lookup. now apply lookup_app_l_Some. Qed.

Lemma text_length str :
  0 <= len (Str.buf str) <= Z.of_nat (length (buf (Str.buf str))) ->
  length (text str) = Z.to_nat (len (Str.buf str)).
Proof. intros Hfit. unfold text, live. rewrite length_take. lia. Qed.

Lemma text_read str (i : nat) (c : Z) :
  0 <= len (Str.buf str) <= Z.of_nat (length (buf (Str.buf str))) ->
  text str !! i = Some c -> read_at (buf (Str.buf str)) (Z.of_nat i) = Some c.
Proof.
  intros Hfit Hc. apply read_at_lookup.
  pose proof (lookup_lt_Some _ _ _ Hc) as Hi. rewrite text_length in Hi by done.
  unfold text in Hc. rewrite live_lookup in Hc by lia. exact Hc.
Qed.

Lemma string_compare_cstr_loop_run str s rest :
  0 <= len (Str.buf str) <= Z.of_nat (length (buf (Str.buf str))) ->
  length (text str) = length s -> Z.of_nat (length s) < size_modulus ->
  forall (n i : nat) fuel,
    (i + n = length s)%nat -> (n < fuel)%nat ->
    string_compare_cstr_loop fuel str (s ++ 0 :: rest) (Z.of_nat (length s)) (Z.of_nat i)
    = Ret (bool_decide (drop i (text str) = drop i s)).
Proof.
  intros Hfit Hsame Hsize.
  induction n as [|n IH]; intros i fuel Hin Hfuel;
    (destruct fuel as [|fuel]; [lia|]); cbn [string_compare_cstr_loop].
  - destruct (Z.ltb_spec (Z.of_nat i) (Z.of_nat (length s))); [lia|].
    rewrite !drop_ge by lia. reflexivity.
  - destruct (Z.ltb_spec (Z.of_nat i) (Z.of_nat (length s))); [|lia].
    destruct (lookup_lt_is_Some_2 (text str) i) as [a Ha]; [lia|].
    destruct (lookup_lt_is_Some_2 s i) as [b Hb]; [lia|].
    rewrite (text_read str i a Hfit Ha), (read_at_terminated s rest i b Hb).
    rewrite (drop_S _ _ _ Ha), (drop_S _ _ _ Hb).
    destruct (Z.eqb_spec a b) as [->|Hne].
    + rewrite to_size_t_small by lia.
      replace (Z.of_nat i + 1) with (Z.of_nat (S i)) by lia.
      rewrite IH by lia. f_equal.
      destruct (decide (drop (S i) (text str) = drop (S i) s)) as [Heq|Hneq].
      * rewrite !bool_decide_eq_true_2; [done | now rewrite Heq | done].
      * rewrite !bool_decide_eq_false_2; [done | congruence | done].
    + f_equal. symmetry. apply bool_decide_eq_false_2. congruence.
Qed.

Lemma string_compare_cstr_run str s rest :
  0 <= len (Str.buf str) <= Z.of_nat (length (buf (Str.buf str))) ->
  Forall (fun c => c <> 0) s -> Z.of_nat (length s) < size_modulus ->
  string_compare_cstr str (s ++ 0 :: rest) = Ret (bool_decide (text str = s)).
Proof.
  intros Hfit Hnz Hsize. unfold string_compare_cstr.
  rewrite strlen_from_terminated by done.
  pose proof (text_length str Hfit) as Hlen.
  destruct (Z.eqb_spec (len (Str.buf str)) (Z.of_nat (length s))) as [Heq|Hne].
  - rewrite Nat2Z.id.
    rewrite (string_compare_cstr_loop_run str s rest Hfit) with (n := length s) (i := 0%nat);
      [reflexivity | lia | done | lia | lia].
  - f_equal. symmetry. apply bool_decide_eq_false_2. intros Htext.
    rewrite Htext in Hlen. lia.
Qed.

(** X18.  [string_compare_cstr] answers whether the text of the string is
    the text of the null-terminated comparate: [true] exactly when they
    have the same length and the same [char]s. *)
Theorem string_compare_cstr_decides str s rest :
  0 <= len (Str.buf str) <= Z.of_nat (length (buf (Str.buf str))) ->
  Forall (fun c => c <> 0) s -> Z.of_nat (length s) < size_modulus ->
  string_compare_cstr str (s ++ 0 :: rest) = Ret (bool_decide (text str = s)).
Proof.
  intros Hfit Hnz Hsize. now apply string_compare_cstr_run.
Qed.

(** The loop of [string_contains_cstr]: [head] counts the [char]s of the
    pattern matched by the text just before [i]. *)
Lemma string_contains_cstr_loop_sound str p rest :
  0 <= len (Str.buf str) <= Z.of_nat (length (buf (Str.buf str))) ->
  len (Str.buf str) < size_modulus -> Z.of_nat (length p) < size_modulus ->
  forall (n i head : nat) index fuel,
    (i + n = length (text str))%nat -> (n < fuel)%nat ->
    (head <= i)%nat -> (head <= length p)%nat ->
    take head p = take head (drop (i - head) (text str)) ->
    exists r,
      string_contains_cstr_loop fuel str (p ++ 0 :: rest) (Z.of_nat (length p))
        (Z.of_nat head) index (Z.of_nat i) = Ret r /\
      (r.1 = true -> exists l1 l2, text str = l1 ++ p ++ l2).
Proof.
  intros Hfit Hsize Hpsize. pose proof (text_length str Hfit) as Hlen.
  assert (Hfound : forall i head : nat, (head <= i)%nat -> head = length p ->
            take head p = take head (drop (i - head) (text str)) ->
            exists l1 l2, text str = l1 ++ p ++ l2).
  { intros i head Hle -> Hinv. rewrite take_ge in Hinv by lia.
    exists (take (i - length p) (text str)),
           (drop (length p) (drop (i - length p) (text str))).
    rewrite <- (take_drop (i - length p) (text str)) at 1. f_equal.
    rewrite <- (take_drop (length p) (drop (i - length p) (text str))) at 1.
    f_equal. now symmetry. }
  induction n as [|n IH]; intros i head index fuel Hin Hfuel Hle Hhead Hinv;
    (destruct fuel as [|fuel]; [lia|]); cbn [string_contains_cstr_loop].
  - destruct (Z.ltb_spec (Z.of_nat i) (len (Str.buf str))); [lia|].
    destruct (Z.eqb_spec (Z.of_nat head) (Z.of_nat (length p))) as [Heq|Hne].
    + eexists. split; [reflexivity|]. intros _. apply (Hfound i head); [done | lia | done].
    + eexists. split; [reflexivity|]. discriminate.
  - destruct (Z.ltb_spec (Z.of_nat i) (len (Str.buf str))); [|lia].
    destruct (Z.eqb_spec (Z.of_nat head) (Z.of_nat (length p))) as [Heq|Hne].
    { eexists. split; [reflexivity|]. intros _. apply (Hfound i head); [done | lia | done]. }
    destruct (lookup_lt_is_Some_2 (text str) i) as [c Hc]; [lia|].
    destruct (lookup_lt_is_Some_2 p head) as [pc Hpc]; [lia|].
    rewrite (text_read str i c Hfit Hc), (read_at_terminated p rest head pc Hpc).
    rewrite !to_size_t_small by lia.
    replace (Z.of_nat i + 1) with (Z.of_nat (S i)) by lia.
    destruct (Z.eqb_spec c pc) as [->|Hcne].
    + replace (Z.of_nat head + 1) with (Z.of_nat (S head)) by lia.
      apply IH; [lia | lia | lia | lia |].
      rewrite (take_S_r _ _ pc Hpc).
      replace (S i - S head)%nat with (i - head)%nat by lia.
      rewrite (take_S_r _ _ pc); [now rewrite Hinv|].
      rewrite lookup_drop. now replace (i - head + head)%nat with i by lia.
    + apply (IH (S i) 0%nat); [lia | lia | lia | lia | reflexivity].
Qed.

(** X19.  [string_contains_cstr] returns without fault; when it answers
    [true] the pattern does occur in the text; a pattern longer than the
    text is answered [{false, 0}] and the empty pattern [{true, 0}]. *)
Theorem string_contains_cstr_sound str p rest :
  0 <= len (Str.buf str) <= Z.of_nat (length (buf (Str.buf str))) ->
  len (Str.buf str) < size_modulus ->
  Forall (fun c => c <> 0) p -> Z.of_nat (length p) < size_modulus ->
  (exists r, string_contains_cstr str (p ++ 0 :: rest) = Ret r /\
     (r.1 = true -> exists l1 l2, text str = l1 ++ p ++ l2)) /\
  ((length (text str) < length p)%nat ->
   string_contains_cstr str (p ++ 0 :: rest) = Ret (false, 0)) /\
  (p = [] -> string_contains_cstr str (p ++ 0 :: rest) = Ret (true, 0)).
Proof.
  intros Hfit Hsize Hnz Hpsize. pose proof (text_length str Hfit) as Hlen.
  unfold string_contains_cstr. rewrite strlen_from_terminated by done.
  split; [|split].
  - destruct (Z.ltb_spec (len (Str.buf str)) (Z.of_nat (length p))).
    + eexists. split; [reflexivity|]. discriminate.
    + apply (string_contains_cstr_loop_sound str p rest Hfit Hsize Hpsize
               (length (text str)) 0%nat 0%nat 0); [lia | lia | lia | lia | reflexivity].
  - intros Hshort.
    now destruct (Z.ltb_spec (len (Str.buf str)) (Z.of_nat (length p))); [|lia].
  - intros ->. change (Z.of_nat (length [])) with 0.
    destruct (Z.ltb_spec (len (Str.buf str)) 0); [lia|].
    cbn [string_contains_cstr_loop].
    destruct (Z.ltb_spec 0 (len (Str.buf str))); reflexivity.
Qed.
End StringSearchFacts.

(** ** Strings: building *)

Section StringBuildFacts.
Context `{WordSize}.
Implicit Types (d : dyn Z) (str : string) (junk : nat -> Z) (s rest : list Z).

Lemma on_buf_run {A} (c : M (dyn Z) A) d (a : A) d' :
  c d = Ret (a, d') -> on_buf c (Str.mk d) = Ret (a, Str.mk d').
Proof. intros Hc. unfold on_buf. simpl. now rewrite Hc. Qed.

Lemma live_length d :
  0 <= len d <= Z.of_nat (length (buf d)) -> length (live d) = Z.to_nat (len d).
Proof. intros Hfit. unfold live. rewrite length_take. lia. Qed.

Lemma drop_len_run d :
  1 <= len d < size_modulus ->
  on_buf (self <- get_self ;; set_len (to_size_t (len self - 1))) (Str.mk d)
  = Ret (tt, Str.mk (mk_dyn (buf d) (len d - 1) (cap d))).
Proof.
  intros Hlen. unfold on_buf, bind, get_self, set_len, put_self. simpl.
  now rewrite to_size_t_small by lia.
Qed.

(** [string_push_char] appends one [char] and leaves a null byte after
    the text. *)
Lemma string_push_char_run d junk c :
  chars_ok d -> is_char c -> 4 * (len d + 2) < size_modulus ->
  exists d',
    string_push_char junk c (Str.mk d) = Ret (tt, Str.mk d') /\
    live d' = live d ++ [c] /\ len d' = len d + 1 /\ chars_ok d' /\
    buf d' !! Z.to_nat (len d') = Some 0.
Proof.
  intros Hok Hc Hsize. pose proof Hok as (Hlen & Hrange & Hcap & Hchars).
  destruct (dyn_push_char_run d junk c Hok Hc)
    as (d1 & Hrun1 & Hlive1 & Hlen1 & Hcap1 & Hbuf1 & Hroom1 & Hch1).
  assert (Hok1 : chars_ok d1) by (repeat split; [lia | lia | lia | lia | exact Hch1]).
  assert (H0 : is_char 0) by (unfold is_char; lia).
  destruct (dyn_push_char_run d1 junk 0 Hok1 H0)
    as (d2 & Hrun2 & Hlive2 & Hlen2 & Hcap2 & Hbuf2 & Hroom2 & Hch2).
  pose proof (live_length d) as Hll. pose proof (live_length d1) as Hll1.
  exists (mk_dyn (buf d2) (len d2 - 1) (cap d2)).
  assert (Hlive : take (Z.to_nat (len d2 - 1)) (buf d2) = live d ++ [c]).
  { replace (take (Z.to_nat (len d2 - 1)) (buf d2))
      with (take (Z.to_nat (len d2 - 1)) (live d2))
      by (unfold live; rewrite take_take; f_equal; lia).
    rewrite Hlive2, Hlive1. apply take_app_length'.
    rewrite length_app, Hll by lia. simpl. lia. }
  split; [|split; [exact Hlive | split; [simpl; lia | split]]].
  - unfold string_push_char, run in *.
    erewrite bind_run by (apply on_buf_run; exact Hrun1).
    erewrite bind_run by (apply on_buf_run; exact Hrun2).
    apply drop_len_run. lia.
  - repeat split; simpl; try lia.
    rewrite Hlive. apply Forall_app. split; [exact Hchars|].
    constructor; [exact Hc | constructor].
  - simpl.
    assert (Hl : live d2 !! Z.to_nat (len d2 - 1) = Some 0).
    { rewrite Hlive2, lookup_app_r by (rewrite Hll1; lia).
      rewrite Hll1 by lia. now replace (Z.to_nat (len d2 - 1) - Z.to_nat (len d1))%nat
        with 0%nat by lia. }
    unfold live in Hl. now rewrite lookup_take_lt in Hl by lia.
Qed.

Lemma resize_if_full_run d junk :
  chars_ok d -> 4 * (len d + 1) < size_modulus ->
  exists d',
    resize_if_full junk (Str.mk d) = Ret (tt, Str.mk d') /\
    live d' = live d /\ len d' = len d /\ chars_ok d'.
Proof.
  intros Hok Hsize. pose proof Hok as (Hlen & Hrange & Hcap & Hchars).
  unfold resize_if_full, bind, get_self. cbn [Str.buf].
  rewrite to_size_t_small by lia.
  destruct (Z.leb_spec (cap d) (len d + 1)) as [Hfull|Hroom].
  - eexists. split; [apply on_buf_run, char_resize_run; lia|].
    assert (Hlive : take (Z.to_nat (len d))
                      (((fun c => c mod 256) <$> buf d)
                         ++ (junk <$> seq (length (buf d)) (length (buf d))))
                    = take (Z.to_nat (len d)) (buf d)).
    { rewrite take_app_le by (rewrite length_fmap; lia).
      rewrite <- fmap_take. now apply chars_mod. }
    split; [exact Hlive | split; [done|]].
    repeat split; simpl; try lia.
    + rewrite length_app, !length_fmap, length_seq. lia.
    + now rewrite Hlive.
  - exists d. now repeat split.
Qed.

Lemma content_strlen_apart s rest cap0 str :
  Forall (fun c => c <> 0) s ->
  content_strlen (Apart (s ++ 0 :: rest)) cap0 str = Ret (Z.of_nat (length s), str).
Proof.
  intros Hnz. unfold content_strlen, bind, get_self. cbn [pointee].
  now rewrite strlen_from_terminated.
Qed.

Lemma content_at_apart s rest cap0 str (i : nat) c :
  s !! i = Some c ->
  content_at (Apart (s ++ 0 :: rest)) cap0 (Z.of_nat i) str = Ret (c, str).
Proof.
  intros Hc. unfold content_at, bind, get_self. cbn [pointee].
  now rewrite (read_at_terminated s rest i c Hc).
Qed.

Lemma string_push_cstr_loop_run junk s rest cap0 :
  Forall (fun c => c <> 0) s -> Forall is_char s ->
  Z.of_nat (length s) < size_modulus ->
  forall (n i : nat) d fuel,
    (i + n = length s)%nat -> (n < fuel)%nat ->
    chars_ok d -> 4 * (len d + Z.of_nat n + 2) < size_modulus ->
    exists d',
      string_push_cstr_loop fuel junk (Apart (s ++ 0 :: rest)) cap0 (Z.of_nat i) (Str.mk d)
        = Ret (tt, Str.mk d') /\
      live d' = live d ++ drop i s /\ len d' = len d + Z.of_nat n /\ chars_ok d'.
Proof.
  intros Hnz Hchars Hshort.
  induction n as [|n IH]; intros i d fuel Hin Hfuel Hok Hsize;
    (destruct fuel as [|fuel]; [lia|]); cbn [string_push_cstr_loop];
    erewrite bind_run by (apply content_strlen_apart; exact Hnz).
  - destruct (Z.ltb_spec (Z.of_nat i) (Z.of_nat (length s))); [lia|].
    exists d. rewrite drop_ge, app_nil_r by lia.
    repeat split; [lia | apply Hok..].
  - destruct (Z.ltb_spec (Z.of_nat i) (Z.of_nat (length s))); [|lia].
    pose proof Hok as (_ & Hrange & _).
    destruct (resize_if_full_run d junk Hok) as (d1 & Hrun1 & Hlive1 & Hlen1 & Hok1); [lia|].
    destruct (lookup_lt_is_Some_2 s i) as [c Hc]; [lia|].
    erewrite bind_run by exact Hrun1.
    erewrite bind_run by (apply content_at_apart; exact Hc).
    destruct (string_push_char_run d1 junk c Hok1)
      as (d2 & Hrun2 & Hlive2 & Hlen2 & Hok2 & _);
      [exact (Forall_lookup_1 _ _ _ _ Hchars Hc) | lia |].
    erewrite bind_run by exact Hrun2.
    pose proof size_modulus_big.
    rewrite to_size_t_small by lia.
    replace (Z.of_nat i + 1) with (Z.of_nat (S i)) by lia.
    destruct (IH (S i) d2 fuel) as (d' & Hrun & Hlive & Hlen & Hok'); [lia | lia | done | lia |].
    exists d'. split; [exact Hrun|]. split; [|split; [lia | done]].
    rewrite Hlive, Hlive2, Hlive1, (drop_S _ _ _ Hc), <- app_assoc. reflexivity.
Qed.

Lemma string_ok_text str :
  string_ok str -> exists tail, buf (Str.buf str) = text str ++ 0 :: tail.
Proof.
  intros [(Hlen & Hrange & _) Hnull]. unfold text, live.
  exists (drop (S (Z.to_nat (len (Str.buf str)))) (buf (Str.buf str))).
  rewrite <- (drop_S _ _ _ Hnull). now rewrite take_drop.
Qed.

Lemma string_push_cstr_run fuel junk s rest d :
  chars_ok d -> Forall (fun c => c <> 0) s -> Forall is_char s ->
  4 * (len d + Z.of_nat (length s) + 3) < size_modulus ->
  (length s < fuel)%nat ->
  exists d',
    run (string_push_cstr fuel junk (Apart (s ++ 0 :: rest))) (Str.mk d)
    = Ret (tt, Str.mk d') /\
    live d' = live d ++ s /\ len d' = len d + Z.of_nat (length s) /\
    string_ok (Str.mk d').
Proof.
  intros Hok Hnz Hchars Hsize Hfuel.
  pose proof Hok as (_ & Hrange & _).
  destruct (string_push_cstr_loop_run junk s rest (cap d) Hnz Hchars) with
    (n := length s) (i := 0%nat) (d := d) (fuel := fuel)
    as (d1 & Hrun1 & Hlive1 & Hlen1 & Hok1);
    [lia | lia | lia | done | lia |].
  pose proof Hok1 as (_ & Hrange1 & _).
  destruct (resize_if_full_run d1 junk Hok1) as (d2 & Hrun2 & Hlive2 & Hlen2 & Hok2); [lia|].
  assert (H0 : is_char 0) by (unfold is_char; lia).
  destruct (string_push_char_run d2 junk 0 Hok2 H0)
    as (d3 & Hrun3 & Hlive3 & Hlen3 & Hok3 & _); [lia|].
  pose proof Hok3 as (Hbuf3 & Hrange3 & Hcap3 & Hch3).
  exists (mk_dyn (buf d3) (len d3 - 1) (cap d3)).
  assert (Hll2 : length (live d2) = Z.to_nat (len d2)).
  { apply live_length. destruct Hok2 as (? & ? & _). lia. }
  assert (Hlive : take (Z.to_nat (len d3 - 1)) (buf d3) = live d ++ s).
  { replace (take (Z.to_nat (len d3 - 1)) (buf d3))
      with (take (Z.to_nat (len d3 - 1)) (live d3))
      by (unfold live; rewrite take_take; f_equal; lia).
    rewrite Hlive3. rewrite take_app_length' by (rewrite Hll2; lia).
    now rewrite Hlive2, Hlive1, drop_0. }
  split; [|split; [exact Hlive | split; [simpl; lia | split]]].
  - unfold run, string_push_cstr, bind at 1, get_self. cbn [Str.buf].
    erewrite bind_run by exact Hrun1.
    erewrite bind_run by exact Hrun2.
    erewrite bind_run by exact Hrun3.
    apply drop_len_run. lia.
  - repeat split; simpl; try lia.
    rewrite Hlive. rewrite drop_0 in Hlive1. rewrite <- Hlive1, <- Hlive2.
    unfold live at 1 in Hlive3. rewrite Hlive3 in Hch3.
    now apply Forall_app in Hch3 as [Hch3 _].
  - cbn [Str.buf buf len].
    assert (Hl : live d3 !! Z.to_nat (len d3 - 1) = Some 0).
    { rewrite Hlive3, lookup_app_r by (rewrite Hll2; lia).
      rewrite Hll2. now replace (Z.to_nat (len d3 - 1) - Z.to_nat (len d2))%nat
        with 0%nat by lia. }
    unfold live in Hl. now rewrite lookup_take_lt in Hl by lia.
Qed.

(** X20.  [string_push_cstr] appends the text of a null-terminated
    [content] that lies in a block of its own, apart from the block of
    [self]: the text of [self] becomes the old text followed by the pushed
    one, [len] grows by its length, and a null byte follows the new
    text. *)
Theorem string_push_cstr_appends fuel junk s rest str :
  chars_ok (Str.buf str) -> Forall (fun c => c <> 0) s -> Forall is_char s ->
  4 * (len (Str.buf str) + Z.of_nat (length s) + 3) < size_modulus ->
  (length s < fuel)%nat ->
  exists str',
    run (string_push_cstr fuel junk (Apart (s ++ 0 :: rest))) str = Ret (tt, str') /\
    text str' = text str ++ s /\
    len (Str.buf str') = len (Str.buf str) + Z.of_nat (length s) /\
    string_ok str'.
Proof.
  intros Hok Hnz Hchars Hsize Hfuel. destruct str as [d]. cbn [Str.buf] in *.
  destruct (string_push_cstr_run fuel junk s rest d Hok Hnz Hchars Hsize Hfuel)
    as (d' & Hrun & Hlive & Hlen & Hok').
  exists (Str.mk d').
  split; [exact Hrun | split; [exact Hlive | split; [exact Hlen | exact Hok']]].
Qed.

Lemma string_init_ok : chars_ok (Str.buf string_init).
Proof.
  pose proof size_modulus_big. unfold string_init, dyn_init, chars_ok.
  cbn [Str.buf buf len cap]. rewrite length_replicate.
  repeat split; try lia. constructor.
Qed.

(** X21.  [string_from] on a null-terminated string makes a string with
    that text: its block reads as the text followed by a null byte, so
    [strlen] of it is [len], and [string_compare_cstr] against the source
    answers [true]. *)
Theorem string_from_round_trip junk s rest :
  Forall (fun c => c <> 0) s -> Forall is_char s ->
  4 * (Z.of_nat (length s) + 3) < size_modulus ->
  exists str,
    string_from junk (s ++ 0 :: rest) = Ret str /\
    text str = s /\ len (Str.buf str) = Z.of_nat (length s) /\
    (exists tail, buf (Str.buf str) = s ++ 0 :: tail) /\
    strlen_from (buf (Str.buf str)) = Some (len (Str.buf str)) /\
    string_compare_cstr str (s ++ 0 :: rest) = Ret true.
Proof.
  intros Hnz Hchars Hsize.
  destruct (string_push_cstr_run (S (length (s ++ 0 :: rest))) junk s rest
              (Str.buf string_init) string_init_ok Hnz Hchars)
    as (d' & Hrun & Hlive & Hlen & Hok'); [simpl; lia | rewrite length_app; lia |].
  assert (Htext : text (Str.mk d') = s) by (unfold text; cbn [Str.buf]; now rewrite Hlive).
  destruct (string_ok_text (Str.mk d') Hok') as [tail Htail].
  rewrite Htext in Htail. cbn [Str.buf] in Htail.
  exists (Str.mk d'). cbn [Str.buf].
  split; [|split; [done | split; [simpl in Hlen; lia | split; [now exists tail | split]]]].
  - unfold string_from. unfold run in Hrun. change (Str.mk (Str.buf string_init)) with string_init in Hrun.
    now rewrite Hrun.
  - rewrite Htail, strlen_from_terminated by done. simpl in Hlen. f_equal. lia.
  - rewrite string_compare_cstr_run; [|cbn [Str.buf] | done | lia].
    + f_equal. now apply bool_decide_eq_true_2.
    + destruct Hok' as [(Hb & Hr & _) _]. cbn [Str.buf] in *. lia.
Qed.
End StringBuildFacts.

(** ** Strings: whole-string operations *)

Section StringEditFacts.
Context `{WordSize}.
Implicit Types (d : dyn Z) (str content : string) (junk : nat -> Z) (t : list Z).

Lemma terminate_run d :
  0 <= len d < Z.of_nat (length (buf d)) ->
  on_buf (self <- get_self ;; dyn_store (len self) 0) (Str.mk d)
  = Ret (tt, Str.mk (mk_dyn (<[Z.to_nat (len d) := 0]> (buf d)) (len d) (cap d))).
Proof.
  intros Hlen. apply on_buf_run. unfold bind at 1, get_self.
  now apply dyn_store_run.
Qed.

Lemma terminated_ok b n c t :
  Z.of_nat (length b) = c -> 0 <= n < c -> 2 * c < size_modulus ->
  take (Z.to_nat n) b = t -> Forall is_char t ->
  string_ok (Str.mk (mk_dyn (<[Z.to_nat n := 0]> b) n c)) /\
  text (Str.mk (mk_dyn (<[Z.to_nat n := 0]> b) n c)) = t.
Proof.
  intros Hlen Hrange Hcap Htake Hchars.
  assert (Hlive : take (Z.to_nat n) (<[Z.to_nat n := 0]> b) = t)
    by now rewrite take_insert_ge by lia.
  split; [split|exact Hlive]; cbn [Str.buf buf len cap].
  - unfold chars_ok. cbn [buf len cap]. rewrite length_insert, Hlive. now repeat split.
  - apply list_lookup_insert_eq. lia.
Qed.

(** X22.  [string_pop] takes the last [char] off the text and writes the
    null byte behind what is left; on the empty text it reports failure
    and the text stays empty. *)
Theorem string_pop_last str :
  chars_ok (Str.buf str) ->
  (text str = [] ->
   exists str', run string_pop str = Ret (Opt.mk false 0, str') /\
     text str' = [] /\ string_ok str') /\
  (forall t c, text str = t ++ [c] ->
   exists str', run string_pop str = Ret (Opt.mk true c, str') /\
     text str' = t /\ string_ok str').
Proof.
  intros Hok. destruct str as [d]. unfold text. cbn [Str.buf] in *.
  pose proof Hok as (Hlen & Hrange & Hcap & Hchars).
  pose proof (live_length d) as Hll.
  destruct (dyn_pop_cases d) as [Hempty Hlast]; [lia | lia |].
  split.
  - intros Htext. rewrite Htext in Hll. simpl in Hll.
    assert (Hzero : len d = 0) by lia.
    destruct (terminated_ok (buf d) (len d) (cap d) []) as [Hok' Htext'];
      [done | lia | done | now rewrite Hzero | constructor |].
    eexists. split; [|split; [exact Htext' | exact Hok']].
    unfold run, string_pop.
    erewrite bind_run by (apply on_buf_run, Hempty, Hzero).
    erewrite bind_run by (apply terminate_run; lia).
    reflexivity.
  - intros t c Htext. rewrite Htext, length_app in Hll. simpl in Hll.
    assert (Hc : buf d !! Z.to_nat (len d - 1) = Some c).
    { assert (Hl : live d !! length t = Some c)
        by (rewrite Htext; apply list_lookup_middle; done).
      unfold live in Hl. rewrite lookup_take_lt in Hl by lia.
      now replace (Z.to_nat (len d - 1)) with (length t) by lia. }
    destruct (terminated_ok (buf d) (len d - 1) (cap d) t) as [Hok' Htext'];
      [done | lia | done | | |].
    { replace (take (Z.to_nat (len d - 1)) (buf d))
        with (take (Z.to_nat (len d - 1)) (live d))
        by (unfold live; rewrite take_take; f_equal; lia).
      rewrite Htext. apply take_app_length'. lia. }
    { unfold live in Htext. rewrite Htext in Hchars. now apply Forall_app in Hchars as [? _]. }
    eexists. split; [|split; [exact Htext' | exact Hok']].
    unfold run, string_pop.
    erewrite bind_run by (apply on_buf_run, Hlast; [exact Hc | lia]).
    erewrite bind_run by (apply terminate_run; cbn [buf len]; lia).
    reflexivity.
Qed.

(** X23.  [string_clone] returns a null-terminated string with the text
    and the capacity of the original.  When the text fills the block up to
    the terminator ([len + 1 >= cap]) it is the original that is resized:
    its capacity doubles and its text stays, the clone keeps the old
    capacity. *)
Theorem string_clone_copies_text str junk :
  string_ok str ->
  exists new_str self',
    run (string_clone junk) str = Ret (new_str, self') /\
    text new_str = text str /\ string_ok new_str /\
    cap (Str.buf new_str) = cap (Str.buf str) /\
    text self' = text str /\
    cap (Str.buf self')
    = (if cap (Str.buf str) <=? len (Str.buf str) + 1
       then 2 * cap (Str.buf str) else cap (Str.buf str)).
Proof.
  intros [Hok Hnull]. destruct str as [d]. unfold text. cbn [Str.buf] in *.
  pose proof Hok as (Hlen & Hrange & Hcap & Hchars).
  destruct (dyn_clone_char_run d junk) as (c & Hrun & Hlive & Hclen & Hccap & Hcbuf);
    [done | lia | lia | done |].
  destruct (terminated_ok (buf c) (len c) (cap c) (live d)) as [Hok' Htext'];
    [done | lia | lia | exact Hlive | exact Hchars |].
  assert (Hstore : dyn_store (len c) 0 c
                   = Ret (tt, mk_dyn (<[Z.to_nat (len c) := 0]> (buf c)) (len c) (cap c)))
    by (apply dyn_store_run; lia).
  unfold run, string_clone.
  erewrite bind_run by (apply on_buf_run; exact Hrun).
  rewrite to_size_t_small by lia.
  destruct (Z.leb_spec (cap c) (len c + 1)) as [Hfull|Hroom];
    destruct (Z.leb_spec (cap d) (len d + 1)); try lia.
  - erewrite bind_run by (apply on_buf_run, char_resize_run; lia).
    rewrite Hstore. unfold ret.
    do 2 eexists. split; [reflexivity|].
    split; [exact Htext' | split; [exact Hok' | split; [exact Hccap | split; [|reflexivity]]]].
    cbn [Str.buf]. unfold live. cbn [buf len].
    rewrite take_app_le by (rewrite length_fmap; lia).
    rewrite <- fmap_take. now apply chars_mod.
  - unfold bind at 1, ret at 1. rewrite Hstore. unfold ret.
    do 2 eexists. split; [reflexivity|].
    split; [exact Htext' | split; [exact Hok' | split; [exact Hccap | split; reflexivity]]].
Qed.

Lemma string_case_loop_run (convert : Z -> Z) :
  forall (n i : nat) d fuel,
    (i + n)%nat = Z.to_nat (len d) -> (n < fuel)%nat ->
    0 <= len d <= Z.of_nat (length (buf d)) -> len d < size_modulus ->
    exists b',
      string_case_loop fuel convert (Z.of_nat i) (Str.mk d)
      = Ret (tt, Str.mk (mk_dyn b' (len d) (cap d))) /\
      length b' = length (buf d) /\
      forall j, b' !! j
                = if bool_decide (i <= j < i + n)%nat
                  then convert <$> (buf d !! j) else buf d !! j.
Proof.
  induction n as [|n IH]; intros i d fuel Hin Hfuel Hfit Hsize;
    (destruct fuel as [|fuel]; [lia|]); cbn [string_case_loop];
    unfold bind at 1, get_self; cbn [Str.buf].
  - destruct (Z.ltb_spec (Z.of_nat i) (len d)); [lia|].
    exists (buf d). split; [now destruct d|]. split; [done|].
    intros j. rewrite bool_decide_eq_false_2 by lia. done.
  - destruct (Z.ltb_spec (Z.of_nat i) (len d)); [|lia].
    destruct (lookup_lt_is_Some_2 (buf d) i) as [c Hc]; [lia|].
    erewrite bind_run by (apply on_buf_run, dyn_load_run; rewrite Nat2Z.id; exact Hc).
    erewrite bind_run by (apply on_buf_run, dyn_store_run; lia).
    rewrite to_size_t_small by lia. rewrite Nat2Z.id.
    replace (Z.of_nat i + 1) with (Z.of_nat (S i)) by lia.
    destruct (IH (S i) (mk_dyn (<[i := convert c]> (buf d)) (len d) (cap d)) fuel)
      as (b' & Hrun & Hlen' & Hb'); cbn [buf len cap];
      [lia | lia | rewrite length_insert; lia | lia |].
    cbn [buf len cap] in *.
    exists b'. split; [exact Hrun|]. rewrite length_insert in Hlen'. split; [exact Hlen'|].
    intros j. rewrite Hb'. destruct (decide (j = i)) as [->|Hne].
    + rewrite bool_decide_eq_false_2, bool_decide_eq_true_2 by lia.
      rewrite list_lookup_insert_eq by lia. now rewrite Hc.
    + rewrite list_lookup_insert_ne by done.
      destruct (decide (S i <= j < S i + n)%nat).
      * now rewrite !bool_decide_eq_true_2 by lia.
      * now rewrite !bool_decide_eq_false_2 by lia.
Qed.

Lemma string_case_run (convert : Z -> Z) str :
  (forall c, is_char c -> is_char (convert c)) -> string_ok str ->
  exists str',
    string_case_loop (S (Z.to_nat (len (Str.buf str)))) convert 0 str = Ret (tt, str') /\
    text str' = convert <$> text str /\ string_ok str'.
Proof.
  intros Hconv [Hok Hnull]. destruct str as [d]. unfold text. cbn [Str.buf] in *.
  pose proof Hok as (Hlen & Hrange & Hcap & Hchars).
  destruct (string_case_loop_run convert (Z.to_nat (len d)) 0%nat d (S (Z.to_nat (len d))))
    as (b' & Hrun & Hlen' & Hb'); [lia..|].
  assert (Hlive : take (Z.to_nat (len d)) b' = convert <$> live d).
  { apply list_eq. intros j. unfold live. rewrite list_lookup_fmap.
    destruct (decide (j < Z.to_nat (len d))%nat).
    - rewrite !lookup_take_lt by done. rewrite Hb'. now rewrite bool_decide_eq_true_2 by lia.
    - rewrite !lookup_take_ge by lia. done. }
  exists (Str.mk (mk_dyn b' (len d) (cap d))).
  split; [exact Hrun | split; [exact Hlive | split]]; cbn [Str.buf buf len cap].
  - unfold chars_ok. cbn [buf len cap]. rewrite Hlive.
    split; [lia | split; [done | split; [done|]]].
    apply Forall_fmap. eapply list.Forall_impl; [exact Hchars|]. exact Hconv.
  - rewrite Hb', bool_decide_eq_false_2 by lia. exact Hnull.
Qed.

Lemma tolower_char c : is_char c -> is_char (tolower c).
Proof.
  unfold is_char, tolower. intros Hc.
  destruct (Z.leb_spec 65 c), (Z.leb_spec c 90); simpl; lia.
Qed.

Lemma toupper_char c : is_char c -> is_char (toupper c).
Proof.
  unfold is_char, toupper. intros Hc.
  destruct (Z.leb_spec 97 c), (Z.leb_spec c 122); simpl; lia.
Qed.

Lemma string_case_fixed (convert : Z -> Z) str :
  string_ok str -> Forall (fun c => convert c = c) (text str) ->
  string_case_loop (S (Z.to_nat (len (Str.buf str)))) convert 0 str = Ret (tt, str).
Proof.
  intros [Hok Hnull] Hfixed. destruct str as [d]. unfold text in Hfixed. cbn [Str.buf] in *.
  pose proof Hok as (Hlen & Hrange & Hcap & Hchars).
  destruct (string_case_loop_run convert (Z.to_nat (len d)) 0%nat d (S (Z.to_nat (len d))))
    as (b' & Hrun & Hlen' & Hb'); [lia..|].
  change (Z.of_nat 0) with 0 in Hrun. rewrite Hrun.
  replace b' with (buf d); [now destruct d|].
  apply list_eq. intros j. rewrite Hb'. case_bool_decide as Hj; [|done].
  destruct (lookup_lt_is_Some_2 (buf d) j) as [c Hc]; [lia|].
  rewrite Hc. simpl. f_equal. symmetry.
  apply (Forall_lookup_1 _ _ j c Hfixed). unfold live. now rewrite lookup_take_lt by lia.
Qed.

Lemma tolower_idem c : tolower (tolower c) = tolower c.
Proof.
  unfold tolower. destruct (Z.leb_spec 65 c), (Z.leb_spec c 90); simpl;
    destruct (Z.leb_spec 65 (c + 32)), (Z.leb_spec (c + 32) 90); simpl; try lia;
    destruct (Z.leb_spec 65 c), (Z.leb_spec c 90); simpl; lia.
Qed.

Lemma toupper_idem c : toupper (toupper c) = toupper c.
Proof.
  unfold toupper. destruct (Z.leb_spec 97 c), (Z.leb_spec c 122); simpl;
    destruct (Z.leb_spec 97 (c - 32)), (Z.leb_spec (c - 32) 122); simpl; try lia;
    destruct (Z.leb_spec 97 c), (Z.leb_spec c 122); simpl; lia.
Qed.

(** X24.  [string_lower] and [string_upper] convert every [char] of the
    text in place with [tolower] and [toupper]; the length and the null
    byte behind the text stay, and a second pass changes nothing. *)
Theorem string_lower_upper_convert str :
  string_ok str ->
  exists lo up,
    run string_lower str = Ret (tt, lo) /\
    text lo = tolower <$> text str /\ string_ok lo /\
    run string_lower lo = Ret (tt, lo) /\
    run string_upper str = Ret (tt, up) /\
    text up = toupper <$> text str /\ string_ok up /\
    run string_upper up = Ret (tt, up).
Proof.
  intros Hok.
  destruct (string_case_run tolower str tolower_char Hok) as (lo & Hlo & Htlo & Hoklo).
  destruct (string_case_run toupper str toupper_char Hok) as (up & Hup & Htup & Hokup).
  exists lo, up.
  split; [exact Hlo|]. split; [exact Htlo|]. split; [exact Hoklo|].
  split; [|split; [exact Hup|]; split; [exact Htup|]; split; [exact Hokup|]].
  - apply string_case_fixed; [exact Hoklo|]. rewrite Htlo.
    apply Forall_fmap, Forall_true. intros c. apply tolower_idem.
  - apply string_case_fixed; [exact Hokup|]. rewrite Htup.
    apply Forall_fmap, Forall_true. intros c. apply toupper_idem.
Qed.

(** Pushing the [char]s of [self]'s own block: each push lengthens what
    the loop reads, so the loop goes on until a push reallocates the
    block, and the next read goes through the stale pointer. *)

Lemma bind_crash {St A B} (c : M St A) (k : A -> M St B) (s : St) :
  c s = Crash -> bind c k s = Crash.
Proof. intros Hc. unfold bind. now rewrite Hc. Qed.

Lemma content_strlen_self d :
  string_ok (Str.mk d) -> Forall (fun c => c <> 0) (live d) ->
  content_strlen (Within 0) (cap d) (Str.mk d) = Ret (len d, Str.mk d).
Proof.
  intros Hok Hnz. destruct (string_ok_text _ Hok) as [tail Htail].
  pose proof Hok as [(Hlen & Hrange & _) _]. cbn [Str.buf] in *.
  unfold content_strlen, bind, get_self, pointee. cbn [Str.buf].
  rewrite Z.eqb_refl. cbn [andb Z.leb Z.compare]. change (Z.to_nat 0) with 0%nat.
  rewrite drop_0, Htail. unfold text. cbn [Str.buf].
  rewrite strlen_from_terminated by exact Hnz.
  rewrite live_length by lia. unfold ret. do 2 f_equal. lia.
Qed.

Lemma content_at_self d (i : nat) c :
  0 <= len d <= Z.of_nat (length (buf d)) -> live d !! i = Some c ->
  content_at (Within 0) (cap d) (Z.of_nat i) (Str.mk d) = Ret (c, Str.mk d).
Proof.
  intros Hfit Hc.
  unfold content_at, bind, get_self, pointee. cbn [Str.buf].
  rewrite Z.eqb_refl. cbn [andb Z.leb Z.compare]. change (Z.to_nat 0) with 0%nat.
  rewrite drop_0. pose proof (text_read (Str.mk d) i c Hfit Hc) as Hr.
  cbn [Str.buf] in Hr. now rewrite Hr.
Qed.

Lemma content_strlen_stale d cap0 offset :
  cap d <> cap0 -> content_strlen (Within offset) cap0 (Str.mk d) = Crash.
Proof.
  intros Hne. unfold content_strlen, bind, get_self, pointee. cbn [Str.buf].
  now destruct (Z.eqb_spec (cap d) cap0).
Qed.

Lemma content_at_stale d cap0 offset i :
  cap d <> cap0 -> content_at (Within offset) cap0 i (Str.mk d) = Crash.
Proof.
  intros Hne. unfold content_at, bind, get_self, pointee. cbn [Str.buf].
  now destruct (Z.eqb_spec (cap d) cap0).
Qed.

Lemma resize_if_full_full d junk :
  Z.of_nat (length (buf d)) = cap d -> 0 <= len d -> 0 <= 2 * cap d < size_modulus ->
  cap d <= len d + 1 -> len d + 1 < size_modulus ->
  resize_if_full junk (Str.mk d)
  = Ret (tt, Str.mk (mk_dyn (((fun c => c mod 256) <$> buf d)
                               ++ (junk <$> seq (length (buf d)) (length (buf d))))
                            (len d) (2 * cap d))).
Proof.
  intros Hlen Hpos Hcap Hfull Hsize. unfold resize_if_full, bind, get_self. cbn [Str.buf].
  rewrite to_size_t_small by lia.
  destruct (Z.leb_spec (cap d) (len d + 1)); [|lia].
  apply on_buf_run, char_resize_run; lia.
Qed.

Lemma resize_if_full_room d junk :
  0 <= len d -> len d + 1 < cap d -> cap d < size_modulus ->
  resize_if_full junk (Str.mk d) = Ret (tt, Str.mk d).
Proof.
  intros Hpos Hroom Hsize. unfold resize_if_full, bind, get_self. cbn [Str.buf].
  rewrite to_size_t_small by lia.
  now destruct (Z.leb_spec (cap d) (len d + 1)); [lia|].
Qed.

Lemma push_self_loop junk cap0 :
  4 * (cap0 + 2) < size_modulus ->
  forall (n fuel i : nat) d,
    string_ok (Str.mk d) -> Forall (fun c => c <> 0) (live d) ->
    cap d = cap0 -> Z.of_nat i < len d -> cap0 - len d <= Z.of_nat n ->
    (string_push_cstr_loop fuel junk (Within 0) cap0 (Z.of_nat i) (Str.mk d) = Crash \/
     string_push_cstr_loop fuel junk (Within 0) cap0 (Z.of_nat i) (Str.mk d) = OutOfFuel) /\
    ((n < fuel)%nat ->
     string_push_cstr_loop fuel junk (Within 0) cap0 (Z.of_nat i) (Str.mk d) = Crash).
Proof.
  intros Hsize.
  induction n as [|n IH]; intros fuel i d Hok Hnz Hcap Hi Hn;
    pose proof Hok as [(Hlen & Hrange & Hcap2 & Hchars) Hnull]; cbn [Str.buf] in *;
    [lia|].
  destruct fuel as [|fuel]; [split; [now right | lia]|].
  cbn [string_push_cstr_loop]. subst cap0.
  erewrite bind_run by (apply content_strlen_self; done).
  destruct (Z.ltb_spec (Z.of_nat i) (len d)); [|lia].
  destruct (lookup_lt_is_Some_2 (live d) i) as [c Hc];
    [rewrite live_length by lia; lia|].
  destruct (Z.le_gt_cases (cap d) (len d + 1)) as [Hfull|Hroom].
  - erewrite bind_run by (apply resize_if_full_full; lia).
    rewrite bind_crash by (apply content_at_stale; cbn [cap]; lia).
    split; [now left | done].
  - erewrite bind_run by (apply resize_if_full_room; lia).
    erewrite bind_run by (apply content_at_self; [lia | exact Hc]).
    destruct (string_push_char_run d junk c)
      as (d2 & Hrun2 & Hlive2 & Hlen2 & Hok2 & Hnull2);
      [done | exact (Forall_lookup_1 _ _ _ _ Hchars Hc) | lia |].
    erewrite bind_run by exact Hrun2.
    rewrite to_size_t_small by lia.
    replace (Z.of_nat i + 1) with (Z.of_nat (S i)) by lia.
    destruct (decide (cap d2 = cap d)) as [Hsame|Hmoved].
    + destruct (IH fuel (S i) d2) as [Hnot Hcrash];
        [now split | | exact Hsame | lia | lia |].
      { rewrite Hlive2. apply Forall_app. split; [exact Hnz|].
        constructor; [exact (Forall_lookup_1 _ _ _ _ Hnz Hc) | constructor]. }
      split; [exact Hnot|]. intros Hfuel. apply Hcrash. lia.
    + destruct fuel as [|fuel]; [split; [now right | lia]|].
      cbn [string_push_cstr_loop].
      rewrite bind_crash by (now apply content_strlen_stale).
      split; [now left | done].
Qed.

Lemma string_push_cstr_self fuel junk d :
  string_ok (Str.mk d) -> live d <> [] -> Forall (fun c => c <> 0) (live d) ->
  4 * (cap d + 2) < size_modulus ->
  (forall r, run (string_push_cstr fuel junk (Within 0)) (Str.mk d) <> Ret r) /\
  (cap d <= Z.of_nat fuel -> run (string_push_cstr fuel junk (Within 0)) (Str.mk d) = Crash).
Proof.
  intros Hok Hne Hnz Hsize.
  pose proof Hok as [(Hlen & Hrange & _) _]. cbn [Str.buf] in *.
  assert (Hpos : 1 <= len d).
  { pose proof (live_length d) as Hll. destruct (live d); [done|]. simpl in Hll. lia. }
  destruct (push_self_loop junk (cap d) Hsize (Z.to_nat (cap d - len d)) fuel 0%nat d)
    as [Hnot Hcrash]; [done | done | done | lia | lia |].
  change (Z.of_nat 0) with 0 in *.
  unfold run, string_push_cstr.
  rewrite (bind_run get_self _ (Str.mk d) (Str.mk d) (Str.mk d) eq_refl).
  cbn [Str.buf]. split.
  - intros r Hr. apply bind_returns in Hr as (a & s' & Hloop & _).
    destruct Hnot as [Hnot|Hnot]; rewrite Hnot in Hloop; discriminate.
  - intros Hfuel. apply bind_crash, Hcrash. lia.
Qed.

(** X25.  [string_push_string] with the copy of another string, in good
    shape and with no null byte in its text, appends that text to the
    text of [self].  With the copy of [*self], whose block is the one the
    pushes write, the call does not return when the text is not empty:
    the loop reads a string that grows with every push, until a push
    reallocates the block and the next read goes through the old
    pointer. *)
Theorem string_push_string_other_or_self fuel junk str :
  chars_ok (Str.buf str) ->
  (forall content,
     string_ok content -> Forall (fun c => c <> 0) (text content) ->
     4 * (len (Str.buf str) + len (Str.buf content) + 3) < size_modulus ->
     len (Str.buf content) < Z.of_nat fuel ->
     exists str',
       run (string_push_string fuel junk (OfOther content)) str = Ret (tt, str') /\
       text str' = text str ++ text content /\
       len (Str.buf str') = len (Str.buf str) + len (Str.buf content) /\
       string_ok str') /\
  (string_ok str -> text str <> [] -> Forall (fun c => c <> 0) (text str) ->
   4 * (cap (Str.buf str) + 2) < size_modulus ->
   (forall r, run (string_push_string fuel junk OfSelf) str <> Ret r) /\
   (cap (Str.buf str) <= Z.of_nat fuel ->
    run (string_push_string fuel junk OfSelf) str = Crash)).
Proof.
  intros Hok. split.
  - intros content Hcontent Hnz Hsize Hfuel.
    destruct (string_ok_text content Hcontent) as [tail Htail].
    pose proof Hcontent as [(Hlen & Hrange & _ & Hchars) _].
    assert (Hll : Z.of_nat (length (text content)) = len (Str.buf content))
      by (unfold text; rewrite live_length; lia).
    destruct str as [d]. cbn [Str.buf] in *.
    destruct (string_push_cstr_run fuel junk (text content) tail d Hok Hnz Hchars)
      as (d' & Hrun & Hlive & Hlen' & Hok'); [lia | lia |].
    exists (Str.mk d'). unfold string_push_string, chars_of. rewrite Htail.
    split; [exact Hrun | split; [exact Hlive | split; [cbn [Str.buf]; lia | exact Hok']]].
  - intros Hstr Hne Hnz Hsize. destruct str as [d].
    unfold string_push_string, chars_of.
    exact (string_push_cstr_self fuel junk d Hstr Hne Hnz Hsize).
Qed.

(** X26.  [string_compare_string] decides equality of the two texts when
    the second string is in good shape and its text holds no null byte. *)
Theorem string_compare_string_decides str comparate :
  0 <= len (Str.buf str) <= Z.of_nat (length (buf (Str.buf str))) ->
  string_ok comparate -> Forall (fun c => c <> 0) (text comparate) ->
  string_compare_string str comparate = Ret (bool_decide (text str = text comparate)).
Proof.
  intros Hfit Hcomparate Hnz.
  destruct (string_ok_text comparate Hcomparate) as [tail Htail].
  pose proof Hcomparate as [(Hlen & Hrange & Hcap & _) _].
  unfold string_compare_string. rewrite Htail.
  apply string_compare_cstr_run; [exact Hfit | exact Hnz |].
  unfold text. rewrite live_length by lia. lia.
Qed.

(** X27.  [string_clear] sets [len] to 0 and leaves the block as it is:
    the text is empty afterwards, but the old [char]s are still in the
    block, so it still reads as the old text up to the null byte. *)
Theorem string_clear_keeps_block str :
  string_ok str -> Forall (fun c => c <> 0) (text str) ->
  exists str',
    run string_clear str = Ret (tt, str') /\
    text str' = [] /\ len (Str.buf str') = 0 /\
    buf (Str.buf str') = buf (Str.buf str) /\
    strlen_from (buf (Str.buf str')) = Some (len (Str.buf str)).
Proof.
  intros Hok Hnz. destruct (string_ok_text str Hok) as [tail Htail].
  pose proof Hok as [(Hlen & Hrange & _) _].
  destruct str as [d]. cbn [Str.buf] in *.
  exists (Str.mk (mk_dyn (buf d) 0 (cap d))). cbn [Str.buf buf len].
  split; [reflexivity | split; [reflexivity | split; [reflexivity | split; [reflexivity|]]]].
  rewrite Htail, strlen_from_terminated by exact Hnz.
  unfold text. cbn [Str.buf]. rewrite live_length by lia. f_equal. lia.
Qed.
End StringEditFacts.

(** ** Instances of the theorems on built tables, arrays and strings *)

Lemma three_keys_built : built (H := word64) num_hash num_equal (numbered 3) three_keys.
Proof. split; [|split]; vm_compute; reflexivity. Qed.

Lemma numbered_3_elem : (1, 1001) ∈ numbered 3.
Proof. apply list_elem_of_In. vm_compute. tauto. Qed.

Lemma chars_hi_ok : chars_ok (H := word64) chars_hi.
Proof.
  split; [reflexivity | split; [split; [discriminate | reflexivity] | split; [reflexivity|]]].
  repeat constructor; discriminate.
Qed.

Lemma string_hi_ok : string_ok (H := word64) (Str.mk chars_hi).
Proof. split; [exact chars_hi_ok | reflexivity]. Qed.

Lemma hi_no_null : Forall (fun c => c <> 0) [104; 105].
Proof. repeat constructor; discriminate. Qed.

Lemma hi_chars : Forall is_char [104; 105].
Proof. repeat constructor; discriminate. Qed.

Lemma map_absent_key_not_found_witness :
  run (map_get (H := word64) 50) three_keys = Ret (Opt.mk false zeroed, three_keys) /\
  run (map_update (H := word64) 100 50 0) three_keys = Ret (false, three_keys) /\
  run (map_remove (H := word64) 100 50) three_keys = Ret (false, three_keys).
Proof.
  apply (@map_absent_key_not_found word64 Z Z _ _ num_hash num_equal (numbered 3)
           three_keys 50 0 100).
  - reflexivity.
  - exact three_keys_built.
  - reflexivity.
  - lia.
Defined.

Lemma map_insert_present_key_refused_witness :
  run (map_insert (H := word64) 100 1 5) three_keys = Ret (false, three_keys) /\
  run (map_get (H := word64) 1) three_keys
  = Ret (Opt.mk true (mk_entry 1 1001 true), three_keys).
Proof.
  apply (@map_insert_present_key_refused word64 Z Z _ _ num_hash num_equal (numbered 3)
           three_keys 1 1001 5 100).
  - reflexivity.
  - exact three_keys_built.
  - exact numbered_3_elem.
  - lia.
Defined.

Lemma map_update_present_key_witness :
  exists m', run (map_update (H := word64) 100 1 5) three_keys = Ret (true, m') /\
    active_count m' = 3 /\
    run (map_get (H := word64) 1) m' = Ret (Opt.mk true (mk_entry 1 5 true), m') /\
    forall k2 v2, (k2, v2) ∈ numbered 3 -> k2 <> 1 ->
      run (map_get (H := word64) k2) m' = Ret (Opt.mk true (mk_entry k2 v2 true), m').
Proof.
  apply (@map_update_present_key word64 Z Z _ _ num_hash num_equal (numbered 3)
           three_keys 1 1001 5 100).
  - discriminate.
  - exact three_keys_built.
  - exact numbered_3_elem.
  - lia.
Defined.

Lemma map_remove_present_key_witness :
  exists m', run (map_remove (H := word64) 100 1) three_keys = Ret (true, m') /\
    active_count m' = 3 - 1 /\
    count_ok m' /\
    run (map_get (H := word64) 1) m' = Ret (Opt.mk false zeroed, m').
Proof.
  apply (@map_remove_present_key word64 Z Z _ _ num_hash num_equal (numbered 3)
           three_keys 1 1001 100).
  - discriminate.
  - exact three_keys_built.
  - exact numbered_3_elem.
  - lia.
Defined.

Lemma map_remove_then_insert_is_update_witness :
  exists m', run (map_update (H := word64) 100 1 5) three_keys = Ret (true, m') /\
    run (b <- map_remove (H := word64) 100 1 ;; map_insert (H := word64) 100 1 5) three_keys
    = Ret (true, m').
Proof.
  apply (@map_remove_then_insert_is_update word64 Z Z _ _ num_hash num_equal (numbered 3)
           three_keys 1 1001 5 100).
  - discriminate.
  - exact three_keys_built.
  - exact numbered_3_elem.
  - lia.
Defined.

Lemma map_operations_keep_count_witness :
  (forall b m', run (map_insert (H := word64) 100 1 5) three_keys = Ret (b, m') ->
     count_ok m' /\ 0 <= active_count m' <= Z.of_nat (length (buf (entries m')))) /\
  (forall b m', run (map_update (H := word64) 100 1 5) three_keys = Ret (b, m') ->
     count_ok m' /\ 0 <= active_count m' <= Z.of_nat (length (buf (entries m')))) /\
  (forall b m', run (map_remove (H := word64) 100 1) three_keys = Ret (b, m') ->
     count_ok m' /\ 0 <= active_count m' <= Z.of_nat (length (buf (entries m')))).
Proof.
  apply (@map_operations_keep_count word64 Z Z _ _ 100 three_keys 1 5).
  - reflexivity.
  - reflexivity.
  - reflexivity.
Defined.

Lemma map_iter_visits_inserted_witness :
  exists seen,
    run (map_iter (H := word64) three_keys note_entry) [] = Ret (tt, seen) /\
    length seen = 3%nat /\
    (forall i x, (i, x) ∈ seen ->
       slot three_keys i = Some x /\ active x = true /\ key x ∈ (numbered 3).*1) /\
    (forall k v, (k, v) ∈ numbered 3 -> exists i, (i, mk_entry k v true) ∈ seen).
Proof.
  apply (@map_iter_visits_inserted word64 Z Z _ _ num_hash num_equal (numbered 3) three_keys).
  - discriminate.
  - exact three_keys_built.
Defined.

Lemma dyn_replace_then_at_witness :
  (4 <= 1 ->
   run (dyn_replace 1 99) four_ints
   = Ret (Res.mk ERR_INDEX_OUT_OF_BOUNDS zeroed, four_ints)) /\
  (1 < 4 ->
   exists self',
     run (dyn_replace 1 99) four_ints = Ret (Res.mk ERR_NONE zeroed, self') /\
     len self' = 4 /\ cap self' = 8 /\
     run (dyn_at 1) self' = Ret (Opt.mk true 99, self') /\
     forall j o, 0 <= j -> j <> 1 ->
       run (dyn_at j) four_ints = Ret (o, four_ints) ->
       run (dyn_at j) self' = Ret (o, self')).
Proof.
  apply (@dyn_replace_then_at Z _ four_ints 1 99).
  - discriminate.
  - discriminate.
Defined.

Lemma dyn_pop_last_witness :
  (4 = 0 -> run (dyn_pop (H := word64)) four_ints = Ret (Opt.mk false zeroed, four_ints)) /\
  (forall x, buf four_ints !! Z.to_nat (4 - 1) = Some x -> 1 <= 4 ->
     run (dyn_pop (H := word64)) four_ints
     = Ret (Opt.mk true x, mk_dyn (buf four_ints) (4 - 1) 8)).
Proof.
  apply (@dyn_pop_last word64 Z _ four_ints).
  - split; [discriminate | reflexivity].
  - discriminate.
Defined.

Lemma dyn_remove_last_is_pop_witness :
  run (dyn_remove (H := word64) (4 - 1)) four_ints = run (dyn_pop (H := word64)) four_ints /\
  exists x, run (dyn_pop (H := word64)) four_ints
            = Ret (Opt.mk true x, mk_dyn (buf four_ints) (4 - 1) 8).
Proof.
  apply (@dyn_remove_last_is_pop word64 Z _ four_ints).
  - split; [discriminate | reflexivity].
  - discriminate.
Defined.

Lemma dyn_clear_empties_witness :
  exists self',
    run dyn_clear four_ints = Ret (tt, self') /\
    len self' = 0 /\ buf self' = buf four_ints /\ cap self' = cap four_ints /\
    run (dyn_at 2) self' = Ret (Opt.mk false zeroed, self') /\
    run (dyn_pop (H := word64)) self' = Ret (Opt.mk false zeroed, self').
Proof.
  apply (@dyn_clear_empties word64 Z _ four_ints 2). discriminate.
Defined.

Lemma dyn_push_char_appends_witness :
  exists d',
    run (dyn_push (H := word64) (H0 := char_ctype) (fun _ => 0) 33) chars_hi = Ret (tt, d') /\
    live d' = live chars_hi ++ [33] /\
    len d' = len chars_hi + 1 /\
    (cap d' = cap chars_hi \/ (cap chars_hi <= len chars_hi + 1 /\ cap d' = 2 * cap chars_hi)) /\
    Z.of_nat (length (buf d')) = cap d' /\
    len d' < cap d' /\
    Forall is_char (live d').
Proof.
  apply (@dyn_push_char_appends word64 chars_hi (fun _ => 0) 33).
  - exact chars_hi_ok.
  - split; [discriminate | reflexivity].
Defined.

Lemma dyn_push_pop_lifo_witness :
  exists d1 d2,
    run (dyn_pushes (H := word64) (H0 := char_ctype) (fun _ => 0) [33; 63]) chars_hi
    = Ret (tt, d1) /\
    live d1 = live chars_hi ++ [33; 63] /\
    run (dyn_pops (H := word64) 2) d1 = Ret (Opt.mk true <$> rev [33; 63], d2) /\
    live d2 = live chars_hi /\ len d2 = len chars_hi.
Proof.
  apply (@dyn_push_pop_lifo word64 chars_hi (fun _ => 0) [33; 63]).
  - exact chars_hi_ok.
  - repeat constructor; discriminate.
  - reflexivity.
Defined.

Lemma int_to_bytes_length (x : Z) : length (int_to_bytes x) = 4%nat.
Proof. reflexivity. Qed.

Lemma dyn_push_wide_element_overruns_witness :
  run (dyn_push (H := word64) (H0 := int_ctype) (fun _ => 0) 5) ints_31 = Crash.
Proof.
  apply (@dyn_push_wide_element_overruns word64 Z int_ctype ints_31 (fun _ => 0) 5).
  - exact int_to_bytes_length.
  - discriminate.
  - reflexivity.
  - discriminate.
  - reflexivity.
  - reflexivity.
Defined.

Lemma dyn_clone_char_copies_live_elements_witness :
  exists c,
    run (dyn_clone (H := word64) (H0 := char_ctype) (fun _ => 7)) chars_hi
    = Ret (c, chars_hi) /\
    live c = live chars_hi /\ len c = len chars_hi /\ cap c = cap chars_hi /\
    Z.of_nat (length (buf c)) = cap c.
Proof.
  apply (@dyn_clone_char_copies_live_elements word64 chars_hi (fun _ => 7)).
  - reflexivity.
  - split; discriminate.
  - reflexivity.
  - exact hi_chars.
Defined.

Lemma str_equal_agrees_with_hash_witness :
  str_equal ([104; 105] ++ 0 :: []) ([104; 105] ++ 0 :: [7])
  = Ret (bool_decide ([104; 105] = [104; 105])) /\
  (str_equal ([104; 105] ++ 0 :: []) ([104; 105] ++ 0 :: [7]) = Ret true ->
   exists hv,
     run (hash_djb2 (H := word64)) ([104; 105] ++ 0 :: [])
     = Ret (hv, [104; 105] ++ 0 :: []) /\
     run (hash_djb2 (H := word64)) ([104; 105] ++ 0 :: [7])
     = Ret (hv, [104; 105] ++ 0 :: [7])).
Proof.
  apply (@str_equal_agrees_with_hash word64 [104; 105] [104; 105] [] [7]).
  - exact hi_no_null.
  - exact hi_no_null.
  - reflexivity.
  - reflexivity.
Defined.

Lemma string_contains_char_first_witness :
  (forall i, string_contains_char (H := word64) (Str.mk chars_hi) 105 = Ret (true, i) <->
     exists n : nat, i = Z.of_nat n /\ text (Str.mk chars_hi) !! n = Some 105 /\
       forall n' c, (n' < n)%nat -> text (Str.mk chars_hi) !! n' = Some c -> c <> 105) /\
  (string_contains_char (H := word64) (Str.mk chars_hi) 105 = Ret (false, 0)
   <-> 105 ∉ text (Str.mk chars_hi)) /\
  exists r, string_contains_char (H := word64) (Str.mk chars_hi) 105 = Ret r.
Proof.
  apply (@string_contains_char_first word64 (Str.mk chars_hi) 105).
  - split; discriminate.
  - reflexivity.
Defined.

Lemma string_compare_cstr_decides_witness :
  string_compare_cstr (H := word64) (Str.mk chars_hi) ([104; 105] ++ 0 :: [])
  = Ret (bool_decide (text (Str.mk chars_hi) = [104; 105])).
Proof.
  apply (@string_compare_cstr_decides word64 (Str.mk chars_hi) [104; 105] []).
  - split; discriminate.
  - exact hi_no_null.
  - reflexivity.
Defined.

Lemma string_contains_cstr_sound_witness :
  (exists r, string_contains_cstr (H := word64) (Str.mk chars_hi) ([105] ++ 0 :: []) = Ret r /\
     (r.1 = true -> exists l1 l2, text (Str.mk chars_hi) = l1 ++ [105] ++ l2)) /\
  ((length (text (Str.mk chars_hi)) < length [105])%nat ->
   string_contains_cstr (H := word64) (Str.mk chars_hi) ([105] ++ 0 :: []) = Ret (false, 0)) /\
  ([105] = [] ->
   string_contains_cstr (H := word64) (Str.mk chars_hi) ([105] ++ 0 :: []) = Ret (true, 0)).
Proof.
  apply (@string_contains_cstr_sound word64 (Str.mk chars_hi) [105] []).
  - split; discriminate.
  - reflexivity.
  - repeat constructor; discriminate.
  - reflexivity.
Defined.

Lemma string_push_cstr_appends_witness :
  exists str',
    run (string_push_cstr (H := word64) 10 (fun _ => 0) (Apart ([33; 63] ++ 0 :: [])))
      (Str.mk chars_hi)
    = Ret (tt, str') /\
    text str' = text (Str.mk chars_hi) ++ [33; 63] /\
    len (Str.buf str') = len chars_hi + Z.of_nat (length [33; 63]) /\
    string_ok (H := word64) str'.
Proof.
  apply (@string_push_cstr_appends word64 10 (fun _ => 0) [33; 63] [] (Str.mk chars_hi)).
  - exact chars_hi_ok.
  - repeat constructor; discriminate.
  - repeat constructor; discriminate.
  - reflexivity.
  - simpl. lia.
Defined.

Lemma string_from_round_trip_witness :
  exists str,
    string_from (H := word64) (fun _ => 7) ([104; 105] ++ 0 :: []) = Ret str /\
    text str = [104; 105] /\ len (Str.buf str) = Z.of_nat (length [104; 105]) /\
    (exists tail, buf (Str.buf str) = [104; 105] ++ 0 :: tail) /\
    strlen_from (buf (Str.buf str)) = Some (len (Str.buf str)) /\
    string_compare_cstr (H := word64) str ([104; 105] ++ 0 :: []) = Ret true.
Proof.
  apply (@string_from_round_trip word64 (fun _ => 7) [104; 105] []).
  - exact hi_no_null.
  - exact hi_chars.
  - reflexivity.
Defined.

Lemma string_pop_last_witness :
  (text (Str.mk chars_hi) = [] ->
   exists str', run (string_pop (H := word64)) (Str.mk chars_hi) = Ret (Opt.mk false 0, str') /\
     text str' = [] /\ string_ok (H := word64) str') /\
  (forall t c, text (Str.mk chars_hi) = t ++ [c] ->
   exists str', run (string_pop (H := word64)) (Str.mk chars_hi) = Ret (Opt.mk true c, str') /\
     text str' = t /\ string_ok (H := word64) str').
Proof.
  apply (@string_pop_last word64 (Str.mk chars_hi)). exact chars_hi_ok.
Defined.

Lemma string_clone_copies_text_witness :
  exists new_str self',
    run (string_clone (H := word64) (fun _ => 7)) (Str.mk chars_hi) = Ret (new_str, self') /\
    text new_str = text (Str.mk chars_hi) /\ string_ok (H := word64) new_str /\
    cap (Str.buf new_str) = cap chars_hi /\
    text self' = text (Str.mk chars_hi) /\
    cap (Str.buf self')
    = (if cap chars_hi <=? len chars_hi + 1 then 2 * cap chars_hi else cap chars_hi).
Proof.
  apply (@string_clone_copies_text word64 (Str.mk chars_hi) (fun _ => 7)).
  exact string_hi_ok.
Defined.

Lemma string_lower_upper_convert_witness :
  exists lo up,
    run (string_lower (H := word64)) (Str.mk chars_hi) = Ret (tt, lo) /\
    text lo = tolower <$> text (Str.mk chars_hi) /\ string_ok (H := word64) lo /\
    run (string_lower (H := word64)) lo = Ret (tt, lo) /\
    run (string_upper (H := word64)) (Str.mk chars_hi) = Ret (tt, up) /\
    text up = toupper <$> text (Str.mk chars_hi) /\ string_ok (H := word64) up /\
    run (string_upper (H := word64)) up = Ret (tt, up).
Proof.
  apply (@string_lower_upper_convert word64 (Str.mk chars_hi)). exact string_hi_ok.
Defined.

Lemma string_push_string_other_or_self_witness :
  (exists str',
     run (string_push_string (H := word64) 10 (fun _ => 0) (OfOther (Str.mk chars_hi)))
       (Str.mk chars_hi)
     = Ret (tt, str') /\
     text str' = text (Str.mk chars_hi) ++ text (Str.mk chars_hi) /\
     len (Str.buf str') = len chars_hi + len chars_hi /\
     string_ok (H := word64) str') /\
  (forall r, run (string_push_string (H := word64) 10 (fun _ => 0) OfSelf) (Str.mk chars_hi)
             <> Ret r) /\
  run (string_push_string (H := word64) 10 (fun _ => 0) OfSelf) (Str.mk chars_hi) = Crash.
Proof.
  destruct (@string_push_string_other_or_self word64 10 (fun _ => 0) (Str.mk chars_hi)
              chars_hi_ok) as [Hother Hself].
  split.
  - apply (Hother (Str.mk chars_hi)).
    + exact string_hi_ok.
    + exact hi_no_null.
    + reflexivity.
    + reflexivity.
  - destruct Hself as [Hnot Hcrash].
    + exact string_hi_ok.
    + discriminate.
    + exact hi_no_null.
    + reflexivity.
    + split; [exact Hnot|]. apply Hcrash. discriminate.
Defined.

Lemma string_compare_string_decides_witness :
  string_compare_string (H := word64) (Str.mk chars_hi) (Str.mk chars_hi)
  = Ret (bool_decide (text (Str.mk chars_hi) = text (Str.mk chars_hi))).
Proof.
  apply (@string_compare_string_decides word64 (Str.mk chars_hi) (Str.mk chars_hi)).
  - split; discriminate.
  - exact string_hi_ok.
  - exact hi_no_null.
Defined.

Lemma string_clear_keeps_block_witness :
  exists str',
    run string_clear (Str.mk chars_hi) = Ret (tt, str') /\
    text str' = [] /\ len (Str.buf str') = 0 /\
    buf (Str.buf str') = buf chars_hi /\
    strlen_from (buf (Str.buf str')) = Some (len chars_hi).
Proof.
  apply (@string_clear_keeps_block word64 (Str.mk chars_hi)).
  - exact string_hi_ok.
  - exact hi_no_null.
Defined.
